(** * Continuation power flow: a shallow embedding of
    [GridCal/Engine/Simulations/ContinuationPowerFlow/continuation_power_flow.py]

    The embedding follows the Python source function by function
    ([cpf_p], [cpf_p_jac], [corrector], [predictor], [continuation_nr]).

    Modelling conventions.
    - numpy [float64] values are idealised as exact reals ([R]); a
      [complex128] is a pair of reals.  No rounding, NaN, infinity or signed
      zero exists in the model.
    - a one-dimensional numpy array is a [list]; integer index arrays are
      [list nat] (negative indices are excluded by the type).
    - Python exceptions are the [Raise] case of [result]: fancy indexing out
      of range raises [IndexError], an element-wise operation on arrays whose
      lengths cannot be broadcast raises [ValueError].
    - code of the repository that is not part of this file's source
      ([_create_J_with_numba], [control_q_direct], [compile_types]) and the
      sparse linear solver [spsolve] are parameters of the sections below.
      The Jacobian block is taken to have the shape the assembly expects
      (one row and one column per unknown), so [hstack] and [vstack] do not
      fail; for a singular system [spsolve] returns some vector (numpy
      returns NaN there, which the reals do not have).
    - [verbose] printing and the unused [Ibus] arguments are left out. *)

From Stdlib Require Import String Reals Lra Lia Arith ZArith Bool List.
From Stdlib Require Finite.
Import ListNotations.
Open Scope R_scope.

Set Implicit Arguments.

(** ** Exceptions *)

Inductive exn : Type :=
| IndexError
| ValueError
| TypeError
| AttributeError
| Exception_ (msg : string).

Inductive result (A : Type) : Type :=
| Ok (a : A)
| Raise (e : exn).

Arguments Ok {A} a.
Arguments Raise {A} e.

Definition bind {A B : Type} (c : result A) (k : A -> result B) : result B :=
  match c with
  | Ok a => k a
  | Raise e => Raise e
  end.

Notation "x <- c ;; k" := (bind c (fun x => k))
  (at level 61, c at next level, right associativity).
Notation "' p <- c ;; k" := (bind c (fun x => let p := x in k))
  (at level 61, p pattern, c at next level, right associativity).

Definition is_ok {A : Type} (c : result A) : Prop :=
  match c with Ok _ => True | Raise _ => False end.

(** ** Comparisons on reals, as booleans *)

Definition Rltb (a b : R) : bool := if Rlt_dec a b then true else false.
Definition Rleb (a b : R) : bool := if Rle_dec a b then true else false.
Definition Reqb (a b : R) : bool := if Req_dec_T a b then true else false.

(** ** One-dimensional arrays *)

Section Arrays.
Context {A : Type}.

(** [v[i]] *)
Definition getitem (v : list A) (i : nat) : result A :=
  match nth_error v i with
  | Some x => Ok x
  | None => Raise IndexError
  end.

(** [v[idx]] for an integer index array [idx] *)
Fixpoint take_idx (v : list A) (idx : list nat) : result (list A) :=
  match idx with
  | [] => Ok []
  | i :: idx' =>
      x <- getitem v i ;;
      xs <- take_idx v idx' ;;
      Ok (x :: xs)
  end.

(** the array [v] with slot [i] replaced by [x] (no bounds check) *)
Fixpoint upd (v : list A) (i : nat) (x : A) : list A :=
  match v, i with
  | [], _ => []
  | _ :: v', O => x :: v'
  | y :: v', S i' => y :: upd v' i' x
  end.

(** [v[i] = x] *)
Definition setitem (v : list A) (i : nat) (x : A) : result (list A) :=
  if (i <? length v)%nat then Ok (upd v i x) else Raise IndexError.

(** the values [vals] stretched to [n] slots, as numpy broadcasts a
    one-dimensional array against an index array of length [n] *)
Definition broadcast_to (n : nat) (vals : list A) : result (list A) :=
  if (length vals =? n)%nat then Ok vals
  else match vals with
       | [x] => Ok (repeat x n)
       | _ => Raise ValueError
       end.

Fixpoint put_seq (v : list A) (idx : list nat) (vals : list A)
  : result (list A) :=
  match idx, vals with
  | i :: idx', x :: vals' =>
      v' <- setitem v i x ;;
      put_seq v' idx' vals'
  | _, _ => Ok v
  end.

(** [v[idx] = vals]: slots are written in order, a later duplicate wins *)
Definition put_idx (v : list A) (idx : list nat) (vals : list A)
  : result (list A) :=
  vals' <- broadcast_to (length idx) vals ;;
  put_seq v idx vals'.

(** [v[a:b]] *)
Definition slice (v : list A) (a b : nat) : list A :=
  firstn (b - a) (skipn a v).
End Arrays.

(** element-wise binary operation with numpy's broadcasting rule for
    one-dimensional operands *)
Fixpoint map2 {A B C : Type} (f : A -> B -> C) (a : list A) (b : list B)
  : list C :=
  match a, b with
  | x :: a', y :: b' => f x y :: map2 f a' b'
  | _, _ => []
  end.

Definition elementwise {A B C : Type} (f : A -> B -> C)
  (a : list A) (b : list B) : result (list C) :=
  if (length a =? length b)%nat then Ok (map2 f a b)
  else match a, b with
       | [x], _ => Ok (map (f x) b)
       | _, [y] => Ok (map (fun x => f x y) a)
       | _, _ => Raise ValueError
       end.

(** [np.sum], [np.dot] on one-dimensional real arrays *)
Definition vsum (v : list R) : R := fold_right Rplus 0 v.

Definition dot (a b : list R) : result R :=
  if (length a =? length b)%nat then Ok (vsum (map2 Rmult a b))
  else Raise ValueError.

(** [linalg.norm(v, Inf)] and [linalg.norm(v)] *)
Definition norm_inf (v : list R) : R :=
  fold_right (fun x m => Rmax (Rabs x) m) 0 v.

Definition norm2 (v : list R) : R := sqrt (vsum (map (fun x => x * x) v)).

(** ** Complex numbers *)

Definition C : Type := (R * R)%type.

Definition Cre (c : C) : R := fst c.
Definition Cim (c : C) : R := snd c.
Definition Cadd (a b : C) : C := (Cre a + Cre b, Cim a + Cim b).
Definition Csub (a b : C) : C := (Cre a - Cre b, Cim a - Cim b).
Definition Cmul (a b : C) : C :=
  (Cre a * Cre b - Cim a * Cim b, Cre a * Cim b + Cim a * Cre b).
Definition Cconj (a : C) : C := (Cre a, - Cim a).
Definition Cscal (r : R) (a : C) : C := (r * Cre a, r * Cim a).

(** [np.abs] of a complex number *)
Definition Cabs (c : C) : R := sqrt (Cre c * Cre c + Cim c * Cim c).

(** [np.arctan2(y, x)] *)
Definition arctan2 (y x : R) : R :=
  if Rltb 0 x then atan (y / x)
  else if Rltb x 0 then
         if Rleb 0 y then atan (y / x) + PI else atan (y / x) - PI
       else if Rltb 0 y then PI / 2
            else if Rltb y 0 then - (PI / 2) else 0.

(** [np.angle] *)
Definition angle (c : C) : R := arctan2 (Cim c) (Cre c).

(** [m * exp(1j * a)] for a real magnitude [m] and a real angle [a] *)
Definition polar (m a : R) : C := (m * cos a, m * sin a).

(** ** Sparse matrices

    The admittance matrix [Ybus] is a scipy sparse matrix: a shape and the
    stored entries [(row, column, value)].  [sp_indices] is the [indices]
    attribute of the compressed-column format (the row of every stored
    entry). *)

Record spmatrix : Type := mk_spmatrix {
  sp_nrows : nat;
  sp_ncols : nat;
  sp_entries : list (nat * nat * C)
}.

Definition sp_indices (M : spmatrix) : list nat :=
  map (fun e => fst (fst e)) (sp_entries M).

Definition sp_row_dot (M : spmatrix) (V : list C) (i : nat) : C :=
  fold_right
    (fun e acc =>
       let '(r, c, y) := e in
       if (r =? i)%nat then Cadd (Cmul y (nth c V (0, 0))) acc else acc)
    (0, 0) (sp_entries M).

(** [M * V] *)
Definition sp_mul (M : spmatrix) (V : list C) : result (list C) :=
  if (sp_ncols M =? length V)%nat
  then Ok (map (sp_row_dot M V) (seq 0 (sp_nrows M)))
  else Raise ValueError.

(** a dense real matrix, as a list of rows *)
Definition matrix : Type := list (list R).

(** [vstack([hstack([J, dF_dlam.reshape(nj, 1)]), hstack([dP_dV, dP_dlam])])] *)
Definition augment (J : matrix) (dF_dlam dP_dV : list R) (dP_dlam : R)
  : matrix :=
  map2 (fun row c => row ++ [c]) J dF_dlam ++ [dP_dV ++ [dP_dlam]].

(** ** Enumerations and loosely typed arguments *)

Inductive VCStopAt : Type := Nose | Full.

Inductive VCParametrization : Type := Natural | ArcLength | PseudoArcLength.

(** Modelled from the spec: [ReactivePowerControlMode] of
    [GridCal.Engine.basic_structures], with the two modes the configuration
    surface lists. *)
Inductive ReactivePowerControlMode : Type := NoControl | Direct.

(** a Python value that is not a member of the enumeration at hand *)
Inductive pyobj : Type :=
| PyStr (s : string)
| PyInt (n : Z)
| PyNone.

(** the [parametrization] argument: the annotation is not enforced *)
Inductive param_arg : Type :=
| Param (p : VCParametrization)
| ParamOther (v : pyobj).

(** the [stop_at] argument *)
Inductive stop_arg : Type :=
| StopAt (s : VCStopAt)
| StopOther (v : pyobj).

(** ** The parametrization function *)

Definition shift (nb : nat) (idx : list nat) : list nat :=
  map (fun i => (nb + i)%nat) idx.

Definition cpf_p (parametrization : param_arg) (step : R) (z : list R)
  (V : list C) (lam : R) (V_prev : list C) (lamprv : R)
  (pv pq pvpq : list nat) : result R :=
  match parametrization with
  | Param Natural =>
      if Rleb lamprv lam
      then Ok (lam - lamprv - step)
      else Ok (lamprv - lam - step)
  | Param ArcLength =>
      let Va := map angle V in
      let Vm := map Cabs V in
      let Va_prev := map angle V_prev in
      let Vm_prev := map Cabs V_prev in
      Va_pvpq <- take_idx Va pvpq ;;
      Vm_pq <- take_idx Vm pq ;;
      let a := Va_pvpq ++ Vm_pq ++ [lam] in
      Vap_pvpq <- take_idx Va_prev pvpq ;;
      Vmp_pq <- take_idx Vm_prev pq ;;
      let b := Vap_pvpq ++ Vmp_pq ++ [lamprv] in
      d <- elementwise Rminus a b ;;
      Ok (vsum (map (fun x => x ^ 2) d) - step ^ 2)
  | Param PseudoArcLength =>
      let nb := length V in
      let Va := map angle V in
      let Vm := map Cabs V in
      let Va_prev := map angle V_prev in
      let Vm_prev := map Cabs V_prev in
      a <- take_idx z (pv ++ pq ++ shift nb pq ++ [(2 * nb)%nat]) ;;
      Va_pvpq <- take_idx Va pvpq ;;
      Vm_pq <- take_idx Vm pq ;;
      let b := Va_pvpq ++ Vm_pq ++ [lam] in
      Vap_pvpq <- take_idx Va_prev pvpq ;;
      Vmp_pq <- take_idx Vm_prev pq ;;
      let c := Vap_pvpq ++ Vmp_pq ++ [lamprv] in
      d <- elementwise Rminus b c ;;
      P <- dot a d ;;
      Ok (P - step)
  | ParamOther _ =>
      if Rleb lamprv lam
      then Ok (lam - lamprv - step)
      else Ok (lamprv - lam - step)
  end.

Definition cpf_p_jac (parametrization : param_arg) (z : list R)
  (V : list C) (lam : R) (Vprv : list C) (lamprv : R)
  (pv pq pvpq : list nat) : result (list R * R) :=
  match parametrization with
  | Param Natural =>
      let npv := length pv in
      let npq := length pq in
      let dP_dV := repeat 0 (npv + 2 * npq) in
      if Rleb lamprv lam then Ok (dP_dV, 1) else Ok (dP_dV, -1)
  | Param ArcLength =>
      let Va := map angle V in
      let Vm := map Cabs V in
      let Vaprv := map angle Vprv in
      let Vmprv := map Cabs Vprv in
      Va_pvpq <- take_idx Va pvpq ;;
      Vm_pq <- take_idx Vm pq ;;
      Vap_pvpq <- take_idx Vaprv pvpq ;;
      Vmp_pq <- take_idx Vmprv pq ;;
      d <- elementwise Rminus (Va_pvpq ++ Vm_pq) (Vap_pvpq ++ Vmp_pq) ;;
      let dP_dV := map (Rmult 2) d in
      if Reqb lam lamprv then Ok (dP_dV, 1)
      else Ok (dP_dV, 2 * (lam - lamprv))
  | Param PseudoArcLength =>
      let nb := length V in
      dP_dV <- take_idx z (pv ++ pq ++ shift nb pq) ;;
      dP_dlam <- getitem z (2 * nb) ;;
      Ok (dP_dV, dP_dlam)
  | ParamOther _ =>
      let nb := length V in
      dP_dV <- take_idx z (pv ++ pq ++ shift nb pq) ;;
      dP_dlam <- getitem z (2 * nb) ;;
      Ok (dP_dV, dP_dlam)
  end.

(** ** The corrector *)

(** [Scalc = V * conj(Ybus * V)] and
    [mismatch = Scalc - Sbus - lam * Sxfr], the two lines the corrector
    evaluates before and inside its loop *)
Definition calc_mismatch (Ybus : spmatrix) (Sbus Sxfr V : list C) (lam : R)
  : result (list C * list C) :=
  YV <- sp_mul Ybus V ;;
  Scalc <- elementwise Cmul V (map Cconj YV) ;;
  m <- elementwise Csub Scalc Sbus ;;
  mismatch <- elementwise Csub m (map (Cscal lam) Sxfr) ;;
  Ok (Scalc, mismatch).

(** the local variables of [corrector] that its loop reads and writes *)
Record cstate : Type := mk_cstate {
  c_V : list C;
  c_Va : list R;
  c_Vm : list R;
  c_lam : R;
  c_F : list R;
  c_normF : R;
  c_Scalc : list C;
  c_converged : bool;
  c_i : nat
}.

Section Corrector.
(** [_create_J_with_numba(Ybus, V, pvpq, pq, pvpq_lookup, npv, npq)] and
    [scipy.sparse.linalg.spsolve] *)
Variable create_J :
  spmatrix -> list C -> list nat -> list nat -> list nat -> nat -> nat ->
  matrix.
Variable spsolve : matrix -> list R -> list R.

(** the arguments of [corrector] that stay fixed during the call; the
    unused [Ibus] and [verbose] are left out *)
Variable Ybus : spmatrix.
Variable Sbus : list C.
Variable pv pq : list nat.
Variable Sxfr : list C.
Variable Vprv : list C.
Variable lamprv : R.
Variable z : list R.
Variable step : R.
Variable parametrization : param_arg.
Variable tol : R.
Variable pvpq_lookup : list nat.

(** the code before the loop *)
Definition corrector_init (V0 : list C) (lam0 : R) : result cstate :=
  let V := V0 in
  let Va := map angle V in
  let Vm := map Cabs V in
  let lam := lam0 in
  let pvpq := pv ++ pq in
  '(Scalc, mismatch) <- calc_mismatch Ybus Sbus Sxfr V lam ;;
  P <- cpf_p parametrization step z V lam Vprv lamprv pv pq pvpq ;;
  m_pvpq <- take_idx mismatch pvpq ;;
  m_pq <- take_idx mismatch pq ;;
  let F := map Cre m_pvpq ++ map Cim m_pq ++ [P] in
  let normF := norm_inf F in
  Ok (mk_cstate V Va Vm lam F normF Scalc (Rltb normF tol) 0).

(** the first half of the loop body: the Newton step [dx] and the update
    of [Va], [Vm] and [lam] with it *)
Definition newton_update (s : cstate) : result (list R * list R * R) :=
  let npv := length pv in
  let npq := length pq in
  let pvpq := pv ++ pq in
  let j1 := 0%nat in
  let j2 := (npv + npq)%nat in
  let j3 := (j2 + npq)%nat in
  let J := create_J Ybus (c_V s) pvpq pq pvpq_lookup npv npq in
  S_pvpq <- take_idx Sxfr pvpq ;;
  S_pq <- take_idx Sxfr pq ;;
  let dF_dlam := map Ropp (map Cre S_pvpq ++ map Cim S_pq) in
  '(dP_dV, dP_dlam) <-
    cpf_p_jac parametrization z (c_V s) (c_lam s) Vprv lamprv pv pq pvpq ;;
  let J := augment J dF_dlam dP_dV dP_dlam in
  let dx := map Ropp (spsolve J (c_F s)) in
  Va <- (if (0 <? npv)%nat
         then g <- take_idx (c_Va s) pvpq ;;
              g' <- elementwise Rplus g (slice dx j1 j2) ;;
              put_idx (c_Va s) pvpq g'
         else Ok (c_Va s)) ;;
  Vm <- (if (0 <? npq)%nat
         then g <- take_idx (c_Vm s) pq ;;
              g' <- elementwise Rplus g (slice dx j2 j3) ;;
              put_idx (c_Vm s) pq g'
         else Ok (c_Vm s)) ;;
  dlam <- getitem dx j3 ;;
  Ok (Va, Vm, c_lam s + dlam).

(** one pass through the body of the [while] loop *)
Definition newton_step (s : cstate) : result cstate :=
  let pvpq := pv ++ pq in
  let i := S (c_i s) in
  '(Va, Vm, lam) <- newton_update s ;;
  V <- elementwise polar Vm Va ;;
  let Vm := map Cabs V in
  let Va := map angle V in
  '(Scalc, mismatch) <- calc_mismatch Ybus Sbus Sxfr V lam ;;
  P <- cpf_p parametrization step z V lam Vprv lamprv pv pq pvpq ;;
  m_pv <- take_idx mismatch pv ;;
  m_pq <- take_idx mismatch pq ;;
  let F := map Cre m_pv ++ map Cre m_pq ++ map Cim m_pq ++ [P] in
  let normF := norm_inf F in
  Ok (mk_cstate V Va Vm lam F normF Scalc (Rltb normF tol) i).

(** [while not converged and i < max_it]: [fuel] is [max_it - i] *)
Fixpoint newton_loop (fuel : nat) (s : cstate) : result cstate :=
  match fuel with
  | O => Ok s
  | S fuel' =>
      if c_converged s then Ok s
      else s' <- newton_step s ;; newton_loop fuel' s'
  end.

(** [n] passes through the body of the loop, whatever [converged] is: the
    state the loop returns is the iterate number [c_i] *)
Fixpoint newton_iter (n : nat) (s : cstate) : result cstate :=
  match n with
  | O => Ok s
  | S n' => s' <- newton_step s ;; newton_iter n' s'
  end.

Definition corrector (V0 : list C) (lam0 : R) (max_it : nat)
  : result (list C * bool * nat * R * R * list C) :=
  s0 <- corrector_init V0 lam0 ;;
  s <- newton_loop max_it s0 ;;
  Ok (c_V s, c_converged s, c_i s, c_lam s, c_normF s, c_Scalc s).
End Corrector.

(** ** The predictor *)

Section Predictor.
Variable create_J :
  spmatrix -> list C -> list nat -> list nat -> list nat -> nat -> nat ->
  matrix.
Variable spsolve : matrix -> list R -> list R.

(** the right-hand side [s]: zeros with a one in the lambda slot *)
Definition unit_rhs (npv npq : nat) : list R :=
  upd (repeat 0 (npv + 2 * npq + 1)) (npv + 2 * npq) 1.

(** [z[r_[pvpq, nb + pq, 2 * nb]] = spsolve(J2, s)] followed by
    [z /= linalg.norm(z)]; the array [z] is updated in place and returned,
    so the caller's [z] is the returned one *)
Definition tangent (z : list R) (nb : nat) (pq pvpq : list nat)
  (x : list R) : result (list R) :=
  z1 <- put_idx z (pvpq ++ shift nb pq ++ [(2 * nb)%nat]) x ;;
  let n := norm2 z1 in
  Ok (map (fun c => c / n) z1).

(** the linear operator [J2] for computing the tangent predictor *)
Definition tangent_system (V : list C) (lam : R) (Ybus : spmatrix)
  (Sxfr : list C) (pv pq : list nat) (z : list R)
  (Vprv : list C) (lamprv : R) (parametrization : param_arg)
  (pvpq_lookup : list nat) : result matrix :=
  let npv := length pv in
  let npq := length pq in
  let pvpq := pv ++ pq in
  let J := create_J Ybus V pvpq pq pvpq_lookup npv npq in
  S_pvpq <- take_idx Sxfr pvpq ;;
  S_pq <- take_idx Sxfr pq ;;
  let dF_dlam := map Ropp (map Cre S_pvpq ++ map Cim S_pq) in
  '(dP_dV, dP_dlam) <-
    cpf_p_jac parametrization z V lam Vprv lamprv pv pq pvpq ;;
  Ok (augment J dF_dlam dP_dV dP_dlam).

Definition predictor (V : list C) (lam : R) (Ybus : spmatrix)
  (Sxfr : list C) (pv pq : list nat) (step : R) (z : list R)
  (Vprv : list C) (lamprv : R) (parametrization : param_arg)
  (pvpq_lookup : list nat) : result (list C * R * list R) :=
  let nb := length V in
  let npv := length pv in
  let npq := length pq in
  let pvpq := pv ++ pq in
  J2 <- tangent_system V lam Ybus Sxfr pv pq z Vprv lamprv parametrization
          pvpq_lookup ;;
  let Va_prev := map angle V in
  let Vm_prev := map Cabs V in
  let s := unit_rhs npv npq in
  z <- tangent z nb pq pvpq (spsolve J2 s) ;;
  (* Va0[pvpq] = Va_prev[pvpq] + step * z[pvpq] *)
  a <- take_idx Va_prev pvpq ;;
  za <- take_idx z pvpq ;;
  a' <- elementwise Rplus a (map (Rmult step) za) ;;
  Va0 <- put_idx Va_prev pvpq a' ;;
  (* Vm0[pq] = Vm_prev[pq] + step * z[pq + nb] *)
  m <- take_idx Vm_prev pq ;;
  zm <- take_idx z (shift nb pq) ;;
  m' <- elementwise Rplus m (map (Rmult step) zm) ;;
  Vm0 <- put_idx Vm_prev pq m' ;;
  zl <- getitem z (2 * nb) ;;
  let lam0 := lam + step * zl in
  V0 <- elementwise polar Vm0 Va0 ;;
  Ok (V0, lam0, z).
End Predictor.

(** ** The continuation driver *)

(** the local variables of [continuation_nr] that outlive one pass of its
    loop; [d_Sbus] is unbound ([None]) until reactive-limit control
    reclassifies a bus; [d_callbacks] records the arguments of
    [call_back_fx] *)
Record dstate : Type := mk_dstate {
  d_V : list C;
  d_V_prev : list C;
  d_lam : R;
  d_lam_prev : R;
  d_z : list R;
  d_step : R;
  d_pv : list nat;
  d_pq : list nat;
  d_bus_types : list Z;
  d_Sbus : option (list C);
  d_approximation_order : param_arg;
  d_adapt_step : bool;
  d_continuation : bool;
  d_cont_steps : nat;
  d_normF : R;
  d_success : bool;
  d_voltage_series : list (list C);
  d_lambda_series : list R;
  d_callbacks : list R
}.

Definition set_V (x : list C) (st : dstate) : dstate :=
  mk_dstate x (d_V_prev st) (d_lam st) (d_lam_prev st) (d_z st) (d_step st)
    (d_pv st) (d_pq st) (d_bus_types st) (d_Sbus st) (d_approximation_order
    st) (d_adapt_step st) (d_continuation st) (d_cont_steps st) (d_normF st)
    (d_success st) (d_voltage_series st) (d_lambda_series st) (d_callbacks st).
Definition set_V_prev (x : list C) (st : dstate) : dstate :=
  mk_dstate (d_V st) x (d_lam st) (d_lam_prev st) (d_z st) (d_step st) (d_pv
    st) (d_pq st) (d_bus_types st) (d_Sbus st) (d_approximation_order st)
    (d_adapt_step st) (d_continuation st) (d_cont_steps st) (d_normF st)
    (d_success st) (d_voltage_series st) (d_lambda_series st) (d_callbacks st).
Definition set_lam (x : R) (st : dstate) : dstate :=
  mk_dstate (d_V st) (d_V_prev st) x (d_lam_prev st) (d_z st) (d_step st)
    (d_pv st) (d_pq st) (d_bus_types st) (d_Sbus st) (d_approximation_order
    st) (d_adapt_step st) (d_continuation st) (d_cont_steps st) (d_normF st)
    (d_success st) (d_voltage_series st) (d_lambda_series st) (d_callbacks st).
Definition set_lam_prev (x : R) (st : dstate) : dstate :=
  mk_dstate (d_V st) (d_V_prev st) (d_lam st) x (d_z st) (d_step st) (d_pv st)
    (d_pq st) (d_bus_types st) (d_Sbus st) (d_approximation_order st)
    (d_adapt_step st) (d_continuation st) (d_cont_steps st) (d_normF st)
    (d_success st) (d_voltage_series st) (d_lambda_series st) (d_callbacks st).
Definition set_z (x : list R) (st : dstate) : dstate :=
  mk_dstate (d_V st) (d_V_prev st) (d_lam st) (d_lam_prev st) x (d_step st)
    (d_pv st) (d_pq st) (d_bus_types st) (d_Sbus st) (d_approximation_order
    st) (d_adapt_step st) (d_continuation st) (d_cont_steps st) (d_normF st)
    (d_success st) (d_voltage_series st) (d_lambda_series st) (d_callbacks st).
Definition set_step (x : R) (st : dstate) : dstate :=
  mk_dstate (d_V st) (d_V_prev st) (d_lam st) (d_lam_prev st) (d_z st) x (d_pv
    st) (d_pq st) (d_bus_types st) (d_Sbus st) (d_approximation_order st)
    (d_adapt_step st) (d_continuation st) (d_cont_steps st) (d_normF st)
    (d_success st) (d_voltage_series st) (d_lambda_series st) (d_callbacks st).
Definition set_pv (x : list nat) (st : dstate) : dstate :=
  mk_dstate (d_V st) (d_V_prev st) (d_lam st) (d_lam_prev st) (d_z st) (d_step
    st) x (d_pq st) (d_bus_types st) (d_Sbus st) (d_approximation_order st)
    (d_adapt_step st) (d_continuation st) (d_cont_steps st) (d_normF st)
    (d_success st) (d_voltage_series st) (d_lambda_series st) (d_callbacks st).
Definition set_pq (x : list nat) (st : dstate) : dstate :=
  mk_dstate (d_V st) (d_V_prev st) (d_lam st) (d_lam_prev st) (d_z st) (d_step
    st) (d_pv st) x (d_bus_types st) (d_Sbus st) (d_approximation_order st)
    (d_adapt_step st) (d_continuation st) (d_cont_steps st) (d_normF st)
    (d_success st) (d_voltage_series st) (d_lambda_series st) (d_callbacks st).
Definition set_bus_types (x : list Z) (st : dstate) : dstate :=
  mk_dstate (d_V st) (d_V_prev st) (d_lam st) (d_lam_prev st) (d_z st) (d_step
    st) (d_pv st) (d_pq st) x (d_Sbus st) (d_approximation_order st)
    (d_adapt_step st) (d_continuation st) (d_cont_steps st) (d_normF st)
    (d_success st) (d_voltage_series st) (d_lambda_series st) (d_callbacks st).
Definition set_Sbus (x : option (list C)) (st : dstate) : dstate :=
  mk_dstate (d_V st) (d_V_prev st) (d_lam st) (d_lam_prev st) (d_z st) (d_step
    st) (d_pv st) (d_pq st) (d_bus_types st) x (d_approximation_order st)
    (d_adapt_step st) (d_continuation st) (d_cont_steps st) (d_normF st)
    (d_success st) (d_voltage_series st) (d_lambda_series st) (d_callbacks st).
Definition set_approximation_order (x : param_arg) (st : dstate) : dstate :=
  mk_dstate (d_V st) (d_V_prev st) (d_lam st) (d_lam_prev st) (d_z st) (d_step
    st) (d_pv st) (d_pq st) (d_bus_types st) (d_Sbus st) x (d_adapt_step st)
    (d_continuation st) (d_cont_steps st) (d_normF st) (d_success st)
    (d_voltage_series st) (d_lambda_series st) (d_callbacks st).
Definition set_adapt_step (x : bool) (st : dstate) : dstate :=
  mk_dstate (d_V st) (d_V_prev st) (d_lam st) (d_lam_prev st) (d_z st) (d_step
    st) (d_pv st) (d_pq st) (d_bus_types st) (d_Sbus st)
    (d_approximation_order st) x (d_continuation st) (d_cont_steps st)
    (d_normF st) (d_success st) (d_voltage_series st) (d_lambda_series st)
    (d_callbacks st).
Definition set_continuation (x : bool) (st : dstate) : dstate :=
  mk_dstate (d_V st) (d_V_prev st) (d_lam st) (d_lam_prev st) (d_z st) (d_step
    st) (d_pv st) (d_pq st) (d_bus_types st) (d_Sbus st)
    (d_approximation_order st) (d_adapt_step st) x (d_cont_steps st) (d_normF
    st) (d_success st) (d_voltage_series st) (d_lambda_series st) (d_callbacks
    st).
Definition set_cont_steps (x : nat) (st : dstate) : dstate :=
  mk_dstate (d_V st) (d_V_prev st) (d_lam st) (d_lam_prev st) (d_z st) (d_step
    st) (d_pv st) (d_pq st) (d_bus_types st) (d_Sbus st)
    (d_approximation_order st) (d_adapt_step st) (d_continuation st) x
    (d_normF st) (d_success st) (d_voltage_series st) (d_lambda_series st)
    (d_callbacks st).
Definition set_normF (x : R) (st : dstate) : dstate :=
  mk_dstate (d_V st) (d_V_prev st) (d_lam st) (d_lam_prev st) (d_z st) (d_step
    st) (d_pv st) (d_pq st) (d_bus_types st) (d_Sbus st)
    (d_approximation_order st) (d_adapt_step st) (d_continuation st)
    (d_cont_steps st) x (d_success st) (d_voltage_series st) (d_lambda_series
    st) (d_callbacks st).
Definition set_success (x : bool) (st : dstate) : dstate :=
  mk_dstate (d_V st) (d_V_prev st) (d_lam st) (d_lam_prev st) (d_z st) (d_step
    st) (d_pv st) (d_pq st) (d_bus_types st) (d_Sbus st)
    (d_approximation_order st) (d_adapt_step st) (d_continuation st)
    (d_cont_steps st) (d_normF st) x (d_voltage_series st) (d_lambda_series
    st) (d_callbacks st).
Definition set_voltage_series (x : list (list C)) (st : dstate) : dstate :=
  mk_dstate (d_V st) (d_V_prev st) (d_lam st) (d_lam_prev st) (d_z st) (d_step
    st) (d_pv st) (d_pq st) (d_bus_types st) (d_Sbus st)
    (d_approximation_order st) (d_adapt_step st) (d_continuation st)
    (d_cont_steps st) (d_normF st) (d_success st) x (d_lambda_series st)
    (d_callbacks st).
Definition set_lambda_series (x : list R) (st : dstate) : dstate :=
  mk_dstate (d_V st) (d_V_prev st) (d_lam st) (d_lam_prev st) (d_z st) (d_step
    st) (d_pv st) (d_pq st) (d_bus_types st) (d_Sbus st)
    (d_approximation_order st) (d_adapt_step st) (d_continuation st)
    (d_cont_steps st) (d_normF st) (d_success st) (d_voltage_series st) x
    (d_callbacks st).
Definition set_callbacks (x : list R) (st : dstate) : dstate :=
  mk_dstate (d_V st) (d_V_prev st) (d_lam st) (d_lam_prev st) (d_z st) (d_step
    st) (d_pv st) (d_pq st) (d_bus_types st) (d_Sbus st)
    (d_approximation_order st) (d_adapt_step st) (d_continuation st)
    (d_cont_steps st) (d_normF st) (d_success st) (d_voltage_series st)
    (d_lambda_series st) x.

(** how one pass of the loop ends, and how the whole call ends; an exception
    carries the local variables at the point where it was raised *)
Inductive step_outcome : Type :=
| Next (st : dstate)
| Fail (e : exn) (st : dstate).

Inductive outcome : Type :=
| Returned (st : dstate)
| RaisedAtEntry (e : exn)
| RaisedInLoop (e : exn) (st : dstate)
| Running (st : dstate).

Definition attempt {A : Type} (c : result A) (st : dstate)
  (k : A -> step_outcome) : step_outcome :=
  match c with
  | Ok a => k a
  | Raise e => Fail e st
  end.

(** [np.max] of an integer array *)
Definition np_max (v : list nat) : result nat :=
  match v with
  | [] => Raise ValueError
  | x :: v' => Ok (fold_right Nat.max x v')
  end.

(** [cpf_error], lines "Adapt step size" *)
Definition cpf_error_of (V V0 : list C) (lam lam0 : R) (pq pvpq : list nat)
  : result R :=
  V_pq <- take_idx V pq ;;
  V_pvpq <- take_idx V pvpq ;;
  V0_pq <- take_idx V0 pq ;;
  V0_pvpq <- take_idx V0 pvpq ;;
  fx <- elementwise Rminus
          (map angle V_pq ++ map Cabs V_pvpq ++ [lam])
          (map angle V0_pq ++ map Cabs V0_pvpq ++ [lam0]) ;;
  Ok (norm_inf fx).

(** the replacement of a zero [cpf_error] *)
Definition guard_zero (cpf_error : R) : R :=
  if Reqb cpf_error 0 then 1e-20 else cpf_error.

(** the new step size, from the guarded [cpf_error] *)
Definition adapt (step error_tol step_min step_max cpf_error : R) : R :=
  if Rltb cpf_error error_tol then
    let step := step * error_tol / cpf_error in
    if Rltb step_max step then step_max else step
  else
    let step := step * error_tol / cpf_error in
    if Rltb step step_min then step_min else step.

(** the text of the exception for an unknown stop point; concatenating a
    string with a value that is not a string is a [TypeError] *)
Definition stop_exception (v : pyobj) : exn :=
  match v with
  | PyStr s => Exception_ ("Stop point " ++ s ++ " not recognised.")
  | _ => TypeError
  end.

Section Driver.
Variable create_J :
  spmatrix -> list C -> list nat -> list nat -> list nat -> nat -> nat ->
  matrix.
Variable spsolve : matrix -> list R -> list R.
(** [control_q_direct(V, Vset, Q, Qmax, Qmin, types, original_types)]
    returns [(V, Qnew, types_new, any_q_control_issue)] *)
Variable control_q_direct :
  list C -> list R -> list R -> list R -> list R -> list Z -> list Z ->
  list C * list R * list Z * bool.
(** [compile_types(Sbus, types)] returns [(vd, pq, pv, pqpv)] *)
Variable compile_types :
  list C -> list Z -> list nat * list nat * list nat * list nat.

(** arguments and locals that no pass of the loop assigns *)
Variable Ybus : spmatrix.
Variable Sbus_base : list C.
Variable Sxfr : list C.
Variable pvpq : list nat.
Variable pvpq_lookup : list nat.
Variable step_min step_max error_tol tol : R.
Variable max_it : nat.
Variable stop_at : stop_arg.
Variable controlQ : ReactivePowerControlMode.
Variable Qmax_bus Qmin_bus : list R.
Variable original_bus_types : list Z.
Variable has_call_back : bool.

(** "Check controls" and "Check the actions of the Q-control" *)
Definition check_controls (Scalc : list C) (st : dstate) : result dstate :=
  let '(V, Qnew, types_new, any_q_control_issue) :=
    match controlQ with
    | Direct =>
        control_q_direct (d_V st) (map Cabs (d_V st)) (map Cim Scalc)
          Qmax_bus Qmin_bus (d_bus_types st) original_bus_types
    | NoControl => (d_V st, map Cim Scalc, d_bus_types st, false)
    end in
  let st := set_V V st in
  if any_q_control_issue then
    Sbus <- elementwise (fun p q => Cadd (p, 0) (Cscal q (0, 1)))
              (map Cre Scalc) Qnew ;;
    let '(vd, pq, pv, pqpv) := compile_types Sbus types_new in
    Ok (set_pv pv (set_pq pq (set_Sbus (Some Sbus)
          (set_bus_types types_new st))))
  else Ok st.

(** the stop-condition branch *)
Definition check_stop (st : dstate) : result dstate :=
  let lam := d_lam st in
  match stop_at with
  | StopAt Full =>
      if Rltb (Rabs lam) 1e-8 then Ok (set_continuation false st)
      else if Rltb lam (d_lam_prev st) && Rltb (lam - d_step st) 0
           then Ok (set_adapt_step false
                      (set_approximation_order (Param Natural)
                         (set_step lam st)))
           else Ok st
  | StopAt Nose =>
      if Rltb lam (d_lam_prev st) then Ok (set_continuation false st)
      else Ok st
  | StopOther v => Raise (stop_exception v)
  end.

(** the step-size adaptation *)
Definition adapt_step_size (V0 : list C) (lam0 : R) (st : dstate)
  : result dstate :=
  if d_adapt_step st && d_continuation st then
    cpf_error <- cpf_error_of (d_V st) V0 (d_lam st) lam0 (d_pq st) pvpq ;;
    let cpf_error := guard_zero cpf_error in
    Ok (set_step (adapt (d_step st) error_tol step_min step_max cpf_error)
          st)
  else Ok st.

Definition call_back (st : dstate) : dstate :=
  if has_call_back then set_callbacks (d_callbacks st ++ [d_lam st]) st
  else st.

(** one pass through the body of [while continuation] *)
Definition loop_body (st : dstate) : step_outcome :=
  let st := set_cont_steps (S (d_cont_steps st)) st in
  attempt (predictor create_J spsolve (d_V st) (d_lam st) Ybus Sxfr
         (d_pv st) (d_pq st) (d_step st) (d_z st) (d_V_prev st)
         (d_lam_prev st) (d_approximation_order st) pvpq_lookup) st
    (fun '(V0, lam0, z) =>
  let st := set_lam_prev (d_lam st) (set_V_prev (d_V st) (set_z z st)) in
  attempt (corrector create_J spsolve Ybus Sbus_base (d_pv st) (d_pq st)
         Sxfr (d_V_prev st) (d_lam_prev st) (d_z st) (d_step st)
         (d_approximation_order st) tol pvpq_lookup V0 lam0 max_it) st
    (fun '(V, success, i, lam, normF, Scalc) =>
  let st := set_normF normF (set_lam lam (set_success success
              (set_V V st))) in
  let st := set_lambda_series (d_lambda_series st ++ [lam])
              (set_voltage_series (d_voltage_series st ++ [V]) st) in
  if success then
    attempt (check_controls Scalc st) st (fun st =>
    attempt (check_stop st) st (fun st =>
    attempt (adapt_step_size V0 lam0 st) st (fun st =>
    Next (call_back st))))
  else Next (set_continuation false st))).

Fixpoint continuation_loop (fuel : nat) (st : dstate) : outcome :=
  match fuel with
  | O => if d_continuation st then Running st else Returned st
  | S fuel' =>
      if d_continuation st then
        match loop_body st with
        | Next st' => continuation_loop fuel' st'
        | Fail e st' => RaisedInLoop e st'
        end
      else Returned st
  end.
End Driver.

(** the "INITIALIZATION" block of [continuation_nr] *)
Definition continuation_init (Ybus : spmatrix) (Sbus_base Sbus_target : list C)
  (pv pq : list nat) (original_bus_types : option (list Z))
  : result (list C * list nat * list Z * list R * list nat) :=
  Sxfr <- elementwise Csub Sbus_target Sbus_base ;;
  let nb := length Sbus_base in
  let pvpq := pv ++ pq in
  bus_types <- match original_bus_types with
               | Some t => Ok t
               | None => Raise AttributeError
               end ;;
  let z := upd (repeat 0 (2 * nb + 1)) (2 * nb) 1 in
  mx <- np_max (sp_indices Ybus) ;;
  pvpq_lookup <- put_idx (repeat 0%nat (mx + 1)) pvpq
                   (seq 0 (length pvpq)) ;;
  Ok (Sxfr, pvpq, bus_types, z, pvpq_lookup).

(** [continuation_nr]; [fuel] bounds the number of passes of the loop that
    are followed ([Running] when the loop has not ended by then).  The result
    [Returned st] stands for the returned tuple
    [(d_voltage_series st, d_lambda_series st, d_normF st, d_success st)]. *)
Definition continuation_nr
  (create_J :
     spmatrix -> list C -> list nat -> list nat -> list nat -> nat -> nat ->
     matrix)
  (spsolve : matrix -> list R -> list R)
  (control_q_direct :
     list C -> list R -> list R -> list R -> list R -> list Z -> list Z ->
     list C * list R * list Z * bool)
  (compile_types :
     list C -> list Z -> list nat * list nat * list nat * list nat)
  (fuel : nat)
  (Ybus : spmatrix) (Sbus_base Sbus_target V : list C) (pv pq : list nat)
  (step : R) (approximation_order : param_arg) (adapt_step : bool)
  (step_min step_max error_tol tol : R) (max_it : nat) (stop_at : stop_arg)
  (controlQ : ReactivePowerControlMode) (Qmax_bus Qmin_bus : list R)
  (original_bus_types : option (list Z)) (has_call_back : bool) : outcome :=
  match continuation_init Ybus Sbus_base Sbus_target pv pq
          original_bus_types with
  | Raise e => RaisedAtEntry e
  | Ok (Sxfr, pvpq, bus_types, z, pvpq_lookup) =>
      continuation_loop create_J spsolve control_q_direct compile_types
        Ybus Sbus_base Sxfr pvpq pvpq_lookup step_min step_max error_tol tol
        max_it stop_at controlQ Qmax_bus Qmin_bus bus_types has_call_back
        fuel
        (mk_dstate V V 0 0 z step pv pq bus_types None approximation_order
           adapt_step true 0 0 false [] [] [])
  end.

(** ** A two-bus network for the examples

    Bus 0 is the slack bus and bus 1 a PQ bus; they are joined by a line of
    admittance [-j] (a reactance of 1 p.u.), and the base case is the flat
    start with no injections. *)

Definition ex_Ybus : spmatrix :=
  mk_spmatrix 2 2
    [(0%nat, 0%nat, (0, -1)); (1%nat, 0%nat, (0, 1));
     (0%nat, 1%nat, (0, 1)); (1%nat, 1%nat, (0, -1))].

Definition ex_V : list C := [(1, 0); (1, 0)].
Definition ex_Sbus : list C := [(0, 0); (0, 0)].
Definition ex_pv : list nat := [].
Definition ex_pq : list nat := [1%nat].
Definition ex_z : list R := [0; 0; 0; 0; 1].

(** a state of the driver's loop on this network, after a step that reached
    [lam = 1/10] from a predicted [lam0 = 1/10] *)
Definition ex_state (step : R) (adapt_step : bool) : dstate :=
  mk_dstate ex_V ex_V (1 / 10) 0 ex_z step ex_pv ex_pq [1%Z; 3%Z] None
    (Param Natural) adapt_step true 1 0 true [ex_V] [1 / 10] [].

Definition ex_Starget : list C := [(0, 0); (0, - (3 / 4))].

(** the power-flow Jacobian of this network, with the slack voltage at [1]:
    the injection at bus 1 is [P = v sin a], [Q = v^2 - v cos a].  When
    bus 1 is a PV bus the only unknown is its angle; when it is a PQ bus the
    unknowns are its angle and its magnitude. *)
Definition ex_create_J (Ybus : spmatrix) (V : list C)
  (pvpq pq pvpq_lookup : list nat) (npv npq : nat) : matrix :=
  let V1 := nth 1 V (0, 0) in
  match npq with
  | O => [[Cre V1]]
  | S _ =>
      [[Cre V1; Cim V1 / Cabs V1];
       [Cim V1; 2 * Cabs V1 - Cre V1 / Cabs V1]]
  end.

(** a direct solver for upper-triangular systems (back substitution), which
    is what the augmented systems of the examples are *)
Fixpoint back_subst_rows (b : list R) (A : matrix) : list R :=
  match b, A with
  | bi :: b', row :: A' =>
      let x' := back_subst_rows b' (map (@tl R) A') in
      (bi - vsum (map2 Rmult (tl row) x')) / hd 0 row :: x'
  | _, _ => []
  end.

Definition back_subst (A : matrix) (b : list R) : list R :=
  back_subst_rows b A.

(** reactive-limit control that finds nothing to do, and a bus-type
    compiler for the fixed partition of this network *)
Definition ex_control_q (V : list C) (Vset Q Qmax Qmin : list R)
  (types original_types : list Z) : list C * list R * list Z * bool :=
  (V, Q, types, false).

Definition ex_compile_types (Sbus : list C) (types : list Z)
  : list nat * list nat * list nat * list nat :=
  ([0%nat], [1%nat], [], [1%nat]).

(** a reactive-limit control in the interface of [control_q_direct] (which
    is not part of the source at hand), for the examples.  A PV bus
    (type 2) whose computed reactive power reaches a limit becomes a PQ bus
    (type 1) with its reactive power at that limit; the other buses are left
    alone. *)
Fixpoint limit_q (Q Qmax Qmin : list R) (types : list Z)
  : list R * list Z * bool :=
  match Q, Qmax, Qmin, types with
  | q :: Q', qmax :: Qmax', qmin :: Qmin', t :: types' =>
      let '(Qnew, types_new, issue) := limit_q Q' Qmax' Qmin' types' in
      if (t =? 2)%Z then
        if Rleb qmax q then (qmax :: Qnew, 1%Z :: types_new, true)
        else if Rleb q qmin then (qmin :: Qnew, 1%Z :: types_new, true)
             else (q :: Qnew, t :: types_new, issue)
      else (q :: Qnew, t :: types_new, issue)
  | _, _, _, _ => ([], [], false)
  end.

Definition ex_limit_control (V : list C) (Vset Q Qmax Qmin : list R)
  (types original_types : list Z) : list C * list R * list Z * bool :=
  let '(Qnew, types_new, issue) := limit_q Q Qmax Qmin types in
  (V, Qnew, types_new, issue).

(** the positions of the buses of type [t] *)
Fixpoint buses_of_type (t : Z) (types : list Z) (i : nat) : list nat :=
  match types with
  | [] => []
  | t' :: types' =>
      if (t' =? t)%Z then i :: buses_of_type t types' (S i)
      else buses_of_type t types' (S i)
  end.

(** a bus-type compiler in the interface of [compile_types], for the
    examples: the slack, PQ and PV index arrays and the PQ and PV buses
    together *)
Definition ex_partition (Sbus : list C) (types : list Z)
  : list nat * list nat * list nat * list nat :=
  let pq := buses_of_type 1 types 0 in
  let pv := buses_of_type 2 types 0 in
  (buses_of_type 3 types 0, pq, pv, pq ++ pv).

(** * Vocabulary of the properties *)

(** ** Trajectories of the driver *)

(** the trajectory has one point per continuation step *)
Definition trace_inv (st : dstate) : Prop :=
  length (d_voltage_series st) = d_cont_steps st /\
  length (d_lambda_series st) = d_cont_steps st.

(** after a step whose corrector failed, the failing point is the last one
    of the trajectory *)
Definition failed_last (st : dstate) : Prop :=
  d_success st = false ->
  exists vs ls,
    d_voltage_series st = vs ++ [d_V st] /\
    d_lambda_series st = ls ++ [d_lam st].

(** the fields that the code after "store series values" leaves alone *)
Definition same_trace (st st' : dstate) : Prop :=
  d_voltage_series st' = d_voltage_series st /\
  d_lambda_series st' = d_lambda_series st /\
  d_cont_steps st' = d_cont_steps st /\
  d_success st' = d_success st.

(** what one pass of the loop does to the trajectory *)
Definition appended_one (st st' : dstate) : Prop :=
  d_cont_steps st' = S (d_cont_steps st) /\
  exists V lam,
    d_voltage_series st' = d_voltage_series st ++ [V] /\
    d_lambda_series st' = d_lambda_series st ++ [lam] /\
    (d_success st' = false ->
     d_continuation st' = false /\ d_V st' = V /\ d_lam st' = lam).

(** [passes body n st st']: [n] passes of the loop lead from [st] to [st'];
    each of them starts with [continuation] set and runs to the end of the
    loop body *)
Inductive passes (body : dstate -> step_outcome)
  : nat -> dstate -> dstate -> Prop :=
| passes_none (st : dstate) : passes body 0 st st
| passes_more (n : nat) (st st1 st' : dstate) :
    d_continuation st = true -> body st = Next st1 ->
    passes body n st1 st' -> passes body (S n) st st'.

(** ** The local [Sbus] of the driver *)

(** a state, a pass and a run, with the local [Sbus] unbound again *)
Definition forget_Sbus (st : dstate) : dstate := set_Sbus None st.

Definition forget_Sbus_step (o : step_outcome) : step_outcome :=
  match o with
  | Next st => Next (forget_Sbus st)
  | Fail e st => Fail e (forget_Sbus st)
  end.

Definition forget_Sbus_outcome (o : outcome) : outcome :=
  match o with
  | Returned st => Returned (forget_Sbus st)
  | RaisedAtEntry e => RaisedAtEntry e
  | RaisedInLoop e st => RaisedInLoop e (forget_Sbus st)
  | Running st => Running (forget_Sbus st)
  end.

(** ** States of the corrector *)

(** the loop keeps [Va] and [Vm] equal to the polar form of [V] *)
Definition polar_form (s : cstate) : Prop :=
  c_Va s = map angle (c_V s) /\ c_Vm s = map Cabs (c_V s).

(** a state of the loop is settled when evaluating the residual afresh at
    its [(V, lam)] gives the same state, with the iteration counter at 0 *)
Definition settled (Ybus : spmatrix) (Sbus : list C) (pv pq : list nat)
  (Sxfr Vprv : list C) (lamprv : R) (z : list R) (step : R)
  (parametrization : param_arg) (tol : R) (s : cstate) : Prop :=
  corrector_init Ybus Sbus pv pq Sxfr Vprv lamprv z step parametrization tol
    (c_V s) (c_lam s)
  = Ok (mk_cstate (c_V s) (c_Va s) (c_Vm s) (c_lam s) (c_F s) (c_normF s)
          (c_Scalc s) (c_converged s) 0).

(** ** Linear systems *)

(** the product [A x] of a dense matrix and a vector *)
Definition mat_vec (A : matrix) (x : list R) : list R :=
  map (fun row => vsum (map2 Rmult row x)) A.

(** [x] is a solution of the system [A x = b] *)
Definition solves (A : matrix) (x b : list R) : Prop :=
  length x = length b /\ mat_vec A x = b.

(** ** Solution points *)

(** every index of [idx] is a valid position of [v] *)
Definition in_range {A : Type} (v : list A) (idx : list nat) : Prop :=
  Forall (fun i => (i < length v)%nat) idx.

(** the coordinates of a solution point that the arc-length scheme
    measures: angles at [pvpq], magnitudes at [pq] *)
Definition arc_slots (V : list C) (pq pvpq : list nat) : list R :=
  map (fun i => angle (nth i V (0, 0))) pvpq ++
  map (fun i => Cabs (nth i V (0, 0))) pq.

(** the predicted point: the current one advanced by [step] along [z] *)
Definition advanced (V V0 : list C) (pv pq : list nat) (step : R)
  (z : list R) : Prop :=
  length V0 = length V /\
  forall k,
    (k < length V)%nat ->
    nth k V0 (0, 0) =
    polar
      (Cabs (nth k V (0, 0)) +
       (if in_dec Nat.eq_dec k pq
        then step * nth (length V + k) z 0 else 0))
      (angle (nth k V (0, 0)) +
       (if in_dec Nat.eq_dec k (pv ++ pq) then step * nth k z 0 else 0)).

(** ** Outcomes of a pass of the driver's loop *)

(** what the step-size adaptation does to the state [st], for a predicted
    point [(V0, lam0)] *)
Definition step_control_post (pvpq : list nat)
  (step_min step_max error_tol : R) (V0 : list C) (lam0 : R) (st : dstate)
  : Prop :=
  exists e st',
    cpf_error_of (d_V st) V0 (d_lam st) lam0 (d_pq st) pvpq = Ok e /\
    adapt_step_size pvpq step_min step_max error_tol V0 lam0 st = Ok st' /\
    let e' := guard_zero e in
    let r := d_step st * error_tol / e' in
    0 < e' /\ (e = 0 -> e' = 1e-20) /\ (e <> 0 -> e' = e) /\
    (e' < error_tol ->
     d_step st < r /\ d_step st' = Rmin r step_max /\
     (d_step st < step_max -> d_step st < d_step st' <= step_max)) /\
    (error_tol < e' ->
     r < d_step st /\ d_step st' = Rmax r step_min /\
     (step_min < d_step st -> step_min <= d_step st' < d_step st)).

(** how a call with an unrecognized stop point ends, given the outcome
    [(V, success, lam)] of the first corrector step *)
Definition first_pass_end (o : outcome) (v : pyobj)
  (controlQ : ReactivePowerControlMode) (V : list C) (success : bool)
  (lam : R) : Prop :=
  exists st,
    d_cont_steps st = 1%nat /\
    d_voltage_series st = [V] /\
    d_lambda_series st = [lam] /\
    d_success st = success /\
    if success
    then exists e, o = RaisedInLoop e st /\
                   (e = stop_exception v \/
                    (controlQ = Direct /\ e = ValueError))
    else o = Returned st.

(** ** Points of the two-bus network *)

(** the transfer vector [Sbus_target - Sbus_base] *)
Definition ex_Sxfr : list C := [(0, 0); (0, - (3 / 4))].

(** the augmented system at the flat start, for the Natural scheme *)
Definition ex_J2 : matrix := [[1; 0; 0]; [0; 1; 3 / 4]; [0; 0; 1]].

(** the tangent at the base case, and the first predicted voltages *)
Definition ex_z1 : list R := [0; 0; 0; - (3 / 5); 4 / 5].

Definition ex_V0 : list C := [(1, 0); (47 / 50, 0)].

(** the corrector's residual for the Natural scheme at bus-1 voltage
    [(v, 0)] *)
Definition ex_F (v lam lamprv step : R) : list R :=
  [0; v * v - v + lam * (3 / 4); lam - lamprv - step].

(** the corrector's state before its loop, started at the flat voltage
    profile with a guess [lam] for a step [step] from the base case *)
Definition ex_s0 (lam step tol : R) : cstate :=
  mk_cstate ex_V [0; 0] [1; 1] lam (ex_F 1 lam 0 step)
    (norm_inf (ex_F 1 lam 0 step)) [(0, 1 - 1); (0, 1 * 1 - 1)]
    (Rltb (norm_inf (ex_F 1 lam 0 step)) tol) 0.

(** the state after the first Newton step *)
Definition ex_s1 (step tol : R) : cstate :=
  let v := 1 - 3 / 4 * step in
  let V := [(1, 0); (v, 0)] in
  mk_cstate V (map angle V) (map Cabs V) step (ex_F v step 0 step)
    (norm_inf (ex_F v step 0 step)) [(0, 1 - v); (0, v * v - v)]
    (Rltb (norm_inf (ex_F v step 0 step)) tol) 1.

(** a run of the driver with the string ["Nose"] as stop point, followed
    for one pass of the loop *)
Definition ex_run (tol : R) (max_it : nat) : outcome :=
  continuation_nr ex_create_J back_subst ex_control_q ex_compile_types 1
    ex_Ybus ex_Sbus ex_Starget ex_V ex_pv ex_pq (1 / 10) (Param Natural)
    false (1 / 1000) (1 / 5) (1 / 1000) tol max_it
    (StopOther (PyStr "Nose")) NoControl [] [] (Some [3%Z; 1%Z]) false.

(** the driver's locals after its first pass on this network, with a step
    of 1/10 *)
Definition ex_first_pass (success continuation : bool) : dstate :=
  mk_dstate ex_V0 ex_V (2 / 25) 0 ex_z1 (1 / 10) ex_pv ex_pq [3%Z; 1%Z] None
    (Param Natural) false continuation 1 (1 / 50) success [ex_V0] [2 / 25]
    [].

(** *** A run in which reactive-limit control reclassifies a bus

    Bus 1 starts as a PV bus with the reactive limits [-1, -1/10]; at the
    first corrected point its reactive power is 0, above the upper limit, so
    the control makes it a PQ bus held at [-1/10]. *)

(** the bus power vector the driver re-derives, [Scalc.real + 1j * Qnew] *)
Definition ex_Sbus_limited : list C := [(0, 0); (0, - (1 / 10))].

(** the driver's locals at the head of the loop, after its first pass and
    after its second pass *)
Definition ex_limits_start : dstate :=
  mk_dstate ex_V ex_V 0 0 ex_z (1 / 10) [1%nat] [] [3%Z; 2%Z] None
    (Param Natural) false true 0 0 false [] [] [].

Definition ex_limits_pass1 : dstate :=
  mk_dstate ex_V ex_V (1 / 10) 0 ex_z (1 / 10) [] [1%nat] [3%Z; 1%Z]
    (Some ex_Sbus_limited) (Param Natural) false true 1 0 true [ex_V]
    [1 / 10] [].

Definition ex_limits_pass2 : dstate :=
  mk_dstate ex_V0 ex_V (9 / 50) (1 / 10) ex_z1 (1 / 10) [] [1%nat]
    [3%Z; 1%Z] (Some ex_Sbus_limited) (Param Natural) false true 2
    (393 / 5000) true [ex_V; ex_V0] [1 / 10; 9 / 50] [].

(** the run: bus 1 a PV bus, a step of 1/10, a tolerance of 1/10, direct
    reactive-limit control and [Nose] as stop point *)
Definition ex_run_limits (fuel : nat) : outcome :=
  continuation_nr ex_create_J back_subst ex_limit_control ex_partition fuel
    ex_Ybus ex_Sbus ex_Starget ex_V [1%nat] [] (1 / 10) (Param Natural)
    false (1 / 1000) (1 / 5) (1 / 1000) (1 / 10) 20 (StopAt Nose) Direct
    [9; - (1 / 10)] [- 9; - 1] (Some [3%Z; 2%Z]) false.

(** the same run with a tolerance of 1/20 and no Newton iteration allowed:
    the first pass converges at once, the corrector of the second pass does
    not converge, and the driver returns *)
Definition ex_run_stalls (fuel : nat) : outcome :=
  continuation_nr ex_create_J back_subst ex_limit_control ex_partition fuel
    ex_Ybus ex_Sbus ex_Starget ex_V [1%nat] [] (1 / 10) (Param Natural)
    false (1 / 1000) (1 / 5) (1 / 1000) (1 / 20) 0 (StopAt Nose) Direct
    [9; - (1 / 10)] [- 9; - 1] (Some [3%Z; 2%Z]) false.

(** the driver's locals when that run returns *)
Definition ex_stalled : dstate :=
  mk_dstate ex_V0 ex_V (9 / 50) (1 / 10) ex_z1 (1 / 10) [] [1%nat]
    [3%Z; 1%Z] (Some ex_Sbus_limited) (Param Natural) false false 2
    (393 / 5000) false [ex_V; ex_V0] [1 / 10; 9 / 50] [].

(** ** What the corrector and the predictor leave alone *)

(** [V'] has the voltages of [V] at the buses outside [pv] and [pq] (the
    slack buses) and the magnitudes of [V] at the buses outside [pq] *)
Definition kept (pv pq : list nat) (V V' : list C) : Prop :=
  length V' = length V /\
  (forall k, ~ In k pq ->
             Cabs (nth k V' (0, 0)) = Cabs (nth k V (0, 0))) /\
  (forall k, ~ In k (pv ++ pq) -> nth k V' (0, 0) = nth k V (0, 0)).

(** ** The parametrization function as a function of lambda *)

(** the value of [cpf_p] at [lam], the other arguments fixed ([0] where the
    call raises) *)
Definition cpf_p_value (parametrization : param_arg) (step : R) (z : list R)
  (V V_prev : list C) (lamprv : R) (pv pq pvpq : list nat) (lam : R) : R :=
  match cpf_p parametrization step z V lam V_prev lamprv pv pq pvpq with
  | Ok P => P
  | Raise _ => 0
  end.

(** ** Passes of the driver's loop *)

(** the driver's locals after "store series values", in a pass that starts
    in [st], whose predictor returned the tangent [z] and whose corrector
    returned [(V, success, _, lam, normF, _)] *)
Definition after_corrector (st : dstate) (z : list R) (V : list C)
  (success : bool) (lam normF : R) : dstate :=
  let st := set_cont_steps (S (d_cont_steps st)) st in
  let st := set_lam_prev (d_lam st) (set_V_prev (d_V st) (set_z z st)) in
  let st := set_normF normF (set_lam lam (set_success success
              (set_V V st))) in
  set_lambda_series (d_lambda_series st ++ [lam])
    (set_voltage_series (d_voltage_series st ++ [V]) st).

(** the stop condition of the driver holds in [st] *)
Definition stop_met (stop_at : stop_arg) (st : dstate) : Prop :=
  match stop_at with
  | StopAt Nose => d_lam st < d_lam_prev st
  | StopAt Full => Rabs (d_lam st) < 1e-8
  | StopOther _ => False
  end.

(** the states in which a run of the driver can be observed: at the head of
    the loop after the passes followed, or at the return *)
Definition observed (o : outcome) (P : dstate -> Prop) : Prop :=
  match o with
  | Returned st => P st
  | Running st => P st
  | RaisedAtEntry _ => True
  | RaisedInLoop _ _ => True
  end.

(** a list of reals that never decreases *)
Fixpoint nondecreasing (l : list R) : Prop :=
  match l with
  | x :: (y :: _) as l' => x <= y /\ nondecreasing l'
  | _ => True
  end.

(** ** A run with an adaptive step

    the two-bus network again, with [Nose] as stop point, adaptivity on, a
    call-back, and the step bounds [1/1000] and [1/5] *)
Definition ex_run_adaptive (fuel : nat) : outcome :=
  continuation_nr ex_create_J back_subst ex_control_q ex_compile_types fuel
    ex_Ybus ex_Sbus ex_Starget ex_V ex_pv ex_pq (1 / 10) (Param Natural)
    true (1 / 1000) (1 / 5) (1 / 1000) (1 / 20) 20 (StopAt Nose) NoControl
    [] [] (Some [3%Z; 1%Z]) true.

(** the driver's locals after the first pass of that run: the corrector
    accepted the predicted point, so the error of the prediction is zero and
    the step grows to its upper bound *)
Definition ex_adaptive_pass1 : dstate :=
  mk_dstate ex_V0 ex_V (2 / 25) 0 ex_z1 (1 / 5) ex_pv ex_pq [3%Z; 1%Z] None
    (Param Natural) true true 1 (1 / 50) true [ex_V0] [2 / 25] [2 / 25].

(** * Properties *)

(** [learn lem H as X]: the conclusion of [lem] applied to [H] *)
Tactic Notation "learn" constr(lem) constr(H) "as" ident(X) :=
  pose proof H as X; eapply lem in X.

(** ** Comparisons *)

Lemma Rltb_true (a b : R) : a < b -> Rltb a b = true.
Proof. intros H. unfold Rltb. destruct (Rlt_dec a b); [reflexivity | contradiction]. Qed.

Lemma Rltb_false (a b : R) : b <= a -> Rltb a b = false.
Proof. intros H. unfold Rltb. destruct (Rlt_dec a b); [lra | reflexivity]. Qed.

Lemma Rleb_true (a b : R) : a <= b -> Rleb a b = true.
Proof. intros H. unfold Rleb. destruct (Rle_dec a b); [reflexivity | contradiction]. Qed.

Lemma Rleb_false (a b : R) : b < a -> Rleb a b = false.
Proof. intros H. unfold Rleb. destruct (Rle_dec a b); [lra | reflexivity]. Qed.

Lemma Reqb_true (a b : R) : a = b -> Reqb a b = true.
Proof. intros H. unfold Reqb. destruct (Req_dec_T a b); [reflexivity | contradiction]. Qed.

Lemma Reqb_false (a b : R) : a <> b -> Reqb a b = false.
Proof. intros H. unfold Reqb. destruct (Req_dec_T a b); [contradiction | reflexivity]. Qed.

(** ** Polar form *)

Lemma Rltb_refl_false (a : R) : Rltb a a = false.
Proof. unfold Rltb. destruct (Rlt_dec a a); [lra | reflexivity]. Qed.

Lemma angle_bounds (c : C) : - PI < angle c <= PI.
Proof.
  pose proof PI_RGT_0 as Hpi.
  unfold angle, arctan2, Rltb, Rleb.
  destruct c as [x y]. simpl.
  pose proof (atan_bound (y / x)) as [Hl Hu].
  destruct (Rlt_dec 0 x) as [Hx|Hx]; [lra|].
  destruct (Rlt_dec x 0) as [Hx'|Hx'].
  - destruct (Rle_dec 0 y) as [Hy|Hy].
    + assert (y / x <= 0).
      { unfold Rdiv. assert (/ x < 0) by (apply Rinv_lt_0_compat; lra). nra. }
      assert (atan (y / x) <= 0).
      { destruct (Req_dec (y / x) 0) as [E|E].
        - rewrite E, atan_0. lra.
        - rewrite <- atan_0. left. apply atan_increasing. lra. }
      lra.
    + assert (0 < y / x).
      { unfold Rdiv. assert (/ x < 0) by (apply Rinv_lt_0_compat; lra). nra. }
      assert (0 < atan (y / x)).
      { rewrite <- atan_0. apply atan_increasing. lra. }
      lra.
  - destruct (Rlt_dec 0 y); [lra|]. destruct (Rlt_dec y 0); lra.
Qed.

Lemma atan_ratio (m b : R) :
  0 < m -> - (PI / 2) < b < PI / 2 ->
  atan (m * sin b / (m * cos b)) = b /\ 0 < cos b.
Proof.
  intros Hm Hb.
  assert (Hc : 0 < cos b) by (apply cos_gt_0; lra).
  split; [|exact Hc].
  replace (m * sin b / (m * cos b)) with (tan b)
    by (unfold tan; field; lra).
  apply atan_tan. exact Hb.
Qed.

Lemma angle_polar (m a : R) :
  0 < m -> - PI < a <= PI -> angle (polar m a) = a.
Proof.
  intros Hm [Hl Hu]. pose proof PI_RGT_0 as Hpi.
  unfold angle, polar, arctan2. simpl.
  destruct (Rlt_dec a (- (PI / 2))) as [H1|H1].
  { (* third quadrant: a = b - PI *)
    set (b := a + PI).
    assert (Hb : - (PI / 2) < b < PI / 2) by (unfold b; lra).
    destruct (atan_ratio Hm Hb) as [Hat Hc].
    assert (Hs : 0 < sin b) by (apply sin_gt_0; unfold b; lra).
    assert (Es : sin a = - sin b) by (unfold b; rewrite neg_sin; lra).
    assert (Ec : cos a = - cos b) by (unfold b; rewrite neg_cos; lra).
    rewrite Es, Ec.
    rewrite Rltb_false by nra. rewrite Rltb_true by nra.
    rewrite Rleb_false by nra.
    replace (m * - sin b / (m * - cos b)) with (m * sin b / (m * cos b))
      by (field; lra).
    rewrite Hat. unfold b. lra. }
  destruct (Req_dec a (- (PI / 2))) as [H2|H2].
  { subst a. rewrite cos_neg, sin_neg, cos_PI2, sin_PI2.
    rewrite Rmult_0_r, Rltb_refl_false.
    rewrite Rltb_false by lra. rewrite Rltb_true by lra. reflexivity. }
  destruct (Rlt_dec a (PI / 2)) as [H3|H3].
  { assert (Hb : - (PI / 2) < a < PI / 2) by lra.
    destruct (atan_ratio Hm Hb) as [Hat Hc].
    rewrite Rltb_true by nra. exact Hat. }
  destruct (Req_dec a (PI / 2)) as [H4|H4].
  { subst a. rewrite cos_PI2, sin_PI2.
    rewrite Rmult_0_r, Rltb_refl_false.
    rewrite Rltb_true by lra. reflexivity. }
  (* second quadrant: a = b + PI *)
  set (b := a - PI).
  assert (Hb : - (PI / 2) < b < PI / 2) by (unfold b; lra).
  destruct (atan_ratio Hm Hb) as [Hat Hc].
  assert (Hs : sin b <= 0).
  { destruct (Req_dec b 0) as [E|E]; [rewrite E, sin_0; lra|].
    assert (0 < sin (- b)) by (apply sin_gt_0; unfold b in *; lra).
    rewrite sin_neg in H. lra. }
  assert (Es : sin a = - sin b).
  { replace a with (b + PI) by (unfold b; lra). apply neg_sin. }
  assert (Ec : cos a = - cos b).
  { replace a with (b + PI) by (unfold b; lra). apply neg_cos. }
  rewrite Es, Ec.
  rewrite Rltb_false by nra. rewrite Rltb_true by nra.
  rewrite Rleb_true by nra.
  replace (m * - sin b / (m * - cos b)) with (m * sin b / (m * cos b))
    by (field; lra).
  rewrite Hat. unfold b. lra.
Qed.


(** ** Arrays *)

Section ArrayFacts.
Context {A : Type}.
Implicit Types (v : list A) (idx : list nat).

Lemma getitem_ok v i d : (i < length v)%nat -> getitem v i = Ok (nth i v d).
Proof.
  intros H. unfold getitem.
  rewrite (nth_error_nth' v d H). reflexivity.
Qed.

Lemma getitem_inv v i x : getitem v i = Ok x -> (i < length v)%nat /\ forall d, nth i v d = x.
Proof.
  unfold getitem. destruct (nth_error v i) eqn:E; [|discriminate].
  intros [= <-]. split.
  - apply nth_error_Some. congruence.
  - intros d. now apply nth_error_nth.
Qed.

Lemma take_idx_ok v idx d :
  Forall (fun i => (i < length v)%nat) idx ->
  take_idx v idx = Ok (map (fun i => nth i v d) idx).
Proof.
  induction 1 as [|i idx Hi _ IH]; simpl; [reflexivity|].
  rewrite (getitem_ok v d Hi). simpl. rewrite IH. reflexivity.
Qed.

Lemma take_idx_inv v idx l :
  take_idx v idx = Ok l ->
  Forall (fun i => (i < length v)%nat) idx /\
  forall d, l = map (fun i => nth i v d) idx.
Proof.
  revert l. induction idx as [|i idx IH]; simpl; intros l H.
  - inversion H. split; [constructor | reflexivity].
  - destruct (getitem v i) as [x|] eqn:E; [|discriminate]. simpl in H.
    destruct (take_idx v idx) as [xs|] eqn:E'; [|discriminate]. simpl in H.
    inversion H; subst. destruct (IH xs eq_refl) as [HF Hm].
    destruct (getitem_inv _ _ E) as [Hi Hx]. split.
    + constructor; assumption.
    + intros d. rewrite (Hx d). f_equal. apply Hm.
Qed.

Lemma take_idx_app v i1 i2 :
  take_idx v (i1 ++ i2) =
  (a <- take_idx v i1 ;; b <- take_idx v i2 ;; Ok (a ++ b)).
Proof.
  induction i1 as [|i i1 IH]; simpl.
  - destruct (take_idx v i2); reflexivity.
  - destruct (getitem v i); simpl; [|reflexivity].
    rewrite IH. destruct (take_idx v i1); simpl; [|reflexivity].
    destruct (take_idx v i2); reflexivity.
Qed.

Lemma upd_length v i x : length (upd v i x) = length v.
Proof.
  revert i. induction v as [|y v IH]; intros [|i]; simpl; auto.
Qed.

Lemma nth_upd v i j x d :
  nth j (upd v i x) d =
  if (j =? i)%nat then (if (i <? length v)%nat then x else d) else nth j v d.
Proof.
  revert i j. induction v as [|y v IH]; intros i j; simpl.
  - destruct (j =? i)%nat; destruct j; reflexivity.
  - destruct i as [|i], j as [|j]; simpl; try reflexivity.
    apply IH.
Qed.
End ArrayFacts.

Lemma map2_length {A B D : Type} (f : A -> B -> D) (a : list A) (b : list B) :
  length (map2 f a b) = Nat.min (length a) (length b).
Proof.
  revert b. induction a as [|x a IH]; intros [|y b]; simpl; auto.
Qed.

Lemma map2_app {A B D : Type} (f : A -> B -> D) (a a' : list A) (b b' : list B) :
  length a = length b ->
  map2 f (a ++ a') (b ++ b') = map2 f a b ++ map2 f a' b'.
Proof.
  revert b. induction a as [|x a IH]; intros [|y b]; simpl; intros H;
    try discriminate; [reflexivity|].
  f_equal. apply IH. lia.
Qed.

Lemma elementwise_same {A B D : Type} (f : A -> B -> D) (a : list A) (b : list B) :
  length a = length b -> elementwise f a b = Ok (map2 f a b).
Proof.
  intros H. unfold elementwise. rewrite H, Nat.eqb_refl. reflexivity.
Qed.

Lemma setitem_length {A : Type} (v v' : list A) i x :
  setitem v i x = Ok v' -> length v' = length v.
Proof.
  unfold setitem. destruct (i <? length v)%nat; [|discriminate].
  intros [= <-]. apply upd_length.
Qed.

Lemma put_seq_length {A : Type} (idx : list nat) (vals v v' : list A) :
  put_seq v idx vals = Ok v' -> length v' = length v.
Proof.
  revert vals v. induction idx as [|i idx IH]; intros [|x vals] v; simpl;
    try (intros [= <-]; reflexivity).
  destruct (setitem v i x) as [v1|] eqn:E; [|discriminate]. simpl.
  intros H. rewrite (IH _ _ H). apply (setitem_length _ _ _ E).
Qed.

Lemma put_idx_length {A : Type} (idx : list nat) (vals v v' : list A) :
  put_idx v idx vals = Ok v' -> length v' = length v.
Proof.
  unfold put_idx. destruct (broadcast_to _ _); [|discriminate]. simpl.
  apply put_seq_length.
Qed.

Lemma map_angle_polar (Vm Va : list R) :
  length Vm = length Va ->
  Forall (fun m => 0 < m) Vm ->
  Forall (fun a => - PI < a <= PI) Va ->
  map angle (map2 polar Vm Va) = Va.
Proof.
  revert Va. induction Vm as [|m Vm IH]; intros [|a Va] Hlen Hm Ha;
    simpl in *; try discriminate; [reflexivity|].
  inversion Hm; subst. inversion Ha; subst.
  rewrite angle_polar by assumption. f_equal. apply IH; auto.
Qed.

Lemma Forall_angle_bounds (V : list C) :
  Forall (fun a => - PI < a <= PI) (map angle V).
Proof.
  induction V; simpl; constructor; [apply angle_bounds | assumption].
Qed.

(** *** Writing through an index array *)

Lemma setitem_ok {A : Type} (v : list A) i x :
  (i < length v)%nat -> setitem v i x = Ok (upd v i x).
Proof.
  intros H. unfold setitem.
  destruct (Nat.ltb_spec i (length v)); [reflexivity | lia].
Qed.

Lemma setitem_inv {A : Type} (v v' : list A) i x :
  setitem v i x = Ok v' -> (i < length v)%nat /\ v' = upd v i x.
Proof.
  unfold setitem. destruct (Nat.ltb_spec i (length v)); [|discriminate].
  intros [= <-]. auto.
Qed.

Lemma put_seq_frame {A : Type} (idx : list nat) (vals v v' : list A) k d :
  put_seq v idx vals = Ok v' -> ~ In k idx -> nth k v' d = nth k v d.
Proof.
  revert vals v. induction idx as [|i idx IH]; intros [|x vals] v; simpl;
    try (intros [= <-]; reflexivity).
  destruct (setitem v i x) as [v1|] eqn:E; [|discriminate]. simpl.
  intros H Hk. rewrite (IH _ _ H) by tauto.
  destruct (setitem_inv _ _ _ E) as [Hi ->].
  rewrite nth_upd. destruct (Nat.eqb_spec k i); [|reflexivity].
  subst. tauto.
Qed.

(** values that depend on the slot only: duplicates do not matter *)
Lemma put_seq_map {A : Type} (f : nat -> A) (idx : list nat) (v : list A) :
  Forall (fun i => (i < length v)%nat) idx ->
  exists v',
    put_seq v idx (map f idx) = Ok v' /\
    length v' = length v /\
    forall k d,
      nth k v' d = if in_dec Nat.eq_dec k idx then f k else nth k v d.
Proof.
  revert v. induction idx as [|i idx IH]; intros v Hr; simpl.
  - exists v. repeat split.
  - inversion Hr as [|? ? Hi Hr']; subst.
    rewrite (setitem_ok _ _ Hi). simpl.
    destruct (IH (upd v i (f i))) as (v' & Hp & Hl & Hn).
    { rewrite upd_length. exact Hr'. }
    exists v'. split; [exact Hp|]. split; [rewrite Hl; apply upd_length|].
    intros k d. rewrite Hn.
    destruct (in_dec Nat.eq_dec k idx) as [Hin|Hin].
    + destruct (Nat.eq_dec i k); reflexivity.
    + rewrite nth_upd. destruct (Nat.eq_dec i k) as [->|Hne].
      * rewrite Nat.eqb_refl.
        destruct (Nat.ltb_spec k (length v)); [reflexivity | lia].
      * destruct (Nat.eqb_spec k i); [congruence | reflexivity].
Qed.

(** distinct slots: every value lands in its slot *)
Lemma put_seq_nodup {A : Type} (idx : list nat) (vals v : list A) :
  NoDup idx ->
  Forall (fun i => (i < length v)%nat) idx ->
  length vals = length idx ->
  exists v',
    put_seq v idx vals = Ok v' /\
    length v' = length v /\
    forall j d, (j < length idx)%nat ->
                nth (nth j idx 0%nat) v' d = nth j vals d.
Proof.
  revert vals v. induction idx as [|i idx IH]; intros [|x vals] v Hnd Hr Hlen;
    simpl in *; try discriminate.
  - exists v. repeat split. intros j d Hj. lia.
  - inversion Hnd as [|? ? Hni Hnd']; subst.
    inversion Hr as [|? ? Hi Hr']; subst.
    rewrite (setitem_ok _ _ Hi). simpl.
    destruct (IH vals (upd v i x)) as (v' & Hp & Hl & Hn); auto.
    { rewrite upd_length. exact Hr'. }
    exists v'. split; [exact Hp|]. split; [rewrite Hl; apply upd_length|].
    intros [|j] d Hj.
    + rewrite (@put_seq_frame _ _ _ _ _ _ d Hp Hni), nth_upd, Nat.eqb_refl.
      destruct (Nat.ltb_spec i (length v)); [reflexivity | lia].
    + apply Hn. lia.
Qed.

Lemma broadcast_to_same {A : Type} (n : nat) (vals : list A) :
  length vals = n -> broadcast_to n vals = Ok vals.
Proof.
  intros H. unfold broadcast_to. rewrite H, Nat.eqb_refl. reflexivity.
Qed.

Lemma map2_map_map {A B D E : Type} (f : B -> D -> E) (g : A -> B)
  (h : A -> D) (l : list A) :
  map2 f (map g l) (map h l) = map (fun a => f (g a) (h a)) l.
Proof.
  induction l as [|a l IH]; simpl; [reflexivity|]. rewrite IH. reflexivity.
Qed.

Lemma nth_map2 {A B D : Type} (f : A -> B -> D) (a : list A) (b : list B)
  k da db dd :
  (k < length a)%nat -> (k < length b)%nat ->
  nth k (map2 f a b) dd = f (nth k a da) (nth k b db).
Proof.
  revert b k. induction a as [|x a IH]; intros [|y b] [|k] Ha Hb;
    simpl in *; try lia; [reflexivity|].
  apply IH; lia.
Qed.

Lemma elementwise_raise {A B D : Type} (f : A -> B -> D) a b e :
  elementwise f a b = Raise e -> e = ValueError.
Proof.
  unfold elementwise. destruct (_ =? _)%nat; [discriminate|].
  destruct a as [|x [|x' a]], b as [|y [|y' b]]; try discriminate;
    intros [= <-]; reflexivity.
Qed.

(** ** Norms *)

Lemma norm_inf_nonneg (v : list R) : 0 <= norm_inf v.
Proof.
  induction v as [|x v IH]; simpl; [lra|].
  eapply Rle_trans; [apply IH | apply Rmax_r].
Qed.

Lemma vsum_squares_nonneg (v : list R) : 0 <= vsum (map (fun x => x * x) v).
Proof.
  induction v as [|x v IH]; simpl; [lra|]. nra.
Qed.

Lemma norm2_sqr (v : list R) :
  norm2 v * norm2 v = vsum (map (fun x => x * x) v).
Proof.
  unfold norm2. apply sqrt_sqrt, vsum_squares_nonneg.
Qed.

Lemma map_pow2 (v : list R) :
  map (fun x => x ^ 2) v = map (fun x => x * x) v.
Proof.
  apply map_ext. intros x. simpl. lra.
Qed.

Lemma vsum_squares_pos (v : list R) (x : R) :
  In x v -> x <> 0 -> 0 < vsum (map (fun x => x * x) v).
Proof.
  induction v as [|y v IH]; simpl; [tauto|].
  intros [->|Hin] Hx.
  - pose proof (vsum_squares_nonneg v). nra.
  - specialize (IH Hin Hx). nra.
Qed.

Lemma norm2_pos (v : list R) (x : R) : In x v -> x <> 0 -> 0 < norm2 v.
Proof.
  intros Hin Hx. unfold norm2. apply sqrt_lt_R0.
  eapply vsum_squares_pos; eassumption.
Qed.

Lemma vsum_squares_scaled (v : list R) (n : R) :
  vsum (map (fun x => x * x) (map (fun c => c / n) v))
  = vsum (map (fun x => x * x) v) * (/ n * / n).
Proof.
  induction v as [|y v IH]; simpl; [lra|]. rewrite IH. unfold Rdiv. lra.
Qed.

(** dividing a vector by its Euclidean norm gives a unit vector *)
Lemma norm2_normalized (v : list R) :
  0 < norm2 v -> norm2 (map (fun c => c / norm2 v) v) = 1.
Proof.
  intros Hn. unfold norm2 at 1. rewrite vsum_squares_scaled, <- norm2_sqr.
  replace (norm2 v * norm2 v * (/ norm2 v * / norm2 v)) with 1
    by (field; lra).
  apply sqrt_1.
Qed.



(** ** Linear systems *)

Lemma row_dot_zero (row x : list R) :
  Forall (fun c => c = 0) x -> vsum (map2 Rmult row x) = 0.
Proof.
  intros H. revert row. induction H as [|c x Hc _ IH]; intros [|r row];
    simpl; try reflexivity.
  rewrite IH, Hc. lra.
Qed.

Lemma mat_vec_zero (A : matrix) (x : list R) :
  Forall (fun c => c = 0) x -> Forall (fun c => c = 0) (mat_vec A x).
Proof.
  intros H. unfold mat_vec. induction A as [|row A IH]; simpl; constructor;
    [apply row_dot_zero; exact H | exact IH].
Qed.

Lemma not_all_zero (x : list R) :
  ~ Forall (fun c => c = 0) x ->
  exists j, (j < length x)%nat /\ nth j x 0 <> 0.
Proof.
  induction x as [|c x IH]; intros H.
  - exfalso. apply H. constructor.
  - destruct (Req_dec c 0) as [Hc|Hc].
    + destruct IH as (j & Hj & Hn).
      { intros HF. apply H. constructor; assumption. }
      exists (S j). simpl. split; [lia | exact Hn].
    + exists 0%nat. simpl. split; [lia | exact Hc].
Qed.

(** ** The driver's loop *)

(** normal form of the driver's state after a chain of assignments *)
Ltac norm_state :=
  cbv beta iota delta
    [set_V d_V set_V_prev d_V_prev set_lam d_lam
     set_lam_prev d_lam_prev set_z d_z set_step d_step
     set_pv d_pv set_pq d_pq set_bus_types d_bus_types
     set_Sbus d_Sbus set_approximation_order d_approximation_order set_adapt_step d_adapt_step
     set_continuation d_continuation set_cont_steps d_cont_steps set_normF d_normF
     set_success d_success set_voltage_series d_voltage_series set_lambda_series d_lambda_series
     set_callbacks d_callbacks].




Lemma same_trace_refl (st : dstate) : same_trace st st.
Proof. repeat split. Qed.

Lemma same_trace_trans (a b c : dstate) :
  same_trace a b -> same_trace b c -> same_trace a c.
Proof.
  unfold same_trace. intros (H1 & H2 & H3 & H4) (K1 & K2 & K3 & K4).
  repeat split; congruence.
Qed.

Section DriverFacts.
Variable create_J :
  spmatrix -> list C -> list nat -> list nat -> list nat -> nat -> nat ->
  matrix.
Variable spsolve : matrix -> list R -> list R.
Variable control_q_direct :
  list C -> list R -> list R -> list R -> list R -> list Z -> list Z ->
  list C * list R * list Z * bool.
Variable compile_types :
  list C -> list Z -> list nat * list nat * list nat * list nat.
Variable Ybus : spmatrix.
Variable Sbus_base : list C.
Variable Sxfr : list C.
Variable pvpq : list nat.
Variable pvpq_lookup : list nat.
Variable step_min step_max error_tol tol : R.
Variable max_it : nat.
Variable stop_at : stop_arg.
Variable controlQ : ReactivePowerControlMode.
Variable Qmax_bus Qmin_bus : list R.
Variable original_bus_types : list Z.
Variable has_call_back : bool.

Local Abbreviation body :=
  (loop_body create_J spsolve control_q_direct compile_types Ybus Sbus_base
     Sxfr pvpq pvpq_lookup step_min step_max error_tol tol max_it stop_at
     controlQ Qmax_bus Qmin_bus original_bus_types has_call_back).
Local Abbreviation loop :=
  (continuation_loop create_J spsolve control_q_direct compile_types Ybus
     Sbus_base Sxfr pvpq pvpq_lookup step_min step_max error_tol tol max_it
     stop_at controlQ Qmax_bus Qmin_bus original_bus_types has_call_back).
Local Abbreviation controls :=
  (check_controls control_q_direct compile_types controlQ Qmax_bus Qmin_bus
     original_bus_types).

Lemma check_controls_trace (Scalc : list C) (st st' : dstate) :
  controls Scalc st = Ok st' -> same_trace st st'.
Proof.
  unfold check_controls.
  destruct (match controlQ with Direct => _ | NoControl => _ end)
    as [[[V Qnew] types_new] issue].
  destruct issue.
  - destruct (elementwise _ _ _) as [Sbus|]; [|discriminate]. simpl.
    destruct (compile_types Sbus types_new) as [[[vd pq] pv] pqpv].
    intros [= <-]. repeat split.
  - intros [= <-]. repeat split.
Qed.

Lemma check_stop_trace (st st' : dstate) :
  check_stop stop_at st = Ok st' -> same_trace st st'.
Proof.
  unfold check_stop. destruct stop_at as [[|]|v].
  - destruct (Rltb _ _); intros [= <-]; repeat split.
  - destruct (Rltb _ _); [intros [= <-]; repeat split|].
    destruct (_ && _); intros [= <-]; repeat split.
  - discriminate.
Qed.

Lemma adapt_step_size_trace (V0 : list C) (lam0 : R) (st st' : dstate) :
  adapt_step_size pvpq step_min step_max error_tol V0 lam0 st = Ok st' ->
  same_trace st st'.
Proof.
  unfold adapt_step_size. destruct (_ && _).
  - destruct (cpf_error_of _ _ _ _ _ _); [|discriminate].
    intros [= <-]. repeat split.
  - intros [= <-]. repeat split.
Qed.

Lemma call_back_trace (st : dstate) : same_trace st (call_back has_call_back st).
Proof. unfold call_back. destruct has_call_back; repeat split. Qed.


Lemma loop_body_trace (st : dstate) :
  match body st with
  | Next st' => appended_one st st'
  | Fail e st' =>
      d_cont_steps st' = S (d_cont_steps st) /\
      ((d_voltage_series st' = d_voltage_series st /\
        d_lambda_series st' = d_lambda_series st) \/
       (exists V lam,
          d_voltage_series st' = d_voltage_series st ++ [V] /\
          d_lambda_series st' = d_lambda_series st ++ [lam] /\
          d_success st' = true))
  end.
Proof.
  unfold loop_body. cbv zeta.
  destruct (predictor _ _ _ _ _ _ _ _ _ _ _ _ _ _)
    as [[[V0 lam0] z]|e]; simpl; [|split; [reflexivity | left; split; reflexivity]].
  destruct (corrector _ _ _ _ _ _ _ _ _ _ _ _ _ _ _ _ _)
    as [[[[[[V success] i] lam] normF] Scalc]|e]; simpl;
    [|split; [reflexivity | left; split; reflexivity]].
  destruct success.
  2:{ split; [reflexivity|]. exists V, lam. simpl. repeat split. }
  match goal with
  | |- context [check_controls _ _ _ _ _ _ ?S ?s] => set (st1 := s)
  end.
  assert (A1 : d_cont_steps st1 = S (d_cont_steps st)) by reflexivity.
  assert (A2 : d_voltage_series st1 = d_voltage_series st ++ [V]) by reflexivity.
  assert (A3 : d_lambda_series st1 = d_lambda_series st ++ [lam]) by reflexivity.
  assert (A4 : d_success st1 = true) by reflexivity.
  clearbody st1.
  assert (Hfail : forall st2, same_trace st1 st2 ->
            d_cont_steps st2 = S (d_cont_steps st) /\
            ((d_voltage_series st2 = d_voltage_series st /\
              d_lambda_series st2 = d_lambda_series st) \/
             (exists V lam,
                d_voltage_series st2 = d_voltage_series st ++ [V] /\
                d_lambda_series st2 = d_lambda_series st ++ [lam] /\
                d_success st2 = true))).
  { intros st2 (K1 & K2 & K3 & K4). split; [congruence|].
    right. exists V, lam. repeat split; congruence. }
  destruct (controls Scalc st1) as [st2|e] eqn:E2; simpl;
    [|apply Hfail, same_trace_refl].
  pose proof (check_controls_trace _ _ E2) as T2.
  destruct (check_stop stop_at st2) as [st3|e] eqn:E3; simpl;
    [|apply Hfail; assumption].
  pose proof (same_trace_trans T2 (check_stop_trace _ E3)) as T3.
  destruct (adapt_step_size _ _ _ _ _ _ st3) as [st4|e] eqn:E4; simpl;
    [|apply Hfail; assumption].
  pose proof (same_trace_trans T3 (adapt_step_size_trace _ _ _ E4)) as T4.
  pose proof (same_trace_trans T4 (call_back_trace st4)) as (K1 & K2 & K3 & K4).
  split; [congruence|]. exists V, lam.
  split; [congruence|]. split; [congruence|].
  intros Hf. congruence.
Qed.

Lemma loop_trace (fuel : nat) (st : dstate) :
  trace_inv st ->
  (d_continuation st = false -> failed_last st) ->
  match loop fuel st with
  | Returned st' => trace_inv st' /\ failed_last st'
  | Running st' => trace_inv st'
  | RaisedInLoop _ st' =>
      length (d_voltage_series st') = length (d_lambda_series st')
  | RaisedAtEntry _ => True
  end.
Proof.
  revert st. induction fuel as [|fuel IH]; intros st Hinv Hlast; simpl.
  - destruct (d_continuation st); [exact Hinv | split; auto].
  - destruct (d_continuation st); [|split; auto].
    pose proof (loop_body_trace st) as Hb.
    destruct (body st) as [st'|e st'].
    + destruct Hb as (Hc & V & lam & Hv & Hl & Hf).
      apply IH.
      * destruct Hinv as [I1 I2]. split.
        -- rewrite Hv, length_app, I1, Hc. simpl. lia.
        -- rewrite Hl, length_app, I2, Hc. simpl. lia.
      * intros _ Hs. destruct (Hf Hs) as (_ & -> & ->).
        eauto.
    + destruct Hinv as [I1 I2].
      destruct Hb as (_ & [[Hv Hl] | (V & lam & Hv & Hl & _)]).
      * congruence.
      * rewrite Hv, Hl, !length_app. simpl. lia.
Qed.

(** [n] passes bump the step counter [n] times and append [n] points *)
Lemma passes_appended (n : nat) (st st' : dstate) :
  passes body n st st' ->
  d_cont_steps st' = (d_cont_steps st + n)%nat /\
  length (d_voltage_series st') = (length (d_voltage_series st) + n)%nat /\
  length (d_lambda_series st') = (length (d_lambda_series st) + n)%nat.
Proof.
  induction 1 as [st|n st st1 st' Hc Hb Hp (IH1 & IH2 & IH3)].
  - repeat split; lia.
  - pose proof (loop_body_trace st) as Ht. rewrite Hb in Ht.
    destruct Ht as (Hs & V & lam & Hv & Hl & _).
    rewrite IH1, IH2, IH3, Hs, Hv, Hl, !length_app. simpl.
    repeat split; lia.
Qed.

(** the loop is made of whole passes: followed for [fuel] passes it is at
    the head of the loop after exactly [fuel] of them, or it has returned
    after at most [fuel], or an exception has left the pass after them *)
Lemma loop_passes (fuel : nat) (st : dstate) :
  match loop fuel st with
  | Running st' => passes body fuel st st' /\ d_continuation st' = true
  | Returned st' =>
      exists n, (n <= fuel)%nat /\ passes body n st st' /\
                d_continuation st' = false
  | RaisedInLoop e st' =>
      exists n st1, (n < fuel)%nat /\ passes body n st st1 /\
                    d_continuation st1 = true /\ body st1 = Fail e st'
  | RaisedAtEntry _ => False
  end.
Proof.
  revert st. induction fuel as [|fuel IH]; intros st; simpl.
  - destruct (d_continuation st) eqn:Hc.
    + split; [constructor | exact Hc].
    + exists 0%nat. split; [lia|]. split; [constructor | exact Hc].
  - destruct (d_continuation st) eqn:Hc.
    2:{ exists 0%nat. split; [lia|]. split; [constructor | exact Hc]. }
    destruct (body st) as [st1|e st1] eqn:Hb.
    + specialize (IH st1).
      destruct (loop fuel st1) as [st'|e|e st'|st'].
      * destruct IH as (n & Hn & Hp & Hf). exists (S n).
        split; [lia|]. split; [|exact Hf]. econstructor; eassumption.
      * exact IH.
      * destruct IH as (n & st2 & Hn & Hp & Hf & Hb2). exists (S n), st2.
        split; [lia|]. split; [|split; assumption].
        econstructor; eassumption.
      * destruct IH as (Hp & Hf). split; [|exact Hf].
        econstructor; eassumption.
    + exists 0%nat, st. split; [lia|]. split; [constructor|].
      split; [exact Hc | exact Hb].
Qed.
End DriverFacts.




(** ** The local [Sbus] of the driver *)

Lemma forget_Sbus_inv (a b : dstate) :
  forget_Sbus a = forget_Sbus b -> a = set_Sbus (d_Sbus a) b.
Proof.
  destruct a, b. unfold forget_Sbus, set_Sbus. simpl.
  intros H. inversion H. subst. reflexivity.
Qed.

Section SbusFacts.
Variable create_J :
  spmatrix -> list C -> list nat -> list nat -> list nat -> nat -> nat ->
  matrix.
Variable spsolve : matrix -> list R -> list R.
Variable control_q_direct :
  list C -> list R -> list R -> list R -> list R -> list Z -> list Z ->
  list C * list R * list Z * bool.
Variable compile_types :
  list C -> list Z -> list nat * list nat * list nat * list nat.
Variable Ybus : spmatrix.
Variable Sbus_base : list C.
Variable Sxfr : list C.
Variable pvpq : list nat.
Variable pvpq_lookup : list nat.
Variable step_min step_max error_tol tol : R.
Variable max_it : nat.
Variable stop_at : stop_arg.
Variable controlQ : ReactivePowerControlMode.
Variable Qmax_bus Qmin_bus : list R.
Variable original_bus_types : list Z.
Variable has_call_back : bool.

Local Abbreviation body :=
  (loop_body create_J spsolve control_q_direct compile_types Ybus Sbus_base
     Sxfr pvpq pvpq_lookup step_min step_max error_tol tol max_it stop_at
     controlQ Qmax_bus Qmin_bus original_bus_types has_call_back).
Local Abbreviation loop :=
  (continuation_loop create_J spsolve control_q_direct compile_types Ybus
     Sbus_base Sxfr pvpq pvpq_lookup step_min step_max error_tol tol max_it
     stop_at controlQ Qmax_bus Qmin_bus original_bus_types has_call_back).

Lemma loop_body_forgets_Sbus (s : option (list C)) (st : dstate) :
  forget_Sbus_step (body (set_Sbus s st)) = forget_Sbus_step (body st).
Proof.
  destruct st as [V V_prev lam lam_prev z step pv pq bus_types Sbus
                    approximation_order adapt_step continuation cont_steps
                    normF success voltage_series lambda_series callbacks].
  unfold loop_body, forget_Sbus_step, forget_Sbus, attempt. norm_state.
  destruct (predictor _ _ _ _ _ _ _ _ _ _ _ _ _ _)
    as [[[V0 lam0] z']|e]; norm_state; [|reflexivity].
  destruct (corrector _ _ _ _ _ _ _ _ _ _ _ _ _ _ _ _ _)
    as [[[[[[V' success'] i] lam'] normF'] Scalc]|e]; norm_state;
    [|reflexivity].
  destruct success'; [|reflexivity].
  unfold check_controls. norm_state.
  destruct (match controlQ with Direct => _ | NoControl => _ end)
    as [[[V1 Qnew] types_new] issue].
  destruct issue; norm_state.
  - destruct (elementwise _ _ _) as [Sbus'|]; simpl; [|reflexivity].
    destruct (compile_types Sbus' types_new) as [[[vd pq'] pv'] pqpv].
    reflexivity.
  - unfold check_stop, adapt_step_size, call_back. norm_state.
    destruct stop_at as [[|]|v]; [| |reflexivity];
      repeat (match goal with
              | |- context [bind (cpf_error_of ?a ?b ?c ?d ?e ?f) _] =>
                  destruct (cpf_error_of a b c d e f)
              | |- context [if ?b then _ else _] => destruct b
              end; simpl; norm_state);
      reflexivity.
Qed.

Lemma loop_forgets_Sbus (fuel : nat) (s : option (list C)) (st : dstate) :
  forget_Sbus_outcome (loop fuel (set_Sbus s st))
  = forget_Sbus_outcome (loop fuel st).
Proof.
  revert s st. induction fuel as [|fuel IH]; intros s st.
  - simpl. destruct st; simpl. destruct d_continuation0; reflexivity.
  - simpl. pose proof (loop_body_forgets_Sbus s st) as Hb.
    replace (d_continuation (set_Sbus s st)) with (d_continuation st)
      by (destruct st; reflexivity).
    destruct (d_continuation st).
    2:{ destruct st; reflexivity. }
    destruct (body (set_Sbus s st)) as [a|e a], (body st) as [b|e' b];
      unfold forget_Sbus_step in Hb; try discriminate.
    + assert (Hab : forget_Sbus a = forget_Sbus b) by congruence.
      rewrite (forget_Sbus_inv Hab). apply IH.
    + assert (Hab : forget_Sbus a = forget_Sbus b) by congruence.
      assert (He : e = e') by congruence.
      simpl. rewrite Hab, He. reflexivity.
Qed.
End SbusFacts.

(** ** The corrector *)

Section CorrectorFacts.
Variable create_J :
  spmatrix -> list C -> list nat -> list nat -> list nat -> nat -> nat ->
  matrix.
Variable spsolve : matrix -> list R -> list R.
Variable Ybus : spmatrix.
Variable Sbus : list C.
Variable pv pq : list nat.
Variable Sxfr : list C.
Variable Vprv : list C.
Variable lamprv : R.
Variable z : list R.
Variable step : R.
Variable parametrization : param_arg.
Variable tol : R.
Variable pvpq_lookup : list nat.

Local Abbreviation init :=
  (corrector_init Ybus Sbus pv pq Sxfr Vprv lamprv z step parametrization
     tol).
Local Abbreviation nstep :=
  (newton_step create_J spsolve Ybus Sbus pv pq Sxfr Vprv lamprv z step
     parametrization tol pvpq_lookup).
Local Abbreviation nupdate :=
  (newton_update create_J spsolve Ybus pv pq Sxfr Vprv lamprv z
     parametrization pvpq_lookup).
Local Abbreviation nloop :=
  (newton_loop create_J spsolve Ybus Sbus pv pq Sxfr Vprv lamprv z step
     parametrization tol pvpq_lookup).
Local Abbreviation niter :=
  (newton_iter create_J spsolve Ybus Sbus pv pq Sxfr Vprv lamprv z step
     parametrization tol pvpq_lookup).
Local Abbreviation is_settled :=
  (settled Ybus Sbus pv pq Sxfr Vprv lamprv z step parametrization tol).


Lemma corrector_init_fields (V0 : list C) (lam0 : R) (s0 : cstate) :
  init V0 lam0 = Ok s0 ->
  c_V s0 = V0 /\ c_lam s0 = lam0 /\ c_i s0 = 0%nat.
Proof.
  unfold corrector_init. intros H.
  destruct (calc_mismatch _ _ _ _ _) as [[Scalc mismatch]|]; [|discriminate].
  simpl in H. destruct (cpf_p _ _ _ _ _ _ _ _ _ _); [|discriminate].
  simpl in H. destruct (take_idx mismatch (pv ++ pq)); [|discriminate].
  simpl in H. destruct (take_idx mismatch pq); [|discriminate].
  simpl in H. inversion H. simpl. auto.
Qed.

Lemma corrector_init_settled (V0 : list C) (lam0 : R) (s0 : cstate) :
  init V0 lam0 = Ok s0 -> is_settled s0.
Proof.
  intros H. unfold settled.
  destruct (corrector_init_fields _ _ H) as (E1 & E2 & E3).
  rewrite E1, E2, H.
  destruct s0. simpl in *. subst. reflexivity.
Qed.

Lemma newton_step_settled (s s' : cstate) : nstep s = Ok s' -> is_settled s'.
Proof.
  unfold newton_step. intros H.
  destruct (nupdate s) as [[[Va Vm] lam]|]; [|discriminate]. simpl in H.
  destruct (elementwise polar Vm Va) as [V|]; [|discriminate]. simpl in H.
  destruct (calc_mismatch Ybus Sbus Sxfr V lam) as [[Scalc mismatch]|] eqn:Em;
    [|discriminate]. simpl in H.
  destruct (cpf_p _ _ _ _ _ _ _ _ _ _) as [P|] eqn:EP; [|discriminate].
  simpl in H.
  destruct (take_idx mismatch pv) as [m_pv|] eqn:E1; [|discriminate].
  simpl in H.
  destruct (take_idx mismatch pq) as [m_pq|] eqn:E2; [|discriminate].
  simpl in H. inversion H. subst s'. clear H.
  unfold settled, corrector_init. simpl.
  rewrite Em. simpl. rewrite EP. simpl.
  rewrite take_idx_app, E1, E2. simpl.
  rewrite map_app, <- app_assoc. reflexivity.
Qed.

Lemma newton_loop_settled (fuel : nat) (s s' : cstate) :
  nloop fuel s = Ok s' -> is_settled s -> is_settled s'.
Proof.
  revert s. induction fuel as [|fuel IH]; simpl; intros s H Hs.
  - inversion H. subst. exact Hs.
  - destruct (c_converged s); [inversion H; subst; exact Hs|].
    destruct (nstep s) as [s1|] eqn:E; [|discriminate]. simpl in H.
    apply (IH s1 H). apply (newton_step_settled _ E).
Qed.

Lemma newton_loop_converged (fuel : nat) (s : cstate) :
  c_converged s = true -> nloop fuel s = Ok s.
Proof. intros H. destruct fuel; simpl; [|rewrite H]; reflexivity. Qed.


Lemma newton_step_count (s s' : cstate) :
  nstep s = Ok s' -> c_i s' = S (c_i s).
Proof.
  unfold newton_step. intros H.
  destruct (nupdate s) as [[[Va Vm] lam]|]; [|discriminate]. simpl in H.
  destruct (elementwise polar Vm Va) as [V|]; [|discriminate]. simpl in H.
  destruct (calc_mismatch Ybus Sbus Sxfr V lam) as [[Scalc mismatch]|];
    [|discriminate]. simpl in H.
  destruct (cpf_p _ _ _ _ _ _ _ _ _ _) as [P|]; [|discriminate].
  simpl in H.
  destruct (take_idx mismatch pv) as [m_pv|]; [|discriminate].
  simpl in H.
  destruct (take_idx mismatch pq) as [m_pq|]; [|discriminate].
  simpl in H. inversion H. reflexivity.
Qed.

Lemma newton_loop_iter (fuel : nat) (s s' : cstate) :
  nloop fuel s = Ok s' ->
  exists n, (c_i s' = c_i s + n)%nat /\ (n <= fuel)%nat /\
            niter n s = Ok s'.
Proof.
  revert s. induction fuel as [|fuel IH]; simpl; intros s H.
  - inversion H. subst. exists 0%nat. repeat split; simpl; lia.
  - destruct (c_converged s).
    + inversion H. subst. exists 0%nat. repeat split; simpl; lia.
    + destruct (nstep s) as [s1|] eqn:E; [|discriminate]. simpl in H.
      destruct (IH s1 H) as (n & Hn & Hle & Hit).
      exists (S n). rewrite Hn, (newton_step_count _ E).
      repeat split; try lia. simpl. rewrite E. exact Hit.
Qed.

(** from a state that has not converged, a loop allowed one pass or more
    makes at least one *)
Lemma newton_loop_unconverged (fuel : nat) (s s' : cstate) :
  c_converged s = false -> nloop (S fuel) s = Ok s' ->
  (S (c_i s) <= c_i s')%nat.
Proof.
  intros Hc H. cbn [newton_loop] in H. rewrite Hc in H.
  destruct (nstep s) as [s1|] eqn:E; [|discriminate]. cbn [bind] in H.
  apply newton_step_count in E.
  apply newton_loop_iter in H. destruct H as (n & Hn & _). lia.
Qed.

Lemma corrector_init_polar_form (V0 : list C) (lam0 : R) (s0 : cstate) :
  init V0 lam0 = Ok s0 -> polar_form s0 /\ c_V s0 = V0.
Proof.
  unfold corrector_init. intros H.
  destruct (calc_mismatch _ _ _ _ _) as [[Scalc mismatch]|]; [|discriminate].
  simpl in H. destruct (cpf_p _ _ _ _ _ _ _ _ _ _); [|discriminate].
  simpl in H. destruct (take_idx mismatch (pv ++ pq)); [|discriminate].
  simpl in H. destruct (take_idx mismatch pq); [|discriminate].
  simpl in H. inversion H. unfold polar_form. simpl. auto.
Qed.

Lemma newton_step_inv (s s' : cstate) :
  nstep s = Ok s' ->
  exists Va Vm lam V,
    nupdate s = Ok (Va, Vm, lam) /\
    elementwise polar Vm Va = Ok V /\
    c_V s' = V /\ c_lam s' = lam /\ polar_form s'.
Proof.
  unfold newton_step. intros H.
  destruct (nupdate s) as [[[Va Vm] lam]|] eqn:Eu; [|discriminate]. simpl in H.
  destruct (elementwise polar Vm Va) as [V|] eqn:Ev; [|discriminate]. simpl in H.
  destruct (calc_mismatch Ybus Sbus Sxfr V lam) as [[Scalc mismatch]|];
    [|discriminate]. simpl in H.
  destruct (cpf_p _ _ _ _ _ _ _ _ _ _) as [P|]; [|discriminate].
  simpl in H.
  destruct (take_idx mismatch pv) as [m_pv|]; [|discriminate].
  simpl in H.
  destruct (take_idx mismatch pq) as [m_pq|]; [|discriminate].
  simpl in H. inversion H. exists Va, Vm, lam, V.
  unfold polar_form. simpl. repeat split; solve [reflexivity | assumption].
Qed.

Lemma newton_iter_snoc (n : nat) (s s' : cstate) :
  niter (S n) s = Ok s' ->
  exists sn, niter n s = Ok sn /\ nstep sn = Ok s'.
Proof.
  revert s. induction n as [|n IH]; intros s H.
  - simpl in H. destruct (nstep s) as [s1|] eqn:E; [|discriminate].
    simpl in H. inversion H. subst. exists s. split; [reflexivity | exact E].
  - change (niter (S (S n)) s) with
      (s1 <- nstep s ;; niter (S n) s1) in H.
    destruct (nstep s) as [s1|] eqn:E; [|discriminate]. simpl bind in H.
    destruct (IH s1 H) as (sn & Hn & Hs).
    exists sn. split; [|exact Hs]. simpl. rewrite E. exact Hn.
Qed.
End CorrectorFacts.



(** ** Evaluation on the two-bus network *)

Lemma Cabs_real (x y : R) : 0 <= x -> y = 0 -> Cabs (x, y) = x.
Proof.
  intros Hx ->. unfold Cabs. simpl.
  replace (x * x + 0 * 0) with (x * x) by ring.
  apply sqrt_square. exact Hx.
Qed.

Lemma angle_real_pos (x y : R) : 0 < x -> y = 0 -> angle (x, y) = 0.
Proof.
  intros Hx ->. unfold angle, arctan2. simpl.
  rewrite Rltb_true by exact Hx.
  replace (0 / x) with 0 by (field; lra). apply atan_0.
Qed.

Lemma angle_real_neg (x y : R) : x < 0 -> y = 0 -> angle (x, y) = PI.
Proof.
  intros Hx ->. unfold angle, arctan2. simpl.
  rewrite Rltb_false by lra. rewrite Rltb_true by exact Hx.
  rewrite Rleb_true by lra.
  replace (0 / x) with 0 by (field; lra). rewrite atan_0. lra.
Qed.

Lemma polar_0 (m : R) : polar m 0 = (m, 0).
Proof. unfold polar. rewrite cos_0, sin_0. f_equal; ring. Qed.

(** equality of lists of reals and of complex numbers, entry by entry *)
Ltac reals :=
  repeat match goal with
         | |- @eq (result _) _ _ => f_equal
         | |- @eq (list _) _ _ => f_equal
         | |- @eq (_ * _)%type _ _ => f_equal
         | |- @eq C _ _ => f_equal
         end;
  try reflexivity; try lra; try (field; lra).


Lemma ex_continuation_init :
  continuation_init ex_Ybus ex_Sbus ex_Starget ex_pv ex_pq
    (Some [3%Z; 1%Z])
  = Ok (ex_Sxfr, [1%nat], [3%Z; 1%Z], ex_z, [0%nat; 0%nat]).
Proof.
  unfold continuation_init. simpl. unfold Csub, ex_Sxfr, ex_z. simpl.
  repeat f_equal; lra.
Qed.


Lemma ex_tangent_system (lam : R) (z : list R) (pvpq_lookup : list nat) :
  0 <= lam ->
  tangent_system ex_create_J ex_V lam ex_Ybus ex_Sxfr ex_pv ex_pq z ex_V 0
    (Param Natural) pvpq_lookup = Ok ex_J2.
Proof.
  intros Hl.
  unfold tangent_system. simpl. rewrite Rleb_true by lra. simpl.
  unfold augment, ex_create_J, ex_J2. simpl.
  rewrite !Cabs_real by lra. reals.
Qed.

Lemma ex_tangent_solve : back_subst ex_J2 [0; 0; 1] = [0; - (3 / 4); 1].
Proof. unfold back_subst, ex_J2. simpl. reals. Qed.

Lemma ex_tangent_solves : solves ex_J2 [0; - (3 / 4); 1] [0; 0; 1].
Proof. split; [reflexivity|]. unfold mat_vec, ex_J2. simpl. reals. Qed.


Lemma ex_tangent :
  tangent ex_z 2 ex_pq (ex_pv ++ ex_pq) [0; - (3 / 4); 1] = Ok ex_z1.
Proof.
  unfold tangent. simpl.
  assert (E : norm2 [0; 0; 0; - (3 / 4); 1] = 5 / 4).
  { unfold norm2. simpl.
    replace (_ + _) with ((5 / 4) * (5 / 4)) by lra.
    apply sqrt_square. lra. }
  rewrite E. unfold ex_z1. reals.
Qed.

(** the prediction from the flat voltage profile, with a step of 1/10 *)
Lemma ex_predictor_from (lam : R) (pvpq_lookup : list nat) :
  0 <= lam ->
  predictor ex_create_J back_subst ex_V lam ex_Ybus ex_Sxfr ex_pv ex_pq
    (1 / 10) ex_z ex_V 0 (Param Natural) pvpq_lookup
  = Ok ([(1, 0); (47 / 50, 0)], lam + 2 / 25, ex_z1).
Proof.
  intros Hl.
  unfold predictor. rewrite ex_tangent_system by exact Hl. cbn [bind].
  change (unit_rhs (length ex_pv) (length ex_pq)) with [0; 0; 1].
  rewrite ex_tangent_solve.
  change (length ex_V) with 2%nat. rewrite ex_tangent. simpl.
  rewrite !Cabs_real by lra. rewrite !angle_real_pos by lra.
  replace (0 + 1 / 10 * 0) with 0 by lra. rewrite !polar_0. reals.
Qed.

Lemma ex_predictor (pvpq_lookup : list nat) :
  predictor ex_create_J back_subst ex_V 0 ex_Ybus ex_Sxfr ex_pv ex_pq
    (1 / 10) ex_z ex_V 0 (Param Natural) pvpq_lookup
  = Ok ([(1, 0); (47 / 50, 0)], 2 / 25, ex_z1).
Proof. rewrite ex_predictor_from by lra. reals. Qed.

(** [linalg.norm(v, Inf)] of a list of numerals *)
Ltac norm_inf_num :=
  unfold norm_inf; simpl;
  repeat match goal with
         | |- context [Rabs ?a] =>
             first [rewrite (Rabs_right a) by lra
                   | rewrite (Rabs_left a) by lra]
         end;
  repeat match goal with
         | |- context [Rmax ?a ?b] =>
             first [rewrite (Rmax_left a b) by lra
                   | rewrite (Rmax_right a b) by lra]
         end;
  lra.

(** the injections and the mismatch when bus 1 is at [(v, 0)] *)
Lemma ex_calc_mismatch (v lam : R) :
  calc_mismatch ex_Ybus ex_Sbus ex_Sxfr [(1, 0); (v, 0)] lam
  = Ok ([(0, 1 - v); (0, v * v - v)],
        [(0, 1 - v); (0, v * v - v + lam * (3 / 4))]).
Proof.
  unfold calc_mismatch, sp_mul. simpl.
  unfold Csub, Cmul, Cconj, Cadd, Cscal. simpl. reals.
Qed.


Lemma ex_corrector_init (v lam lamprv step tol : R) (Vprv : list C)
  (z : list R) :
  0 < v -> lamprv <= lam ->
  corrector_init ex_Ybus ex_Sbus ex_pv ex_pq ex_Sxfr Vprv lamprv z step
    (Param Natural) tol [(1, 0); (v, 0)] lam
  = Ok (mk_cstate [(1, 0); (v, 0)] [0; 0] [1; v] lam
          (ex_F v lam lamprv step) (norm_inf (ex_F v lam lamprv step))
          [(0, 1 - v); (0, v * v - v)]
          (Rltb (norm_inf (ex_F v lam lamprv step)) tol) 0).
Proof.
  intros Hv Hl. unfold corrector_init.
  rewrite ex_calc_mismatch. cbn [bind].
  unfold cpf_p. rewrite Rleb_true by exact Hl. simpl.
  rewrite !Cabs_real by lra. rewrite !angle_real_pos by lra.
  reflexivity.
Qed.


Lemma ex_corrector_init_flat (lam step tol : R) (z : list R) :
  0 <= lam ->
  corrector_init ex_Ybus ex_Sbus ex_pv ex_pq ex_Sxfr ex_V 0 z step
    (Param Natural) tol ex_V lam
  = Ok (ex_s0 lam step tol).
Proof.
  intros Hl. unfold ex_V at 2.
  rewrite ex_corrector_init by lra. reflexivity.
Qed.

(** the first Newton update moves the magnitude of bus 1 to
    [1 - 3/4 step] and [lam] to [step]; the angles stay *)
Lemma ex_newton_update (lam step tol : R) (pvpq_lookup : list nat) :
  0 <= lam ->
  newton_update ex_create_J back_subst ex_Ybus ex_pv ex_pq ex_Sxfr ex_V 0
    ex_z (Param Natural) pvpq_lookup (ex_s0 lam step tol)
  = Ok ([0; 0], [1; 1 - 3 / 4 * step], step).
Proof.
  intros Hl. unfold newton_update. simpl. rewrite Rleb_true by lra.
  cbn [bind]. unfold augment, ex_create_J, back_subst, ex_F. simpl.
  rewrite !Cabs_real by lra. reals.
Qed.


Lemma ex_newton_step (lam step tol : R) (pvpq_lookup : list nat) :
  0 <= lam -> 0 <= step ->
  newton_step ex_create_J back_subst ex_Ybus ex_Sbus ex_pv ex_pq ex_Sxfr
    ex_V 0 ex_z step (Param Natural) tol pvpq_lookup (ex_s0 lam step tol)
  = Ok (ex_s1 step tol).
Proof.
  intros Hl Hs. unfold newton_step.
  rewrite ex_newton_update by exact Hl. cbn [bind].
  unfold elementwise at 1. cbn [length Nat.eqb map2 bind].
  rewrite !polar_0. rewrite ex_calc_mismatch. cbn [bind].
  unfold cpf_p. rewrite Rleb_true by exact Hs. simpl.
  reflexivity.
Qed.

Lemma ex_norm_F0 : norm_inf (ex_F 1 (1 / 10) 0 (1 / 10)) = 3 / 40.
Proof. unfold ex_F. norm_inf_num. Qed.

Lemma ex_norm_F1 :
  norm_inf (ex_F (1 - 3 / 4 * (1 / 10)) (1 / 10) 0 (1 / 10)) = 9 / 1600.
Proof. unfold ex_F. norm_inf_num. Qed.

(** a corrector call that converges after one Newton iteration *)
Lemma ex_corrector (n : nat) (pvpq_lookup : list nat) :
  corrector ex_create_J back_subst ex_Ybus ex_Sbus ex_pv ex_pq ex_Sxfr ex_V
    0 ex_z (1 / 10) (Param Natural) (1 / 20) pvpq_lookup ex_V (1 / 10) (S n)
  = Ok (c_V (ex_s1 (1 / 10) (1 / 20)), true, 1%nat, 1 / 10, 9 / 1600,
        c_Scalc (ex_s1 (1 / 10) (1 / 20))).
Proof.
  unfold corrector. rewrite ex_corrector_init_flat by lra. cbn [bind].
  assert (E0 : c_converged (ex_s0 (1 / 10) (1 / 10) (1 / 20)) = false).
  { unfold ex_s0. cbn [c_converged]. rewrite ex_norm_F0.
    apply Rltb_false. lra. }
  assert (E1 : c_converged (ex_s1 (1 / 10) (1 / 20)) = true).
  { unfold ex_s1. cbn [c_converged]. rewrite ex_norm_F1.
    apply Rltb_true. lra. }
  cbn [newton_loop]. rewrite E0, ex_newton_step by lra. cbn [bind].
  rewrite newton_loop_converged by exact E1. cbn [bind].
  rewrite E1. unfold ex_s1. cbn [c_V c_i c_lam c_normF c_Scalc].
  rewrite ex_norm_F1. reflexivity.
Qed.


Lemma ex_norm_F_predicted :
  norm_inf (ex_F (47 / 50) (2 / 25) 0 (1 / 10)) = 1 / 50.
Proof. unfold ex_F. norm_inf_num. Qed.

Lemma ex_corrector_predicted (tol : R) (max_it : nat) (z : list R)
  (pvpq_lookup : list nat) :
  (max_it = 0%nat \/ 1 / 50 < tol) ->
  corrector ex_create_J back_subst ex_Ybus ex_Sbus ex_pv ex_pq ex_Sxfr ex_V
    0 z (1 / 10) (Param Natural) tol pvpq_lookup ex_V0 (2 / 25) max_it
  = Ok (ex_V0, Rltb (1 / 50) tol, 0%nat, 2 / 25, 1 / 50,
        [(0, 1 - 47 / 50); (0, 47 / 50 * (47 / 50) - 47 / 50)]).
Proof.
  intros H. unfold corrector, ex_V0.
  rewrite ex_corrector_init by lra. cbn [bind].
  rewrite ex_norm_F_predicted.
  destruct H as [-> | H].
  - reflexivity.
  - rewrite newton_loop_converged
      by (cbn [c_converged]; apply Rltb_true; exact H).
    reflexivity.
Qed.

(** a corrector call whose Newton step drives the magnitude of bus 1
    below zero: a guess [lam = 2] for a step of [2] *)
Lemma ex_norm_F_far : norm_inf (ex_F 1 2 0 2) = 3 / 2.
Proof. unfold ex_F. norm_inf_num. Qed.

Lemma ex_corrector_far (pvpq_lookup : list nat) :
  corrector ex_create_J back_subst ex_Ybus ex_Sbus ex_pv ex_pq ex_Sxfr ex_V
    0 ex_z 2 (Param Natural) (1 / 20) pvpq_lookup ex_V 2 1
  = Ok (c_V (ex_s1 2 (1 / 20)), c_converged (ex_s1 2 (1 / 20)), 1%nat, 2,
        c_normF (ex_s1 2 (1 / 20)), c_Scalc (ex_s1 2 (1 / 20))).
Proof.
  unfold corrector. rewrite ex_corrector_init_flat by lra. cbn [bind].
  assert (E0 : c_converged (ex_s0 2 2 (1 / 20)) = false).
  { unfold ex_s0. cbn [c_converged]. rewrite ex_norm_F_far.
    apply Rltb_false. lra. }
  cbn [newton_loop]. rewrite E0, ex_newton_step by lra. cbn [bind].
  reflexivity.
Qed.

(** *** The run with a reclassified bus *)

Lemma ex_continuation_init_pv :
  continuation_init ex_Ybus ex_Sbus ex_Starget [1%nat] [] (Some [3%Z; 2%Z])
  = Ok (ex_Sxfr, [1%nat], [3%Z; 2%Z], ex_z, [0%nat; 0%nat]).
Proof.
  unfold continuation_init. simpl. unfold Csub, ex_Sxfr, ex_z. simpl.
  repeat f_equal; lra.
Qed.

Lemma ex_predictor_pv (pvpq_lookup : list nat) :
  predictor ex_create_J back_subst ex_V 0 ex_Ybus ex_Sxfr [1%nat] []
    (1 / 10) ex_z ex_V 0 (Param Natural) pvpq_lookup
  = Ok (ex_V, 1 / 10, ex_z).
Proof.
  unfold predictor, tangent_system. simpl. rewrite Rleb_true by lra.
  cbn [bind]. unfold augment, ex_create_J, back_subst, unit_rhs. simpl.
  replace ((0 - (- 0 * ((1 - 0) / 1) + 0)) / 1) with 0 by lra.
  replace ((1 - 0) / 1) with 1 by lra.
  assert (E : norm2 [0; 0; 0; 0; 1] = 1).
  { unfold norm2. simpl. replace (_ + _) with (1 * 1) by lra.
    apply sqrt_square. lra. }
  rewrite E. rewrite !Cabs_real by lra. rewrite !angle_real_pos by lra.
  replace (0 + 1 / 10 * (0 / 1)) with 0 by lra. rewrite !polar_0.
  unfold ex_V, ex_z. reals.
Qed.

(** with bus 1 a PV bus only its active-power mismatch is looked at; it
    vanishes at the flat profile, so the corrector returns the prediction *)
Lemma ex_corrector_pv (tol : R) (max_it : nat) (pvpq_lookup : list nat) :
  0 < tol ->
  corrector ex_create_J back_subst ex_Ybus ex_Sbus [1%nat] [] ex_Sxfr ex_V
    0 ex_z (1 / 10) (Param Natural) tol pvpq_lookup ex_V (1 / 10) max_it
  = Ok (ex_V, true, 0%nat, 1 / 10, 0, [(0, 1 - 1); (0, 1 * 1 - 1)]).
Proof.
  intros Ht. unfold corrector, corrector_init.
  change ex_V with [(1, 0); (1, 0)].
  rewrite ex_calc_mismatch. cbn [bind].
  unfold cpf_p. rewrite Rleb_true by lra. simpl.
  assert (E : Rmax (Rabs 0) (Rmax (Rabs (1 / 10 - 0 - 1 / 10)) 0) = 0).
  { replace (1 / 10 - 0 - 1 / 10) with 0 by lra. rewrite Rabs_R0.
    rewrite !(Rmax_left 0 0) by lra. reflexivity. }
  rewrite E.
  rewrite newton_loop_converged
    by (cbn [c_converged]; apply Rltb_true; exact Ht).
  cbn [bind c_V c_converged c_i c_lam c_normF c_Scalc].
  rewrite Rltb_true by exact Ht. reflexivity.
Qed.

Lemma ex_norm_F_second :
  norm_inf (ex_F (47 / 50) (9 / 50) (1 / 10) (1 / 10)) = 393 / 5000.
Proof. unfold ex_F. norm_inf_num. Qed.

(** the corrector call of the second pass, made with [Sbus_base] *)
Lemma ex_corrector_second (max_it : nat) (pvpq_lookup : list nat) :
  corrector ex_create_J back_subst ex_Ybus ex_Sbus ex_pv ex_pq ex_Sxfr ex_V
    (1 / 10) ex_z1 (1 / 10) (Param Natural) (1 / 10) pvpq_lookup ex_V0
    (9 / 50) max_it
  = Ok (ex_V0, true, 0%nat, 9 / 50, 393 / 5000,
        [(0, 1 - 47 / 50); (0, 47 / 50 * (47 / 50) - 47 / 50)]).
Proof.
  unfold corrector, ex_V0.
  rewrite ex_corrector_init by lra. cbn [bind].
  rewrite ex_norm_F_second.
  rewrite newton_loop_converged
    by (cbn [c_converged]; apply Rltb_true; lra).
  cbn [bind c_V c_converged c_i c_lam c_normF c_Scalc].
  rewrite Rltb_true by lra. reflexivity.
Qed.

(** at the first corrected point the control moves bus 1 to the PQ buses *)
Lemma ex_limit_control_eval :
  ex_limit_control ex_V (map Cabs ex_V)
    (map Cim [(0, 1 - 1); (0, 1 * 1 - 1)]) [9; - (1 / 10)] [- 9; - 1]
    [3%Z; 2%Z] [3%Z; 2%Z]
  = (ex_V, [1 - 1; - (1 / 10)], [3%Z; 1%Z], true).
Proof.
  unfold ex_limit_control. simpl. rewrite Rleb_true by lra. reflexivity.
Qed.

Lemma ex_limits_first_pass :
  loop_body ex_create_J back_subst ex_limit_control ex_partition ex_Ybus
    ex_Sbus ex_Sxfr [1%nat] [0%nat; 0%nat] (1 / 1000) (1 / 5) (1 / 1000)
    (1 / 10) 20 (StopAt Nose) Direct [9; - (1 / 10)] [- 9; - 1]
    [3%Z; 2%Z] false ex_limits_start
  = Next ex_limits_pass1.
Proof.
  unfold loop_body, attempt, ex_limits_start. norm_state.
  rewrite ex_predictor_pv. norm_state.
  rewrite ex_corrector_pv by lra. norm_state.
  unfold check_controls. norm_state.
  rewrite ex_limit_control_eval.
  assert (E : elementwise (fun p q : R => Cadd (p, 0) (Cscal q (0, 1)))
                (map Cre [(0, 1 - 1); (0, 1 * 1 - 1)]) [1 - 1; - (1 / 10)]
              = Ok ex_Sbus_limited).
  { unfold elementwise, Cadd, Cscal, ex_Sbus_limited. simpl. reals. }
  rewrite E. cbn [bind]. unfold ex_partition. cbn [buses_of_type Z.eqb Pos.eqb].
  unfold check_stop. norm_state. rewrite Rltb_false by lra.
  unfold adapt_step_size. norm_state. cbn [andb].
  unfold call_back. reflexivity.
Qed.

Lemma ex_limits_second_pass :
  loop_body ex_create_J back_subst ex_limit_control ex_partition ex_Ybus
    ex_Sbus ex_Sxfr [1%nat] [0%nat; 0%nat] (1 / 1000) (1 / 5) (1 / 1000)
    (1 / 10) 20 (StopAt Nose) Direct [9; - (1 / 10)] [- 9; - 1]
    [3%Z; 2%Z] false ex_limits_pass1
  = Next ex_limits_pass2.
Proof.
  pose proof (@ex_predictor_from (1 / 10) [0%nat; 0%nat]) as Ep.
  pose proof (ex_corrector_second 20 [0%nat; 0%nat]) as Ec.
  unfold ex_pv, ex_pq, ex_V0 in Ep, Ec.
  unfold loop_body, attempt, ex_limits_pass1. norm_state.
  rewrite Ep by lra. norm_state.
  replace (1 / 10 + 2 / 25) with (9 / 50) by lra.
  rewrite Ec. norm_state.
  unfold check_controls, ex_limit_control. norm_state.
  cbn [map limit_q Z.eqb Pos.eqb].
  unfold check_stop. norm_state. rewrite Rltb_false by lra.
  unfold adapt_step_size. norm_state. cbn [andb].
  unfold call_back. reflexivity.
Qed.

(** the run, followed for two passes of the loop *)
Lemma ex_run_limits_eval : ex_run_limits 2 = Running ex_limits_pass2.
Proof.
  unfold ex_run_limits, continuation_nr.
  rewrite ex_continuation_init_pv. fold ex_limits_start.
  unfold continuation_loop.
  change (d_continuation ex_limits_start) with true. cbv iota.
  rewrite ex_limits_first_pass.
  change (d_continuation ex_limits_pass1) with true. cbv iota.
  rewrite ex_limits_second_pass. reflexivity.
Qed.

(** the mismatch at the point stored by the second pass, taken with the
    re-derived bus power vector, is not within the tolerance *)
Lemma ex_limited_mismatch :
  calc_mismatch ex_Ybus ex_Sbus_limited ex_Sxfr ex_V0 (9 / 50)
  = Ok ([(0, 1 - 47 / 50); (0, 47 / 50 * (47 / 50) - 47 / 50)],
        [(0, 1 - 47 / 50); (0, 893 / 5000)]).
Proof.
  unfold calc_mismatch, sp_mul. simpl.
  unfold Csub, Cmul, Cconj, Cadd, Cscal. simpl. reals.
Qed.

Lemma ex_corrector_init_limited :
  corrector_init ex_Ybus ex_Sbus_limited ex_pv ex_pq ex_Sxfr ex_V (1 / 10)
    ex_z1 (1 / 10) (Param Natural) (1 / 10) ex_V0 (9 / 50)
  = Ok (mk_cstate ex_V0 [0; 0] [1; 47 / 50] (9 / 50)
          [0; 893 / 5000; 9 / 50 - 1 / 10 - 1 / 10] (893 / 5000)
          [(0, 1 - 47 / 50); (0, 47 / 50 * (47 / 50) - 47 / 50)] false 0).
Proof.
  unfold corrector_init. rewrite ex_limited_mismatch. cbn [bind].
  unfold cpf_p. rewrite Rleb_true by lra. unfold ex_V0. simpl.
  rewrite !Cabs_real by lra. rewrite !angle_real_pos by lra.
  assert (E : Rmax (Rabs 0)
                (Rmax (Rabs (893 / 5000))
                   (Rmax (Rabs (9 / 50 - 1 / 10 - 1 / 10)) 0))
              = 893 / 5000) by norm_inf_num.
  rewrite E. rewrite Rltb_false by lra. reflexivity.
Qed.


(** *** The run that returns after its second pass *)

(** the corrector call of the second pass with a tolerance of 1/20 and no
    Newton iteration allowed: the predicted point is returned, not
    converged *)
Lemma ex_corrector_stalls (pvpq_lookup : list nat) :
  corrector ex_create_J back_subst ex_Ybus ex_Sbus ex_pv ex_pq ex_Sxfr ex_V
    (1 / 10) ex_z1 (1 / 10) (Param Natural) (1 / 20) pvpq_lookup ex_V0
    (9 / 50) 0
  = Ok (ex_V0, false, 0%nat, 9 / 50, 393 / 5000,
        [(0, 1 - 47 / 50); (0, 47 / 50 * (47 / 50) - 47 / 50)]).
Proof.
  unfold corrector, ex_V0.
  rewrite ex_corrector_init by lra. cbn [bind].
  rewrite ex_norm_F_second. cbn [newton_loop bind].
  cbn [c_V c_converged c_i c_lam c_normF c_Scalc].
  rewrite Rltb_false by lra. reflexivity.
Qed.

Lemma ex_stalls_first_pass :
  loop_body ex_create_J back_subst ex_limit_control ex_partition ex_Ybus
    ex_Sbus ex_Sxfr [1%nat] [0%nat; 0%nat] (1 / 1000) (1 / 5) (1 / 1000)
    (1 / 20) 0 (StopAt Nose) Direct [9; - (1 / 10)] [- 9; - 1]
    [3%Z; 2%Z] false ex_limits_start
  = Next ex_limits_pass1.
Proof.
  unfold loop_body, attempt, ex_limits_start. norm_state.
  rewrite ex_predictor_pv. norm_state.
  rewrite ex_corrector_pv by lra. norm_state.
  unfold check_controls. norm_state.
  rewrite ex_limit_control_eval.
  assert (E : elementwise (fun p q : R => Cadd (p, 0) (Cscal q (0, 1)))
                (map Cre [(0, 1 - 1); (0, 1 * 1 - 1)]) [1 - 1; - (1 / 10)]
              = Ok ex_Sbus_limited).
  { unfold elementwise, Cadd, Cscal, ex_Sbus_limited. simpl. reals. }
  rewrite E. cbn [bind]. unfold ex_partition. cbn [buses_of_type Z.eqb Pos.eqb].
  unfold check_stop. norm_state. rewrite Rltb_false by lra.
  unfold adapt_step_size. norm_state. cbn [andb].
  unfold call_back. reflexivity.
Qed.

Lemma ex_stalls_second_pass :
  loop_body ex_create_J back_subst ex_limit_control ex_partition ex_Ybus
    ex_Sbus ex_Sxfr [1%nat] [0%nat; 0%nat] (1 / 1000) (1 / 5) (1 / 1000)
    (1 / 20) 0 (StopAt Nose) Direct [9; - (1 / 10)] [- 9; - 1]
    [3%Z; 2%Z] false ex_limits_pass1
  = Next ex_stalled.
Proof.
  pose proof (@ex_predictor_from (1 / 10) [0%nat; 0%nat]) as Ep.
  pose proof (ex_corrector_stalls [0%nat; 0%nat]) as Ec.
  unfold ex_pv, ex_pq, ex_V0 in Ep, Ec.
  unfold loop_body, attempt, ex_limits_pass1. norm_state.
  rewrite Ep by lra. norm_state.
  replace (1 / 10 + 2 / 25) with (9 / 50) by lra.
  rewrite Ec. norm_state. reflexivity.
Qed.

(** the run returns after two passes, however many more are allowed *)
Lemma ex_run_stalls_eval (fuel : nat) :
  ex_run_stalls (S (S fuel)) = Returned ex_stalled.
Proof.
  unfold ex_run_stalls, continuation_nr.
  rewrite ex_continuation_init_pv. fold ex_limits_start.
  cbn [continuation_loop].
  change (d_continuation ex_limits_start) with true. cbv iota.
  rewrite ex_stalls_first_pass.
  change (d_continuation ex_limits_pass1) with true. cbv iota.
  rewrite ex_stalls_second_pass.
  destruct fuel; reflexivity.
Qed.

(** * The claims *)

Unset Implicit Arguments.

(** ** The parametrization function *)

(** C9. Natural scheme: with [lam >= lamprv] the value is
    [lam - lamprv - step], with [lam < lamprv] it is [lamprv - lam - step];
    at the previous point itself with a zero step it is [0]. *)
Theorem cpf_p_natural (step : R) (z : list R) (V V_prev : list C)
  (lam lamprv : R) (pv pq pvpq : list nat) :
  (lamprv <= lam ->
   cpf_p (Param Natural) step z V lam V_prev lamprv pv pq pvpq
   = Ok (lam - lamprv - step)) /\
  (lam < lamprv ->
   cpf_p (Param Natural) step z V lam V_prev lamprv pv pq pvpq
   = Ok (lamprv - lam - step)) /\
  cpf_p (Param Natural) 0 z V_prev lamprv V_prev lamprv pv pq pvpq = Ok 0.
Proof.
  unfold cpf_p. repeat split.
  - intros H. rewrite Rleb_true by assumption. reflexivity.
  - intros H. rewrite Rleb_false by assumption. reflexivity.
  - rewrite Rleb_true by lra. f_equal. lra.
Qed.

Lemma cpf_p_natural_witness :
  cpf_p (Param Natural) (1 / 10) [0; 0; 0; 0; 1] [(1, 0); (1, 0)] (3 / 10)
    [(1, 0); (1, 0)] (1 / 5) [] [1%nat] [1%nat] = Ok (3 / 10 - 1 / 5 - 1 / 10)
  /\
  cpf_p (Param Natural) (1 / 10) [0; 0; 0; 0; 1] [(1, 0); (1, 0)] (1 / 10)
    [(1, 0); (1, 0)] (1 / 5) [] [1%nat] [1%nat] = Ok (1 / 5 - 1 / 10 - 1 / 10).
Proof.
  split.
  - apply (cpf_p_natural (1 / 10) [0; 0; 0; 0; 1] [(1, 0); (1, 0)]
             [(1, 0); (1, 0)] (3 / 10) (1 / 5) [] [1%nat] [1%nat]). lra.
  - apply (cpf_p_natural (1 / 10) [0; 0; 0; 0; 1] [(1, 0); (1, 0)]
             [(1, 0); (1, 0)] (1 / 10) (1 / 5) [] [1%nat] [1%nat]). lra.
Defined.

(** C3 (as amended). For a scheme value that is none of the three members,
    the evaluation is the one of the Natural scheme, and the derivatives are
    the ones of the PseudoArcLength scheme (slices of [z]). *)
Theorem unrecognized_scheme_fallback (v : pyobj) (step : R) (z : list R)
  (V Vprv : list C) (lam lamprv : R) (pv pq pvpq : list nat) :
  cpf_p (ParamOther v) step z V lam Vprv lamprv pv pq pvpq
  = cpf_p (Param Natural) step z V lam Vprv lamprv pv pq pvpq
  /\
  cpf_p_jac (ParamOther v) z V lam Vprv lamprv pv pq pvpq
  = cpf_p_jac (Param PseudoArcLength) z V lam Vprv lamprv pv pq pvpq.
Proof. split; reflexivity. Qed.

(** C3, as stated, fails: on a two-bus network (slack and one PQ bus) with
    tangent [z = (0, 0, 0, 3/5, 4/5)] the derivatives for an unrecognized
    scheme are [(0, 3/5)] and [4/5], where the Natural scheme gives the zero
    vector and [1]. *)
Lemma unrecognized_scheme_jac_not_natural :
  cpf_p_jac (ParamOther (PyStr "Natural")) [0; 0; 0; 3 / 5; 4 / 5]
    [(1, 0); (1, 0)] 0 [(1, 0); (1, 0)] 0 [] [1%nat] [1%nat]
  = Ok ([0; 3 / 5], 4 / 5)
  /\
  cpf_p_jac (Param Natural) [0; 0; 0; 3 / 5; 4 / 5]
    [(1, 0); (1, 0)] 0 [(1, 0); (1, 0)] 0 [] [1%nat] [1%nat]
  = Ok ([0; 0], 1)
  /\
  cpf_p_jac (ParamOther (PyStr "Natural")) [0; 0; 0; 3 / 5; 4 / 5]
    [(1, 0); (1, 0)] 0 [(1, 0); (1, 0)] 0 [] [1%nat] [1%nat]
  <>
  cpf_p_jac (Param Natural) [0; 0; 0; 3 / 5; 4 / 5]
    [(1, 0); (1, 0)] 0 [(1, 0); (1, 0)] 0 [] [1%nat] [1%nat].
Proof.
  assert (E1 : cpf_p_jac (ParamOther (PyStr "Natural")) [0; 0; 0; 3 / 5; 4 / 5]
    [(1, 0); (1, 0)] 0 [(1, 0); (1, 0)] 0 [] [1%nat] [1%nat]
  = Ok ([0; 3 / 5], 4 / 5)) by reflexivity.
  assert (E2 : cpf_p_jac (Param Natural) [0; 0; 0; 3 / 5; 4 / 5]
    [(1, 0); (1, 0)] 0 [(1, 0); (1, 0)] 0 [] [1%nat] [1%nat]
  = Ok ([0; 0], 1)).
  { unfold cpf_p_jac. rewrite Rleb_true by lra. reflexivity. }
  split; [exact E1 | split; [exact E2 |]].
  rewrite E1, E2. intros H. inversion H. lra.
Qed.



Lemma take_angle (V : list C) (idx : list nat) :
  in_range V idx ->
  take_idx (map angle V) idx = Ok (map (fun i => angle (nth i V (0, 0))) idx).
Proof.
  intros H. rewrite (take_idx_ok (map angle V) (angle (0, 0))).
  - f_equal. apply map_ext. intros i. apply map_nth.
  - unfold in_range in H. rewrite length_map. exact H.
Qed.

Lemma take_Cabs (V : list C) (idx : list nat) :
  in_range V idx ->
  take_idx (map Cabs V) idx = Ok (map (fun i => Cabs (nth i V (0, 0))) idx).
Proof.
  intros H. rewrite (take_idx_ok (map Cabs V) (Cabs (0, 0))).
  - f_equal. apply map_ext. intros i. apply map_nth.
  - unfold in_range in H. rewrite length_map. exact H.
Qed.

(** C6. Arc-length scheme: [P] is the sum of the squared differences in
    (angle at pvpq, magnitude at pq, lambda) minus [step^2]; it is [0] at a
    point whose Euclidean distance to the previous point is [step]; the
    derivatives are twice the differences, with [dP_dlam = 1] when
    [lam = lamprv]. *)
Theorem cpf_p_arc_length (step : R) (z : list R) (V V_prev : list C)
  (lam lamprv : R) (pv pq pvpq : list nat) :
  in_range V pvpq -> in_range V pq ->
  in_range V_prev pvpq -> in_range V_prev pq ->
  let dV := map2 Rminus (arc_slots V pq pvpq) (arc_slots V_prev pq pvpq) in
  let d := dV ++ [lam - lamprv] in
  cpf_p (Param ArcLength) step z V lam V_prev lamprv pv pq pvpq
  = Ok (vsum (map (fun x => x ^ 2) d) - step ^ 2)
  /\
  (norm2 d = step ->
   cpf_p (Param ArcLength) step z V lam V_prev lamprv pv pq pvpq = Ok 0)
  /\
  exists dP_dlam,
    cpf_p_jac (Param ArcLength) z V lam V_prev lamprv pv pq pvpq
    = Ok (map (Rmult 2) dV, dP_dlam) /\
    (lam = lamprv -> dP_dlam = 1) /\
    (lam <> lamprv -> dP_dlam = 2 * (lam - lamprv)).
Proof.
  intros H1 H2 H3 H4 dV d.
  assert (EP : cpf_p (Param ArcLength) step z V lam V_prev lamprv pv pq pvpq
               = Ok (vsum (map (fun x => x ^ 2) d) - step ^ 2)).
  { unfold cpf_p.
    rewrite (take_angle _ _ H1), (take_Cabs _ _ H2). simpl.
    rewrite (take_angle _ _ H3), (take_Cabs _ _ H4). simpl.
    rewrite elementwise_same
      by (rewrite !length_app, !length_map; reflexivity).
    simpl. do 2 f_equal. f_equal.
    unfold d, dV, arc_slots.
    rewrite !app_assoc.
    rewrite map2_app by (rewrite !length_app, !length_map; reflexivity).
    reflexivity. }
  split; [exact EP | split].
  - intros Hn. rewrite EP. f_equal.
    rewrite map_pow2, <- norm2_sqr, Hn. simpl. lra.
  - unfold cpf_p_jac.
    rewrite (take_angle _ _ H1), (take_Cabs _ _ H2). simpl.
    rewrite (take_angle _ _ H3), (take_Cabs _ _ H4). simpl.
    rewrite elementwise_same
      by (rewrite !length_app, !length_map; reflexivity).
    simpl. fold (arc_slots V pq pvpq) (arc_slots V_prev pq pvpq). fold dV.
    unfold Reqb. destruct (Req_dec_T lam lamprv) as [E|E].
    + exists 1. split; [reflexivity | split; [reflexivity | contradiction]].
    + exists (2 * (lam - lamprv)).
      split; [reflexivity | split; [contradiction | reflexivity]].
Qed.

(** ** Adaptive step control *)

Lemma guard_zero_pos (e : R) : 0 <= e -> 0 < guard_zero e.
Proof.
  intros H. unfold guard_zero, Reqb.
  destruct (Req_dec_T e 0); lra.
Qed.

Lemma cpf_error_nonneg (V V0 : list C) (lam lam0 : R) (pq pvpq : list nat)
  (e : R) : cpf_error_of V V0 lam lam0 pq pvpq = Ok e -> 0 <= e.
Proof.
  unfold cpf_error_of. intros H.
  destruct (take_idx V pq); [|discriminate]. simpl in H.
  destruct (take_idx V pvpq); [|discriminate]. simpl in H.
  destruct (take_idx V0 pq); [|discriminate]. simpl in H.
  destruct (take_idx V0 pvpq); [|discriminate]. simpl in H.
  destruct (elementwise _ _ _); [|discriminate]. simpl in H.
  inversion H. apply norm_inf_nonneg.
Qed.

Lemma step_ratio_grows (step error_tol e : R) :
  0 < step -> 0 < e -> e < error_tol -> step < step * error_tol / e.
Proof.
  intros Hs He Hlt. unfold Rdiv.
  apply Rmult_lt_reg_r with (r := e); [assumption|].
  rewrite Rmult_assoc, Rinv_l by lra. nra.
Qed.

Lemma step_ratio_shrinks (step error_tol e : R) :
  0 < step -> 0 < e -> error_tol < e -> step * error_tol / e < step.
Proof.
  intros Hs He Hlt. unfold Rdiv.
  apply Rmult_lt_reg_r with (r := e); [assumption|].
  rewrite Rmult_assoc, Rinv_l by lra. nra.
Qed.

Lemma cpf_p_arc_length_witness :
  cpf_p (Param ArcLength) (1 / 2) ex_z ex_V (1 / 2) ex_V 0 ex_pv ex_pq ex_pq
  = Ok 0.
Proof.
  apply (@cpf_p_arc_length (1 / 2) ex_z ex_V ex_V (1 / 2) 0 ex_pv ex_pq ex_pq).
  - repeat constructor.
  - repeat constructor.
  - repeat constructor.
  - repeat constructor.
  - unfold norm2. simpl.
    replace (_ + _) with ((1 / 2) * (1 / 2)) by ring.
    apply sqrt_square. lra.
Defined.


(** C8. With adaptivity enabled and the loop still running, the new step is
    [step * error_tol / cpf_error] clamped: for [cpf_error < error_tol] the
    ratio is strictly larger than [step] and is clamped above at [step_max];
    for [cpf_error > error_tol] it is strictly smaller and is clamped below
    at [step_min]; a zero [cpf_error] is replaced by [1e-20], so the divisor
    is positive. *)
Theorem adaptive_step_control (pvpq : list nat)
  (step_min step_max error_tol : R) (V0 : list C) (lam0 : R) (st : dstate) :
  d_adapt_step st = true -> d_continuation st = true -> 0 < d_step st ->
  is_ok (cpf_error_of (d_V st) V0 (d_lam st) lam0 (d_pq st) pvpq) ->
  step_control_post pvpq step_min step_max error_tol V0 lam0 st.
Proof.
  intros Ha Hc Hs Hok. unfold step_control_post.
  destruct (cpf_error_of (d_V st) V0 (d_lam st) lam0 (d_pq st) pvpq)
    as [e|] eqn:E; [|contradiction].
  pose proof (cpf_error_nonneg _ _ _ _ _ _ _ E) as He.
  pose proof (guard_zero_pos _ He) as Hg.
  exists e. eexists. split; [reflexivity|]. split.
  - unfold adapt_step_size. rewrite Ha, Hc, E. reflexivity.
  - cbv zeta. split; [exact Hg|]. split; [|split; [|split]].
    + intros ->. unfold guard_zero. rewrite Reqb_true; reflexivity.
    + intros Hne. unfold guard_zero. rewrite Reqb_false; auto.
    + intros Hlt.
      pose proof (step_ratio_grows _ _ _ Hs Hg Hlt) as Hr.
      split; [exact Hr|].
      simpl. unfold adapt. rewrite (Rltb_true Hlt).
      unfold Rltb, Rmin.
      destruct (Rlt_dec step_max _), (Rle_dec _ step_max); split; lra.
    + intros Hlt.
      pose proof (step_ratio_shrinks _ _ _ Hs Hg Hlt) as Hr.
      split; [exact Hr|].
      simpl. unfold adapt. rewrite Rltb_false by lra.
      unfold Rltb, Rmax.
      destruct (Rlt_dec _ step_min), (Rle_dec _ step_min); split; lra.
Qed.

(** on the two-bus network, the error of a prediction that had the
    corrected voltages and a lambda [d] below the corrected one *)
Lemma ex_step_error (step d : R) :
  0 <= d ->
  cpf_error_of (d_V (ex_state step true)) ex_V (d_lam (ex_state step true))
    (1 / 10 - d) (d_pq (ex_state step true)) [1%nat] = Ok d.
Proof.
  intros Hd. unfold cpf_error_of, ex_state, ex_V, ex_pq. simpl.
  unfold norm_inf. simpl. f_equal.
  repeat match goal with
         | |- context [?a - ?a] => replace (a - a) with 0 by ring
         end.
  replace (1 / 10 - (1 / 10 - d)) with d by ring.
  rewrite Rabs_R0, (Rabs_right d) by lra.
  repeat match goal with
         | |- context [Rmax ?a ?b] =>
             first [rewrite (Rmax_left a b) by lra
                   | rewrite (Rmax_right a b) by lra]
         end.
  reflexivity.
Qed.

(** a step of 1/100 with [error_tol = 1/1000] and the bounds 1/1000 and
    1/5: an error of 1/2000 doubles the step, an error of 1/500 divides it
    by five, an error of 1/10 takes it down to [step_min], and an error of
    zero takes it up to [step_max] *)
Lemma adaptive_step_control_witness :
  (exists st',
     adapt_step_size [1%nat] (1 / 1000) (1 / 5) (1 / 1000) ex_V
       (1 / 10 - 1 / 2000) (ex_state (1 / 100) true) = Ok st' /\
     d_step st' = 1 / 50) /\
  (exists st',
     adapt_step_size [1%nat] (1 / 1000) (1 / 5) (1 / 1000) ex_V
       (1 / 10 - 1 / 500) (ex_state (1 / 100) true) = Ok st' /\
     d_step st' = 1 / 200) /\
  (exists st',
     adapt_step_size [1%nat] (1 / 1000) (1 / 5) (1 / 1000) ex_V
       (1 / 10 - 1 / 10) (ex_state (1 / 100) true) = Ok st' /\
     d_step st' = 1 / 1000) /\
  (exists st',
     adapt_step_size [1%nat] (1 / 1000) (1 / 5) (1 / 1000) ex_V
       (1 / 10 - 0) (ex_state (1 / 100) true) = Ok st' /\
     d_step st' = 1 / 5).
Proof.
  assert (Hs : 0 < d_step (ex_state (1 / 100) true)) by (simpl; lra).
  assert (Hok : forall d, 0 <= d ->
            is_ok (cpf_error_of (d_V (ex_state (1 / 100) true)) ex_V
                     (d_lam (ex_state (1 / 100) true)) (1 / 10 - d)
                     (d_pq (ex_state (1 / 100) true)) [1%nat])).
  { intros d Hd. rewrite ex_step_error by exact Hd. exact I. }
  split; [|split; [|split]].
  - destruct (@adaptive_step_control [1%nat] (1 / 1000) (1 / 5) (1 / 1000)
                ex_V (1 / 10 - 1 / 2000) (ex_state (1 / 100) true)
                eq_refl eq_refl Hs (Hok (1 / 2000) ltac:(lra)))
      as (e & st' & He & Hst & _ & _ & Hnz & Hgrow & _).
    rewrite ex_step_error in He by lra. injection He as <-.
    exists st'. split; [exact Hst|].
    cbv zeta in Hgrow. rewrite (Hnz ltac:(lra)) in Hgrow.
    destruct (Hgrow ltac:(lra)) as (_ & -> & _). simpl d_step.
    unfold Rmin. destruct (Rle_dec _ _); lra.
  - destruct (@adaptive_step_control [1%nat] (1 / 1000) (1 / 5) (1 / 1000)
                ex_V (1 / 10 - 1 / 500) (ex_state (1 / 100) true)
                eq_refl eq_refl Hs (Hok (1 / 500) ltac:(lra)))
      as (e & st' & He & Hst & _ & _ & Hnz & _ & Hshrink).
    rewrite ex_step_error in He by lra. injection He as <-.
    exists st'. split; [exact Hst|].
    cbv zeta in Hshrink. rewrite (Hnz ltac:(lra)) in Hshrink.
    destruct (Hshrink ltac:(lra)) as (_ & -> & _). simpl d_step.
    unfold Rmax. destruct (Rle_dec _ _); lra.
  - destruct (@adaptive_step_control [1%nat] (1 / 1000) (1 / 5) (1 / 1000)
                ex_V (1 / 10 - 1 / 10) (ex_state (1 / 100) true)
                eq_refl eq_refl Hs (Hok (1 / 10) ltac:(lra)))
      as (e & st' & He & Hst & _ & _ & Hnz & _ & Hshrink).
    rewrite ex_step_error in He by lra. injection He as <-.
    exists st'. split; [exact Hst|].
    cbv zeta in Hshrink. rewrite (Hnz ltac:(lra)) in Hshrink.
    destruct (Hshrink ltac:(lra)) as (_ & -> & _). simpl d_step.
    unfold Rmax. destruct (Rle_dec _ _); lra.
  - destruct (@adaptive_step_control [1%nat] (1 / 1000) (1 / 5) (1 / 1000)
                ex_V (1 / 10 - 0) (ex_state (1 / 100) true)
                eq_refl eq_refl Hs (Hok 0 ltac:(lra)))
      as (e & st' & He & Hst & _ & Hz & _ & Hgrow & _).
    rewrite ex_step_error in He by lra. injection He as <-.
    exists st'. split; [exact Hst|].
    cbv zeta in Hgrow. rewrite (Hz eq_refl) in Hgrow.
    destruct (Hgrow ltac:(lra)) as (_ & -> & _). simpl d_step.
    unfold Rmin. destruct (Rle_dec _ _); lra.
Defined.

(** ** The continuation driver *)

Section DriverClaims.
Variable create_J :
  spmatrix -> list C -> list nat -> list nat -> list nat -> nat -> nat ->
  matrix.
Variable spsolve : matrix -> list R -> list R.
Variable control_q_direct :
  list C -> list R -> list R -> list R -> list R -> list Z -> list Z ->
  list C * list R * list Z * bool.
Variable compile_types :
  list C -> list Z -> list nat * list nat * list nat * list nat.

Section Trajectory.
Variable Ybus : spmatrix.
Variable Sbus_base Sbus_target V : list C.
Variable pv pq : list nat.
Variable step : R.
Variable approximation_order : param_arg.
Variable adapt_step : bool.
Variable step_min step_max error_tol tol : R.
Variable max_it : nat.
Variable stop_at : stop_arg.
Variable controlQ : ReactivePowerControlMode.
Variable Qmax_bus Qmin_bus : list R.
Variable original_bus_types : option (list Z).
Variable has_call_back : bool.
(** what the "INITIALIZATION" block computes *)
Variable Sxfr : list C.
Variable pvpq : list nat.
Variable bus_types : list Z.
Variable z : list R.
Variable pvpq_lookup : list nat.

(** one pass through the body of [while continuation], the locals when the
    loop is entered, and the call followed for [fuel] passes *)
Local Abbreviation body :=
  (loop_body create_J spsolve control_q_direct compile_types Ybus Sbus_base
     Sxfr pvpq pvpq_lookup step_min step_max error_tol tol max_it stop_at
     controlQ Qmax_bus Qmin_bus bus_types has_call_back).
Local Abbreviation st0 :=
  (mk_dstate V V 0 0 z step pv pq bus_types None approximation_order
     adapt_step true 0 0 false [] [] []).
Local Abbreviation run fuel :=
  (continuation_nr create_J spsolve control_q_direct compile_types fuel Ybus
     Sbus_base Sbus_target V pv pq step approximation_order adapt_step
     step_min step_max error_tol tol max_it stop_at controlQ Qmax_bus
     Qmin_bus original_bus_types has_call_back).

(** C4. When the initialisation succeeds:
    - every pass of the loop that runs to the end of the body bumps the
      step counter by one and appends exactly one voltage and one lambda to
      the two series; when its corrector did not converge, the point
      appended is the failing one and the loop is told to stop;
    - at the head of the loop after [fuel] passes, exactly [fuel] passes
      have been made, the counter is [fuel] and both series have [fuel]
      entries;
    - at the return, some [n >= 1] passes have been made, the counter is
      [n], both series have [n] entries, and after a failing corrector step
      the failing point is their last entry;
    - when an exception leaves pass [n + 1], the counter is [n + 1] and
      both series have the same number of entries, [n] or [n + 1]. *)
Theorem trajectory_lengths (fuel : nat) :
  continuation_init Ybus Sbus_base Sbus_target pv pq original_bus_types
  = Ok (Sxfr, pvpq, bus_types, z, pvpq_lookup) ->
  (forall st st', body st = Next st' -> appended_one st st') /\
  match run fuel with
  | Running st =>
      passes body fuel st0 st /\ d_cont_steps st = fuel /\
      length (d_voltage_series st) = fuel /\
      length (d_lambda_series st) = fuel
  | Returned st =>
      (exists n, (1 <= n <= fuel)%nat /\ passes body n st0 st /\
                 d_cont_steps st = n /\
                 length (d_voltage_series st) = n /\
                 length (d_lambda_series st) = n) /\
      failed_last st
  | RaisedInLoop e st =>
      exists n st1,
        (n < fuel)%nat /\ passes body n st0 st1 /\ body st1 = Fail e st /\
        d_cont_steps st = S n /\
        length (d_voltage_series st) = length (d_lambda_series st) /\
        (n <= length (d_voltage_series st) <= S n)%nat
  | RaisedAtEntry _ => False
  end.
Proof.
  intros Hinit. split.
  - intros st st' Hb.
    pose proof (loop_body_trace create_J spsolve control_q_direct
                  compile_types Ybus Sbus_base Sxfr pvpq pvpq_lookup
                  step_min step_max error_tol tol max_it stop_at controlQ
                  Qmax_bus Qmin_bus bus_types has_call_back st) as Ht.
    rewrite Hb in Ht. exact Ht.
  - unfold continuation_nr. rewrite Hinit.
    pose proof (loop_passes create_J spsolve control_q_direct compile_types
                  Ybus Sbus_base Sxfr pvpq pvpq_lookup step_min step_max
                  error_tol tol max_it stop_at controlQ Qmax_bus Qmin_bus
                  bus_types has_call_back fuel st0) as Hp.
    assert (Ht : trace_inv st0 /\ (d_continuation st0 = false ->
                                    failed_last st0)).
    { split; [split; reflexivity | discriminate]. }
    destruct Ht as [Ht0 Hl0].
    pose proof (@loop_trace create_J spsolve control_q_direct compile_types
                  Ybus Sbus_base Sxfr pvpq pvpq_lookup step_min step_max
                  error_tol tol max_it stop_at controlQ Qmax_bus Qmin_bus
                  bus_types has_call_back fuel st0 Ht0 Hl0) as Ht.
    revert Hp Ht.
    match goal with
    | |- _ -> _ -> match ?o with _ => _ end =>
        destruct o as [st|e|e st|st]; intros Hp Ht
    end.
    + destruct Hp as (n & Hn & Hp & Hc). destruct Ht as [_ Hf].
      split; [|exact Hf].
      pose proof (passes_appended Hp) as (A1 & A2 & A3).
      exists n. simpl in A1, A2, A3.
      assert (n <> 0)%nat.
      { intros ->. inversion Hp. subst. discriminate. }
      repeat split; solve [assumption | lia].
    + exact Hp.
    + destruct Hp as (n & st1 & Hn & Hp & Hc & Hb).
      pose proof (passes_appended Hp) as (A1 & A2 & A3).
      simpl in A1, A2, A3.
      pose proof (loop_body_trace create_J spsolve control_q_direct
                    compile_types Ybus Sbus_base Sxfr pvpq pvpq_lookup
                    step_min step_max error_tol tol max_it stop_at controlQ
                    Qmax_bus Qmin_bus bus_types has_call_back st1) as Hs.
      rewrite Hb in Hs.
      exists n, st1. split; [exact Hn|]. split; [exact Hp|].
      split; [exact Hb|]. split; [lia|]. split; [exact Ht|].
      destruct Hs as (_ & [[Hv _] | (V' & lam & Hv & _)]);
        rewrite Hv, ?length_app; simpl; lia.
    + destruct Hp as (Hp & _).
      pose proof (passes_appended Hp) as (A1 & A2 & A3).
      simpl in A1, A2, A3. repeat split; solve [assumption | lia].
Qed.
End Trajectory.

(** C1 (what the code does). The bus power vector that the driver re-derives
    after reactive-limit control is never read again: from any state of the
    loop, the rest of the run (every later predictor and corrector call, the
    trajectory and the returned values) is the same whatever that vector is.
    The corrector is always called with [Sbus_base]. *)
Theorem rederived_Sbus_never_read (Ybus : spmatrix) (Sbus_base Sxfr : list C)
  (pvpq pvpq_lookup : list nat) (step_min step_max error_tol tol : R)
  (max_it : nat) (stop_at : stop_arg) (controlQ : ReactivePowerControlMode)
  (Qmax_bus Qmin_bus : list R) (original_bus_types : list Z)
  (has_call_back : bool) (fuel : nat) (st : dstate)
  (Sbus1 Sbus2 : option (list C)) :
  forget_Sbus_outcome
    (continuation_loop create_J spsolve control_q_direct compile_types Ybus
       Sbus_base Sxfr pvpq pvpq_lookup step_min step_max error_tol tol max_it
       stop_at controlQ Qmax_bus Qmin_bus original_bus_types has_call_back
       fuel (set_Sbus Sbus1 st))
  =
  forget_Sbus_outcome
    (continuation_loop create_J spsolve control_q_direct compile_types Ybus
       Sbus_base Sxfr pvpq pvpq_lookup step_min step_max error_tol tol max_it
       stop_at controlQ Qmax_bus Qmin_bus original_bus_types has_call_back
       fuel (set_Sbus Sbus2 st)).
Proof.
  rewrite !loop_forgets_Sbus. reflexivity.
Qed.


(** C2 (as amended). With a stop point that is neither [Nose] nor [Full]
    the driver does not reject the call at entry: it runs the first predictor
    and corrector step and stores its point.  If that corrector step
    converged, the exception is raised inside this first pass of the loop;
    if it did not converge, the driver returns normally. *)
Theorem unknown_stop_point_first_pass (fuel : nat) (Ybus : spmatrix)
  (Sbus_base Sbus_target V : list C) (pv pq : list nat) (step : R)
  (approximation_order : param_arg) (adapt_step : bool)
  (step_min step_max error_tol tol : R) (max_it : nat) (v : pyobj)
  (controlQ : ReactivePowerControlMode) (Qmax_bus Qmin_bus : list R)
  (original_bus_types : option (list Z)) (has_call_back : bool)
  (Sxfr : list C) (pvpq pvpq_lookup : list nat) (bus_types : list Z)
  (z z' : list R) (V0 V1 Scalc : list C) (lam0 lam1 normF : R)
  (success : bool) (i : nat) :
  continuation_init Ybus Sbus_base Sbus_target pv pq original_bus_types
  = Ok (Sxfr, pvpq, bus_types, z, pvpq_lookup) ->
  predictor create_J spsolve V 0 Ybus Sxfr pv pq step z V 0
    approximation_order pvpq_lookup
  = Ok (V0, lam0, z') ->
  corrector create_J spsolve Ybus Sbus_base pv pq Sxfr V 0 z' step
    approximation_order tol pvpq_lookup V0 lam0 max_it
  = Ok (V1, success, i, lam1, normF, Scalc) ->
  first_pass_end
    (continuation_nr create_J spsolve control_q_direct compile_types (S fuel)
       Ybus Sbus_base Sbus_target V pv pq step approximation_order
       adapt_step step_min step_max error_tol tol max_it (StopOther v)
       controlQ Qmax_bus Qmin_bus original_bus_types has_call_back)
    v controlQ V1 success lam1.
Proof.
  intros Hinit Hpred Hcorr.
  unfold continuation_nr. rewrite Hinit. simpl continuation_loop.
  unfold loop_body, attempt. norm_state. rewrite Hpred. norm_state.
  rewrite Hcorr. norm_state.
  unfold first_pass_end. destruct success.
  - unfold check_controls. norm_state.
    destruct (match controlQ with Direct => _ | NoControl => _ end)
      as [[[V2 Qnew] types_new] issue] eqn:Ectl.
    destruct issue; norm_state.
    + destruct (elementwise _ _ _) as [Sbus'|] eqn:Eel; simpl.
      * destruct (compile_types Sbus' types_new) as [[[vd pq'] pv'] pqpv].
        simpl. eexists.
        refine (conj _ (conj _ (conj _ (conj _ _)))); cycle 4.
        { exists (stop_exception v).
          split; [reflexivity | left; reflexivity]. }
        all: reflexivity.
      * eexists.
        refine (conj _ (conj _ (conj _ (conj _ _)))); cycle 4.
        { exists e. split; [reflexivity|].
          right. apply elementwise_raise in Eel. split; [|exact Eel].
          destruct controlQ; [|reflexivity]. inversion Ectl. }
        all: reflexivity.
    + simpl. eexists.
      refine (conj _ (conj _ (conj _ (conj _ _)))); cycle 4.
      { exists (stop_exception v).
        split; [reflexivity | left; reflexivity]. }
      all: reflexivity.
  - destruct fuel; simpl; eexists;
      (refine (conj _ (conj _ (conj _ (conj _ _)))); cycle 4;
       [reflexivity | reflexivity ..]).
Qed.
End DriverClaims.

(** ** The corrector *)

Section CorrectorClaims.
Variable create_J :
  spmatrix -> list C -> list nat -> list nat -> list nat -> nat -> nat ->
  matrix.
Variable spsolve : matrix -> list R -> list R.
Variable Ybus : spmatrix.
Variable Sbus : list C.
Variable pq : list nat.
Variable Sxfr : list C.
Variable Vprv : list C.
Variable lamprv : R.
Variable z : list R.
Variable step : R.
Variable parametrization : param_arg.
Variable tol : R.
Variable pvpq_lookup : list nat.

(** C5 (as amended). Calling the corrector again on its own converged
    output converges at once: the residual evaluated before the loop is
    already below the tolerance, no Newton iteration is made (the returned
    iteration count is 0) and the same point, residual norm and injections
    are returned. *)
Theorem corrector_on_converged_output (pv : list nat) (V0 V : list C)
  (lam0 lam normF : R) (Scalc : list C) (i max_it max_it' : nat) :
  corrector create_J spsolve Ybus Sbus pv pq Sxfr Vprv lamprv z step
    parametrization tol pvpq_lookup V0 lam0 max_it
  = Ok (V, true, i, lam, normF, Scalc) ->
  corrector create_J spsolve Ybus Sbus pv pq Sxfr Vprv lamprv z step
    parametrization tol pvpq_lookup V lam max_it'
  = Ok (V, true, 0%nat, lam, normF, Scalc).
Proof.
  unfold corrector. intros H.
  destruct (corrector_init _ _ _ _ _ _ _ _ _ _ _ V0 lam0) as [s0|] eqn:E0;
    [|discriminate]. simpl in H.
  destruct (newton_loop _ _ _ _ _ _ _ _ _ _ _ _ _ _ max_it s0) as [s|] eqn:El;
    [|discriminate]. simpl in H. inversion H. subst. clear H.
  learn corrector_init_settled E0 as Hs0.
  learn newton_loop_settled El as Hs; [|exact Hs0].
  unfold settled in Hs. rewrite Hs. simpl.
  rewrite newton_loop_converged by (simpl; assumption).
  simpl. reflexivity.
Qed.

Lemma newton_update_no_pv (s : cstate) (Va Vm : list R) (lam : R) :
  newton_update create_J spsolve Ybus [] pq Sxfr Vprv lamprv z
    parametrization pvpq_lookup s = Ok (Va, Vm, lam) ->
  Va = c_Va s /\ length Vm = length (c_Vm s).
Proof.
  unfold newton_update. simpl. intros H.
  destruct (take_idx Sxfr pq) as [S_pq|]; [|discriminate]. simpl in H.
  destruct (cpf_p_jac _ _ _ _ _ _ _ _ _) as [[dP_dV dP_dlam]|];
    [|discriminate]. simpl in H.
  destruct (0 <? length pq)%nat.
  - destruct (take_idx (c_Vm s) pq) as [g|]; [|discriminate]. simpl in H.
    destruct (elementwise Rplus g _) as [g'|]; [|discriminate]. simpl in H.
    destruct (put_idx (c_Vm s) pq g') as [Vm'|] eqn:Ep; [|discriminate].
    simpl in H. destruct (getitem _ _); [|discriminate]. simpl in H.
    inversion H. subst. split; [reflexivity|].
    eapply put_idx_length; eassumption.
  - simpl in H. destruct (getitem _ _); [|discriminate]. simpl in H.
    inversion H. subst. split; reflexivity.
Qed.

(** C10 (as amended). With an empty [pv] the Newton step never touches the
    angle array: the angle components of [dx] are dropped, and the voltage
    is rebuilt from the updated magnitudes and the old angles.  Hence the
    returned voltages have the angles of the initial guess, as long as every
    updated magnitude is strictly positive. *)
Theorem corrector_without_pv_keeps_angles (V0 V : list C)
  (lam0 lam normF : R) (Scalc : list C) (converged : bool) (i max_it : nat)
  (s0 : cstate) :
  corrector_init Ybus Sbus [] pq Sxfr Vprv lamprv z step parametrization tol
    V0 lam0 = Ok s0 ->
  corrector create_J spsolve Ybus Sbus [] pq Sxfr Vprv lamprv z step
    parametrization tol pvpq_lookup V0 lam0 max_it
  = Ok (V, converged, i, lam, normF, Scalc) ->
  (forall n sn Va Vm lam',
     (n < i)%nat ->
     newton_iter create_J spsolve Ybus Sbus [] pq Sxfr Vprv lamprv z step
       parametrization tol pvpq_lookup n s0 = Ok sn ->
     newton_update create_J spsolve Ybus [] pq Sxfr Vprv lamprv z
       parametrization pvpq_lookup sn = Ok (Va, Vm, lam') ->
     Forall (fun m => 0 < m) Vm) ->
  map angle V = map angle V0.
Proof.
  intros E0 H Hpos. unfold corrector in H. rewrite E0 in H. simpl in H.
  destruct (newton_loop _ _ _ _ _ _ _ _ _ _ _ _ _ _ max_it s0) as [s|] eqn:El;
    [|discriminate]. simpl in H. inversion H. subst. clear H.
  learn corrector_init_polar_form E0 as Hpf0. destruct Hpf0 as [Hpf HV0].
  learn newton_loop_iter El as Hit0. destruct Hit0 as (n & Hi & _ & Hit).
  learn corrector_init_fields E0 as Hf0. destruct Hf0 as (_ & _ & Ei).
  rewrite Ei in Hi. simpl in Hi. subst n.
  assert (G : forall k sk,
            (k <= c_i s)%nat ->
            newton_iter create_J spsolve Ybus Sbus [] pq Sxfr Vprv lamprv z
              step parametrization tol pvpq_lookup k s0 = Ok sk ->
            polar_form sk /\ map angle (c_V sk) = map angle V0).
  { induction k as [|k IH]; intros sk Hk Hsk.
    - simpl in Hsk. inversion Hsk. subst sk. split; [exact Hpf|].
      rewrite HV0. reflexivity.
    - learn newton_iter_snoc Hsk as Hsn. destruct Hsn as (sn & Hn & Hs).
      destruct (IH sn ltac:(lia) Hn) as [[HVa HVm] Hang].
      learn newton_step_inv Hs as Hinv.
      destruct Hinv as (Va & Vm & lam' & V' & Hu & Hv & HV' & _ & Hpf').
      split; [exact Hpf'|].
      pose proof (Hpos k sn Va Vm lam' ltac:(lia) Hn Hu) as Hm.
      destruct (newton_update_no_pv _ _ _ _ Hu) as [-> HlenVm].
      assert (Hlen : length Vm = length (c_Va sn)).
      { rewrite HlenVm, HVa, HVm, !length_map. reflexivity. }
      rewrite (elementwise_same polar _ _ Hlen) in Hv.
      injection Hv as Hv. rewrite HV', <- Hv.
      rewrite map_angle_polar; auto.
      + rewrite HVa. exact Hang.
      + rewrite HVa. apply Forall_angle_bounds. }
  apply (G (c_i s) s (le_n _) Hit).
Qed.
End CorrectorClaims.

(** ** The predictor *)

Lemma unit_rhs_length (npv npq : nat) :
  length (unit_rhs npv npq) = (npv + 2 * npq + 1)%nat.
Proof. unfold unit_rhs. rewrite upd_length, repeat_length. reflexivity. Qed.

Lemma unit_rhs_last (npv npq : nat) :
  nth (npv + 2 * npq) (unit_rhs npv npq) 0 = 1.
Proof.
  unfold unit_rhs. rewrite nth_upd, Nat.eqb_refl, repeat_length.
  destruct (Nat.ltb_spec (npv + 2 * npq) (npv + 2 * npq + 1));
    [reflexivity | lia].
Qed.

Lemma solution_not_zero (A : matrix) (x : list R) (npv npq : nat) :
  solves A x (unit_rhs npv npq) ->
  exists j, (j < length x)%nat /\ nth j x 0 <> 0.
Proof.
  intros [Hlen Hmv]. apply not_all_zero. intros HF.
  pose proof (mat_vec_zero A HF) as HZ. rewrite Hmv in HZ.
  rewrite Forall_forall in HZ.
  assert (Hin : In (nth (npv + 2 * npq) (unit_rhs npv npq) 0)
                  (unit_rhs npv npq)).
  { apply nth_In. rewrite unit_rhs_length. lia. }
  apply HZ in Hin. rewrite unit_rhs_last in Hin. lra.
Qed.

Lemma shift_in (nb k : nat) (pq : list nat) :
  In k (shift nb pq) -> exists i, In i pq /\ k = (nb + i)%nat.
Proof.
  unfold shift. rewrite in_map_iff. intros (i & <- & Hi). eauto.
Qed.

(** the slots of [z] that the predictor writes are distinct and in range *)
Lemma tangent_slots (nb : nat) (pv pq : list nat) (z : list R) :
  length z = (2 * nb + 1)%nat ->
  Forall (fun i => (i < nb)%nat) (pv ++ pq) ->
  NoDup (pv ++ pq) ->
  NoDup ((pv ++ pq) ++ shift nb pq ++ [(2 * nb)%nat]) /\
  Forall (fun i => (i < length z)%nat)
    ((pv ++ pq) ++ shift nb pq ++ [(2 * nb)%nat]).
Proof.
  intros Hz Hr Hnd.
  assert (Hpq : Forall (fun i => (i < nb)%nat) pq).
  { apply Forall_app in Hr. tauto. }
  assert (Hndpq : NoDup pq) by (apply NoDup_app_remove_l in Hnd; exact Hnd).
  rewrite Forall_forall in Hr, Hpq.
  split.
  - apply NoDup_app; [exact Hnd | | ].
    + apply NoDup_app.
      * unfold shift. apply Finite.Injective_map_NoDup; [|exact Hndpq].
        intros a b. lia.
      * repeat constructor. simpl. tauto.
      * intros k Hk [<-|[]]. destruct (shift_in _ _ _ Hk) as (i & Hi & E).
        apply Hpq in Hi. lia.
    + intros k Hk Hk'. apply Hr in Hk. apply in_app_or in Hk'.
      destruct Hk' as [Hk'|[<-|[]]]; [|lia].
      destruct (shift_in _ _ _ Hk') as (i & Hi & E). lia.
  - rewrite Forall_forall. intros k Hk. rewrite Hz.
    apply in_app_or in Hk. destruct Hk as [Hk|Hk]; [apply Hr in Hk; lia|].
    apply in_app_or in Hk. destruct Hk as [Hk|[<-|[]]]; [|lia].
    destruct (shift_in _ _ _ Hk) as (i & Hi & E). apply Hpq in Hi. lia.
Qed.

(** the tangent [z] after the solve and the normalisation *)
Lemma tangent_unit (z x : list R) (nb npv : nat) (pv pq : list nat) :
  length z = (2 * nb + 1)%nat ->
  Forall (fun i => (i < nb)%nat) (pv ++ pq) ->
  NoDup (pv ++ pq) ->
  length x = (length (pv ++ pq) + length pq + 1)%nat ->
  (exists j, (j < length x)%nat /\ nth j x 0 <> 0) ->
  exists z',
    tangent z nb pq (pv ++ pq) x = Ok z' /\
    norm2 z' = 1 /\ length z' = (2 * nb + 1)%nat.
Proof.
  intros Hz Hr Hnd Hx (j & Hj & Hxj).
  destruct (tangent_slots nb pv pq z Hz Hr Hnd) as [Hnd' Hr'].
  set (idx := (pv ++ pq) ++ shift nb pq ++ [(2 * nb)%nat]) in *.
  assert (Hlen : length x = length idx).
  { unfold idx, shift. rewrite !length_app, length_map. simpl.
    rewrite Hx, length_app. lia. }
  destruct (@put_seq_nodup _ idx x z Hnd' Hr' Hlen) as (z1 & Hp & Hl & Hn).
  unfold tangent, put_idx. fold idx.
  rewrite (@broadcast_to_same _ _ x Hlen). simpl. rewrite Hp. simpl.
  assert (Hin : In (nth j x 0) z1).
  { rewrite <- (Hn j 0) by lia. apply nth_In. rewrite Hl.
    rewrite Forall_forall in Hr'. apply Hr'. apply nth_In. lia. }
  pose proof (@norm2_pos _ _ Hin Hxj) as Hpos.
  eexists. split; [reflexivity|]. split.
  - apply norm2_normalized. exact Hpos.
  - rewrite length_map. lia.
Qed.

(** the value written by [v[idx] = v[idx] + step * w[idx']], slot by slot *)
Lemma advance_slots (v : list R) (idx : list nat) (f : nat -> R) :
  Forall (fun i => (i < length v)%nat) idx ->
  exists v',
    put_idx v idx
      (map2 Rplus (map (fun i => nth i v 0) idx) (map f idx)) = Ok v' /\
    length v' = length v /\
    forall k,
      nth k v' 0 =
      nth k v 0 + (if in_dec Nat.eq_dec k idx then f k else 0).
Proof.
  intros Hr. rewrite map2_map_map.
  destruct (@put_seq_map _ (fun i => nth i v 0 + f i) idx v Hr)
    as (v' & Hp & Hl & Hn).
  exists v'. unfold put_idx.
  rewrite broadcast_to_same by apply length_map. simpl.
  split; [exact Hp|]. split; [exact Hl|].
  intros k. rewrite Hn. destruct (in_dec Nat.eq_dec k idx); lra.
Qed.

Section PredictorClaims.
Variable create_J :
  spmatrix -> list C -> list nat -> list nat -> list nat -> nat -> nat ->
  matrix.
Variable spsolve : matrix -> list R -> list R.


(** C7. When the index sets are a partition in range and the linear solve
    returns a solution of [J2 x = s], the predictor returns a tangent [z] of
    Euclidean norm 1 and the point advanced by [step] along [z]: angles at
    pvpq, magnitudes at pq, and [lam0 = lam + step * z[2 nb]]. *)
Theorem predictor_unit_tangent (V : list C) (lam : R) (Ybus : spmatrix)
  (Sxfr : list C) (pv pq : list nat) (step : R) (z : list R)
  (Vprv : list C) (lamprv : R) (parametrization : param_arg)
  (pvpq_lookup : list nat) (J2 : matrix) :
  length z = (2 * length V + 1)%nat ->
  in_range V (pv ++ pq) ->
  NoDup (pv ++ pq) ->
  tangent_system create_J V lam Ybus Sxfr pv pq z Vprv lamprv
    parametrization pvpq_lookup = Ok J2 ->
  solves J2 (spsolve J2 (unit_rhs (length pv) (length pq)))
    (unit_rhs (length pv) (length pq)) ->
  exists V0 lam0 z',
    predictor create_J spsolve V lam Ybus Sxfr pv pq step z Vprv lamprv
      parametrization pvpq_lookup = Ok (V0, lam0, z') /\
    norm2 z' = 1 /\
    lam0 = lam + step * nth (2 * length V) z' 0 /\
    advanced V V0 pv pq step z'.
Proof.
  intros Hz Hr Hnd HJ Hsol.
  set (nb := length V) in *.
  assert (Hpq : in_range V pq).
  { unfold in_range in *. apply Forall_app in Hr. tauto. }
  destruct (solution_not_zero _ _ _ _ Hsol) as (j & Hj & Hxj).
  assert (Hx : length (spsolve J2 (unit_rhs (length pv) (length pq)))
               = (length (pv ++ pq) + length pq + 1)%nat).
  { destruct Hsol as [-> _]. rewrite unit_rhs_length, length_app. lia. }
  destruct (tangent_unit z _ nb (length pv) pv pq Hz Hr Hnd Hx
              (ex_intro _ j (conj Hj Hxj))) as (z' & Ht & Hn & Hl).
  unfold predictor. fold nb. rewrite HJ. simpl bind. rewrite Ht. simpl bind.
  (* angles *)
  rewrite (take_angle _ _ Hr). simpl bind.
  rewrite (@take_idx_ok _ z' (pv ++ pq) 0).
  2:{ unfold in_range in Hr. rewrite Forall_forall in *. intros i Hi.
      apply Hr in Hi. fold nb in Hi. lia. }
  simpl bind.
  rewrite elementwise_same by (rewrite !length_map; reflexivity).
  simpl bind. rewrite map_map.
  assert (Ea : map (fun i => angle (nth i V (0, 0))) (pv ++ pq)
               = map (fun i => nth i (map angle V) 0) (pv ++ pq)).
  { apply map_ext_in. intros i Hi. unfold in_range in Hr.
    rewrite Forall_forall in Hr. apply Hr in Hi.
    rewrite (nth_indep _ 0 (angle (0, 0))) by (rewrite length_map; exact Hi).
    rewrite map_nth. reflexivity. }
  rewrite Ea.
  destruct (advance_slots (map angle V) (pv ++ pq)
              (fun i => step * nth i z' 0)) as (Va0 & Hpa & Hla & Hna).
  { rewrite length_map. exact Hr. }
  rewrite Hpa. simpl bind.
  (* magnitudes *)
  rewrite (take_Cabs _ _ Hpq). simpl bind.
  rewrite (@take_idx_ok _ z' (shift nb pq) 0).
  2:{ unfold in_range in Hpq. rewrite Forall_forall in *. intros i Hi.
      destruct (shift_in _ _ _ Hi) as (i' & Hi' & ->).
      apply Hpq in Hi'. fold nb in Hi'. lia. }
  simpl bind.
  rewrite elementwise_same
    by (unfold shift; rewrite !length_map; reflexivity).
  simpl bind. unfold shift. rewrite !map_map.
  assert (Em : map (fun i => Cabs (nth i V (0, 0))) pq
               = map (fun i => nth i (map Cabs V) 0) pq).
  { apply map_ext_in. intros i Hi. unfold in_range in Hpq.
    rewrite Forall_forall in Hpq. apply Hpq in Hi.
    rewrite (nth_indep _ 0 (Cabs (0, 0))) by (rewrite length_map; exact Hi).
    rewrite map_nth. reflexivity. }
  rewrite Em.
  destruct (advance_slots (map Cabs V) pq
              (fun i => step * nth (nb + i) z' 0)) as (Vm0 & Hpm & Hlm & Hnm).
  { rewrite length_map. exact Hpq. }
  rewrite Hpm. simpl bind.
  change (nb + (nb + 0))%nat with (2 * nb)%nat.
  rewrite (@getitem_ok _ z' (2 * nb) 0) by lia. simpl bind.
  rewrite elementwise_same by (rewrite Hla, Hlm, !length_map; reflexivity).
  simpl bind.
  eexists _, _, z'. split; [reflexivity|]. split; [exact Hn|].
  split; [reflexivity|].
  unfold advanced. fold nb. split.
  - rewrite map2_length, Hla, Hlm, !length_map. apply Nat.min_id.
  - intros k Hk.
    rewrite (@nth_map2 _ _ _ polar Vm0 Va0 k 0 0 (0, 0))
      by (rewrite ?Hla, ?Hlm, length_map; exact Hk).
    rewrite Hna, Hnm.
    rewrite (nth_indep (map angle V) 0 (angle (0, 0)))
      by (rewrite length_map; exact Hk).
    rewrite (nth_indep (map Cabs V) 0 (Cabs (0, 0)))
      by (rewrite length_map; exact Hk).
    rewrite !map_nth. reflexivity.
Qed.
End PredictorClaims.

(** ** The claims on the two-bus network *)

(** the run ends in its first pass: with a tolerance above the first
    residual norm (1/50) the corrector succeeds and the stop point is looked
    at; with no Newton iteration allowed and a smaller tolerance the
    corrector fails *)
Lemma ex_run_eval (tol : R) (max_it : nat) :
  (max_it = 0%nat \/ 1 / 50 < tol) ->
  ex_run tol max_it
  = if Rltb (1 / 50) tol
    then RaisedInLoop (Exception_ "Stop point Nose not recognised.")
           (ex_first_pass true true)
    else Returned (ex_first_pass false false).
Proof.
  intros H. unfold ex_run, continuation_nr.
  rewrite ex_continuation_init. cbn [continuation_loop].
  unfold loop_body, attempt. norm_state.
  rewrite ex_predictor. norm_state.
  rewrite ex_corrector_predicted by exact H. norm_state.
  destruct (Rltb (1 / 50) tol); reflexivity.
Qed.

(** C2, as stated, fails: the call is not rejected at entry.  With a
    converging first step the exception is raised inside the loop, after one
    continuation step has been made and stored; with a first step that does
    not converge no exception is raised at all. *)
Lemma unknown_stop_point_not_rejected_at_entry :
  ex_run (1 / 20) 20
  = RaisedInLoop (Exception_ "Stop point Nose not recognised.")
      (ex_first_pass true true) /\
  d_cont_steps (ex_first_pass true true) = 1%nat /\
  d_voltage_series (ex_first_pass true true) = [ex_V0] /\
  ex_run (1 / 1000000) 0 = Returned (ex_first_pass false false) /\
  (forall e, ex_run (1 / 20) 20 <> RaisedAtEntry e) /\
  (forall e, ex_run (1 / 1000000) 0 <> RaisedAtEntry e).
Proof.
  assert (E1 : ex_run (1 / 20) 20
               = RaisedInLoop (Exception_ "Stop point Nose not recognised.")
                   (ex_first_pass true true)).
  { rewrite ex_run_eval by (right; lra). rewrite Rltb_true by lra.
    reflexivity. }
  assert (E2 : ex_run (1 / 1000000) 0 = Returned (ex_first_pass false false)).
  { rewrite ex_run_eval by (left; reflexivity). rewrite Rltb_false by lra.
    reflexivity. }
  repeat split; try assumption.
  - intros e. rewrite E1. discriminate.
  - intros e. rewrite E2. discriminate.
Qed.

Lemma unknown_stop_point_first_pass_witness :
  first_pass_end (ex_run (1 / 20) 20) (PyStr "Nose") NoControl ex_V0
    (Rltb (1 / 50) (1 / 20)) (2 / 25).
Proof.
  unfold ex_run.
  apply (unknown_stop_point_first_pass ex_create_J back_subst ex_control_q
           ex_compile_types 0 ex_Ybus ex_Sbus ex_Starget ex_V ex_pv ex_pq
           (1 / 10) (Param Natural) false (1 / 1000) (1 / 5) (1 / 1000)
           (1 / 20) 20 (PyStr "Nose") NoControl [] [] (Some [3%Z; 1%Z])
           false ex_Sxfr [1%nat] [0%nat; 0%nat] [3%Z; 1%Z] ex_z ex_z1 ex_V0
           ex_V0 [(0, 1 - 47 / 50); (0, 47 / 50 * (47 / 50) - 47 / 50)]
           (2 / 25) (2 / 25) (1 / 50) (Rltb (1 / 50) (1 / 20)) 0).
  - apply ex_continuation_init.
  - apply ex_predictor.
  - apply ex_corrector_predicted. right. lra.
Defined.

(** Two runs in which reactive-limit control reclassifies bus 1.  The first
    is at the head of its loop after two converged passes.  The second is
    allowed three passes and returns after two: its first pass converges and
    the corrector of its second pass does not. *)
Lemma trajectory_lengths_witness :
  appended_one ex_limits_start ex_limits_pass1 /\
  appended_one ex_limits_pass1 ex_stalled /\
  (passes
     (loop_body ex_create_J back_subst ex_limit_control ex_partition ex_Ybus
        ex_Sbus ex_Sxfr [1%nat] [0%nat; 0%nat] (1 / 1000) (1 / 5) (1 / 1000)
        (1 / 10) 20 (StopAt Nose) Direct [9; - (1 / 10)] [- 9; - 1]
        [3%Z; 2%Z] false) 2 ex_limits_start ex_limits_pass2 /\
   d_cont_steps ex_limits_pass2 = 2%nat /\
   length (d_voltage_series ex_limits_pass2) = 2%nat /\
   length (d_lambda_series ex_limits_pass2) = 2%nat) /\
  (exists n,
     (1 <= n <= 3)%nat /\
     passes
       (loop_body ex_create_J back_subst ex_limit_control ex_partition
          ex_Ybus ex_Sbus ex_Sxfr [1%nat] [0%nat; 0%nat] (1 / 1000) (1 / 5)
          (1 / 1000) (1 / 20) 0 (StopAt Nose) Direct [9; - (1 / 10)]
          [- 9; - 1] [3%Z; 2%Z] false) n ex_limits_start ex_stalled /\
     d_cont_steps ex_stalled = n /\
     length (d_voltage_series ex_stalled) = n /\
     length (d_lambda_series ex_stalled) = n) /\
  failed_last ex_stalled.
Proof.
  pose proof (trajectory_lengths ex_create_J back_subst ex_limit_control
                ex_partition ex_Ybus ex_Sbus ex_Starget ex_V [1%nat] []
                (1 / 10) (Param Natural) false (1 / 1000) (1 / 5) (1 / 1000)
                (1 / 10) 20 (StopAt Nose) Direct [9; - (1 / 10)] [- 9; - 1]
                (Some [3%Z; 2%Z]) false ex_Sxfr [1%nat] [3%Z; 2%Z] ex_z
                [0%nat; 0%nat] 2 ex_continuation_init_pv) as [Hpass Hrun].
  pose proof (trajectory_lengths ex_create_J back_subst ex_limit_control
                ex_partition ex_Ybus ex_Sbus ex_Starget ex_V [1%nat] []
                (1 / 10) (Param Natural) false (1 / 1000) (1 / 5) (1 / 1000)
                (1 / 20) 0 (StopAt Nose) Direct [9; - (1 / 10)] [- 9; - 1]
                (Some [3%Z; 2%Z]) false ex_Sxfr [1%nat] [3%Z; 2%Z] ex_z
                [0%nat; 0%nat] 3 ex_continuation_init_pv) as [Hpass' Hrun'].
  fold (ex_run_limits 2) in Hrun. rewrite ex_run_limits_eval in Hrun.
  fold (ex_run_stalls 3) in Hrun'. rewrite (ex_run_stalls_eval 1) in Hrun'.
  split; [exact (Hpass _ _ ex_limits_first_pass)|].
  split; [exact (Hpass' _ _ ex_stalls_second_pass)|].
  split; [exact Hrun|]. exact Hrun'.
Defined.

(** C5, as stated, fails: the second call reports 0 iterations, not 1.  The
    first call below needs one Newton iteration; called again on its output,
    the corrector returns the same point with iteration count 0. *)
Lemma corrector_again_reports_no_iteration :
  corrector ex_create_J back_subst ex_Ybus ex_Sbus ex_pv ex_pq ex_Sxfr ex_V
    0 ex_z (1 / 10) (Param Natural) (1 / 20) [0%nat; 0%nat] ex_V (1 / 10) 20
  = Ok ([(1, 0); (1 - 3 / 4 * (1 / 10), 0)], true, 1%nat, 1 / 10, 9 / 1600,
        c_Scalc (ex_s1 (1 / 10) (1 / 20)))
  /\
  corrector ex_create_J back_subst ex_Ybus ex_Sbus ex_pv ex_pq ex_Sxfr ex_V
    0 ex_z (1 / 10) (Param Natural) (1 / 20) [0%nat; 0%nat]
    [(1, 0); (1 - 3 / 4 * (1 / 10), 0)] (1 / 10) 20
  = Ok ([(1, 0); (1 - 3 / 4 * (1 / 10), 0)], true, 0%nat, 1 / 10, 9 / 1600,
        c_Scalc (ex_s1 (1 / 10) (1 / 20))).
Proof.
  split.
  - apply (ex_corrector 19).
  - unfold corrector. rewrite ex_corrector_init by lra. cbn [bind].
    rewrite ex_norm_F1.
    rewrite newton_loop_converged
      by (cbn [c_converged]; apply Rltb_true; lra).
    cbn [bind c_V c_converged c_i c_lam c_normF c_Scalc].
    rewrite Rltb_true by lra. reflexivity.
Qed.

Lemma corrector_on_converged_output_witness :
  corrector ex_create_J back_subst ex_Ybus ex_Sbus ex_pv ex_pq ex_Sxfr ex_V
    0 ex_z (1 / 10) (Param Natural) (1 / 20) [0%nat; 0%nat]
    [(1, 0); (1 - 3 / 4 * (1 / 10), 0)] (1 / 10) 20
  = Ok ([(1, 0); (1 - 3 / 4 * (1 / 10), 0)], true, 0%nat, 1 / 10, 9 / 1600,
        c_Scalc (ex_s1 (1 / 10) (1 / 20))).
Proof.
  apply (corrector_on_converged_output ex_create_J back_subst ex_Ybus
           ex_Sbus ex_pq ex_Sxfr ex_V 0 ex_z (1 / 10) (Param Natural)
           (1 / 20) [0%nat; 0%nat] ex_pv ex_V
           [(1, 0); (1 - 3 / 4 * (1 / 10), 0)] (1 / 10) (1 / 10) (9 / 1600)
           (c_Scalc (ex_s1 (1 / 10) (1 / 20))) 1 20 20).
  apply (ex_corrector 19).
Defined.

(** C10, as stated, fails: when the Newton step makes a magnitude negative,
    rebuilding the voltage flips its angle by pi.  Here bus 1 starts at
    [1] (angle 0) and is returned at [-1/2] (angle pi; numpy gives -pi when
    the imaginary part is a negative zero). *)
Lemma corrector_without_pv_flips_angle :
  exists V converged i lam normF Scalc,
    corrector ex_create_J back_subst ex_Ybus ex_Sbus [] [1%nat] ex_Sxfr ex_V
      0 ex_z 2 (Param Natural) (1 / 20) [0%nat; 0%nat] ex_V 2 1
    = Ok (V, converged, i, lam, normF, Scalc) /\
    angle (nth 1 ex_V (0, 0)) = 0 /\
    angle (nth 1 V (0, 0)) = PI /\
    map angle V <> map angle ex_V.
Proof.
  do 6 eexists. split; [apply ex_corrector_far|].
  assert (E0 : angle (nth 1 ex_V (0, 0)) = 0).
  { simpl. apply angle_real_pos; lra. }
  assert (E1 : angle (nth 1 (c_V (ex_s1 2 (1 / 20))) (0, 0)) = PI).
  { simpl. apply angle_real_neg; lra. }
  split; [exact E0 | split; [exact E1|]].
  intros H. apply (f_equal (fun l => nth 1 l 0)) in H.
  simpl in H. simpl in E0, E1. rewrite E0, E1 in H.
  pose proof PI_RGT_0. lra.
Qed.

Lemma corrector_without_pv_keeps_angles_witness :
  map angle [(1, 0); (1 - 3 / 4 * (1 / 10), 0)] = map angle ex_V.
Proof.
  apply (corrector_without_pv_keeps_angles ex_create_J back_subst ex_Ybus
           ex_Sbus ex_pq ex_Sxfr ex_V 0 ex_z (1 / 10) (Param Natural)
           (1 / 20) [0%nat; 0%nat] ex_V
           [(1, 0); (1 - 3 / 4 * (1 / 10), 0)] (1 / 10) (1 / 10) (9 / 1600)
           (c_Scalc (ex_s1 (1 / 10) (1 / 20))) true 1 1
           (ex_s0 (1 / 10) (1 / 10) (1 / 20))).
  - apply ex_corrector_init_flat. lra.
  - apply (ex_corrector 0).
  - intros n sn Va Vm lam' Hn Hit Hu.
    assert (n = 0%nat) by lia. subst n. simpl in Hit.
    injection Hit as <-.
    assert (Hx := @ex_newton_update (1 / 10) (1 / 10) (1 / 20)
                    [0%nat; 0%nat] ltac:(lra)).
    unfold ex_pv in Hx. rewrite Hx in Hu.
    injection Hu as _ <- _.
    repeat constructor; lra.
Defined.

Lemma predictor_unit_tangent_witness :
  exists V0 lam0 z',
    predictor ex_create_J back_subst ex_V 0 ex_Ybus ex_Sxfr ex_pv ex_pq
      (1 / 10) ex_z ex_V 0 (Param Natural) [0%nat; 0%nat]
    = Ok (V0, lam0, z') /\
    norm2 z' = 1 /\
    lam0 = 0 + 1 / 10 * nth (2 * length ex_V) z' 0 /\
    advanced ex_V V0 ex_pv ex_pq (1 / 10) z'.
Proof.
  apply (predictor_unit_tangent ex_create_J back_subst ex_V 0 ex_Ybus
           ex_Sxfr ex_pv ex_pq (1 / 10) ex_z ex_V 0 (Param Natural)
           [0%nat; 0%nat] ex_J2).
  - reflexivity.
  - repeat constructor.
  - repeat constructor. simpl. tauto.
  - apply ex_tangent_system. lra.
  - change (unit_rhs (length ex_pv) (length ex_pq)) with [0; 0; 1].
    rewrite ex_tangent_solve. apply ex_tangent_solves.
Defined.

(** C1, on a run.  Reactive-limit control turns bus 1 into a PQ bus held at
    a reactive power of [-1/10] after the first pass, and the driver
    re-derives the partition and the bus power vector [ex_Sbus_limited].  The
    second pass still calls the corrector with [Sbus_base]: it accepts the
    predicted point with a residual of 393/5000 and no Newton iteration.
    Against the re-derived vector the residual at that point is 893/5000,
    above the tolerance, and the corrector would not return without
    iterating. *)
Lemma reclassified_bus_solved_against_base :
  ex_run_limits 1 = Running ex_limits_pass1 /\
  d_Sbus ex_limits_pass1 = Some ex_Sbus_limited /\
  d_pv ex_limits_pass1 = [] /\ d_pq ex_limits_pass1 = [1%nat] /\
  ex_run_limits 2 = Running ex_limits_pass2 /\
  d_V ex_limits_pass2 = ex_V0 /\ d_normF ex_limits_pass2 = 393 / 5000 /\
  corrector ex_create_J back_subst ex_Ybus ex_Sbus [] [1%nat] ex_Sxfr ex_V
    (1 / 10) ex_z1 (1 / 10) (Param Natural) (1 / 10) [0%nat; 0%nat] ex_V0
    (9 / 50) 20
  = Ok (ex_V0, true, 0%nat, 9 / 50, 393 / 5000,
        [(0, 1 - 47 / 50); (0, 47 / 50 * (47 / 50) - 47 / 50)]) /\
  corrector ex_create_J back_subst ex_Ybus ex_Sbus_limited [] [1%nat] ex_Sxfr
    ex_V (1 / 10) ex_z1 (1 / 10) (Param Natural) (1 / 10) [0%nat; 0%nat]
    ex_V0 (9 / 50) 0
  = Ok (ex_V0, false, 0%nat, 9 / 50, 893 / 5000,
        [(0, 1 - 47 / 50); (0, 47 / 50 * (47 / 50) - 47 / 50)]) /\
  (forall V converged i lam normF Scalc,
     corrector ex_create_J back_subst ex_Ybus ex_Sbus_limited [] [1%nat]
       ex_Sxfr ex_V (1 / 10) ex_z1 (1 / 10) (Param Natural) (1 / 10)
       [0%nat; 0%nat] ex_V0 (9 / 50) 20
     = Ok (V, converged, i, lam, normF, Scalc) ->
     (1 <= i)%nat).
Proof.
  pose proof ex_corrector_init_limited as Ei. unfold ex_pv, ex_pq in Ei.
  refine (conj _ (conj _ (conj _ (conj _ (conj _ (conj _ (conj _
            (conj _ (conj _ _))))))))); try reflexivity.
  - unfold ex_run_limits, continuation_nr.
    rewrite ex_continuation_init_pv. fold ex_limits_start.
    unfold continuation_loop.
    change (d_continuation ex_limits_start) with true. cbv iota.
    rewrite ex_limits_first_pass. reflexivity.
  - apply ex_run_limits_eval.
  - apply (@ex_corrector_second 20 [0%nat; 0%nat]).
  - unfold corrector. rewrite Ei. reflexivity.
  - intros V converged i lam normF Scalc H.
    unfold corrector in H. rewrite Ei in H. cbn [bind] in H.
    match type of H with
    | context [newton_loop ?a ?b ?c ?d ?e ?f ?g ?h ?i ?j ?k ?l ?m ?n ?fu ?s] =>
        destruct (newton_loop a b c d e f g h i j k l m n fu s) as [s2|] eqn:E2;
        [|discriminate H]
    end.
    apply newton_loop_unconverged in E2; [|reflexivity].
    cbn [bind] in H. inversion H. cbn [c_i] in E2. lia.
Qed.

(** * Further properties of the code *)

Lemma Cabs_polar (m a : R) : Cabs (polar m a) = Rabs m.
Proof.
  unfold Cabs, polar. simpl.
  replace (m * cos a * (m * cos a) + m * sin a * (m * sin a))
    with (Rsqr m * (Rsqr (sin a) + Rsqr (cos a))) by (unfold Rsqr; ring).
  rewrite sin2_cos2, Rmult_1_r. apply sqrt_Rsqr_abs.
Qed.

Lemma Cabs_nonneg (c : C) : 0 <= Cabs c.
Proof. unfold Cabs. apply sqrt_pos. Qed.

Lemma Cabs_factor (x y : R) :
  x <> 0 -> Cabs (x, y) = Rabs x * sqrt (1 + Rsqr (y / x)).
Proof.
  intros Hx. unfold Cabs. simpl.
  rewrite <- sqrt_Rsqr_abs, <- sqrt_mult.
  - f_equal. unfold Rsqr. field. exact Hx.
  - apply Rle_0_sqr.
  - pose proof (Rle_0_sqr (y / x)). lra.
Qed.

(** a complex number is its magnitude at its angle *)
Lemma polar_abs_angle (c : C) : polar (Cabs c) (angle c) = c.
Proof.
  destruct c as [x y]. unfold polar, angle, arctan2. simpl.
  assert (Hq : forall t, 0 < sqrt (1 + Rsqr t)).
  { intros t. apply sqrt_lt_R0. pose proof (Rle_0_sqr t). lra. }
  destruct (Rlt_dec 0 x) as [Hx|Hx].
  - rewrite Rltb_true by exact Hx.
    rewrite Cabs_factor by lra. rewrite Rabs_right by lra.
    rewrite cos_atan, sin_atan. pose proof (Hq (y / x)).
    f_equal; field; lra.
  - rewrite Rltb_false by lra.
    destruct (Rlt_dec x 0) as [Hx'|Hx'].
    + rewrite Rltb_true by exact Hx'.
      rewrite Cabs_factor by lra. rewrite Rabs_left by lra.
      pose proof (Hq (y / x)).
      destruct (Rle_dec 0 y) as [Hy|Hy].
      * rewrite Rleb_true by exact Hy.
        rewrite neg_cos, neg_sin, cos_atan, sin_atan. f_equal; field; lra.
      * rewrite Rleb_false by lra.
        replace (atan (y / x) - PI) with (- (PI - atan (y / x))) by ring.
        rewrite cos_neg, sin_neg.
        replace (PI - atan (y / x)) with (- atan (y / x) + PI) by ring.
        rewrite neg_cos, neg_sin, cos_neg, sin_neg, cos_atan, sin_atan.
        f_equal; field; lra.
    + rewrite Rltb_false by lra.
      assert (x = 0) by lra. subst x.
      unfold Cabs. simpl.
      replace (0 * 0 + y * y) with (Rsqr y) by (unfold Rsqr; ring).
      rewrite sqrt_Rsqr_abs.
      destruct (Rlt_dec 0 y) as [Hy|Hy].
      * rewrite Rltb_true by exact Hy. rewrite cos_PI2, sin_PI2.
        rewrite Rabs_right by lra. f_equal; ring.
      * rewrite Rltb_false by lra.
        destruct (Rlt_dec y 0) as [Hy'|Hy'].
        -- rewrite Rltb_true by exact Hy'.
           rewrite cos_neg, sin_neg, cos_PI2, sin_PI2.
           rewrite Rabs_left by lra. f_equal; ring.
        -- rewrite Rltb_false by lra. assert (y = 0) by lra. subst y.
           rewrite Rabs_R0. f_equal; ring.
Qed.

(** ** The corrector: what the Newton loop leaves alone *)

Lemma put_idx_frame {A : Type} (idx : list nat) (vals v v' : list A) k d :
  put_idx v idx vals = Ok v' -> ~ In k idx -> nth k v' d = nth k v d.
Proof.
  unfold put_idx. destruct (broadcast_to _ _) as [vals'|]; [|discriminate].
  cbn [bind]. apply put_seq_frame.
Qed.

(** voltages rebuilt from magnitudes and angles that were changed at the
    pq and at the pv and pq buses only *)
Lemma polar_kept (pv pq : list nat) (V : list C) (Vm Va : list R) :
  length Va = length V -> length Vm = length V ->
  (forall k, ~ In k (pv ++ pq) -> nth k Va 0 = nth k (map angle V) 0) ->
  (forall k, ~ In k pq -> nth k Vm 0 = nth k (map Cabs V) 0) ->
  kept pv pq V (map2 polar Vm Va).
Proof.
  intros LA LM FA FM.
  assert (Hnth : forall k, (k < length V)%nat ->
            nth k (map2 polar Vm Va) (0, 0) = polar (nth k Vm 0) (nth k Va 0)).
  { intros k Hk. apply nth_map2; lia. }
  assert (LV : length (map2 polar Vm Va) = length V).
  { rewrite map2_length. lia. }
  split; [exact LV|]. split.
  - intros k Hk. destruct (Nat.lt_ge_cases k (length V)) as [Hlt|Hge].
    + rewrite (Hnth k Hlt), Cabs_polar, (FM k Hk).
      rewrite (nth_indep _ 0 (Cabs (0, 0))) by (rewrite length_map; exact Hlt).
      rewrite map_nth. apply Rabs_right. apply Rle_ge, Cabs_nonneg.
    + rewrite !nth_overflow by lia. reflexivity.
  - intros k Hk. destruct (Nat.lt_ge_cases k (length V)) as [Hlt|Hge].
    + assert (Hq : ~ In k pq) by (intros Hin; apply Hk, in_or_app; tauto).
      rewrite (Hnth k Hlt), (FM k Hq), (FA k Hk).
      rewrite (nth_indep _ 0 (Cabs (0, 0))) by (rewrite length_map; exact Hlt).
      rewrite (nth_indep (map angle _) 0 (angle (0, 0)))
        by (rewrite length_map; exact Hlt).
      rewrite !map_nth. apply polar_abs_angle.
    + rewrite !nth_overflow by lia. reflexivity.
Qed.

Section CorrectorFrame.
Variable create_J :
  spmatrix -> list C -> list nat -> list nat -> list nat -> nat -> nat ->
  matrix.
Variable spsolve : matrix -> list R -> list R.
Variable Ybus : spmatrix.
Variable Sbus : list C.
Variable pv pq : list nat.
Variable Sxfr : list C.
Variable Vprv : list C.
Variable lamprv : R.
Variable z : list R.
Variable step : R.
Variable parametrization : param_arg.
Variable tol : R.
Variable pvpq_lookup : list nat.

Local Abbreviation init :=
  (corrector_init Ybus Sbus pv pq Sxfr Vprv lamprv z step parametrization
     tol).
Local Abbreviation nstep :=
  (newton_step create_J spsolve Ybus Sbus pv pq Sxfr Vprv lamprv z step
     parametrization tol pvpq_lookup).
Local Abbreviation nupdate :=
  (newton_update create_J spsolve Ybus pv pq Sxfr Vprv lamprv z
     parametrization pvpq_lookup).
Local Abbreviation nloop :=
  (newton_loop create_J spsolve Ybus Sbus pv pq Sxfr Vprv lamprv z step
     parametrization tol pvpq_lookup).

(** a loop that ends without convergence has used all its passes *)
Lemma newton_loop_exhausted (fuel : nat) (s s' : cstate) :
  nloop fuel s = Ok s' -> c_converged s' = false ->
  c_i s' = (c_i s + fuel)%nat.
Proof.
  revert s. induction fuel as [|fuel IH]; cbn [newton_loop]; intros s H Hc.
  - inversion H. subst. lia.
  - destruct (c_converged s) eqn:E.
    + inversion H. subst. congruence.
    + destruct (nstep s) as [s1|] eqn:E1; [|discriminate]. cbn [bind] in H.
      rewrite (IH _ H Hc). apply newton_step_count in E1. lia.
Qed.

(** the Newton update writes the angles at pvpq and the magnitudes at pq
    only *)
Lemma newton_update_frame (s : cstate) (Va Vm : list R) (lam : R) :
  nupdate s = Ok (Va, Vm, lam) ->
  length Va = length (c_Va s) /\ length Vm = length (c_Vm s) /\
  (forall k, ~ In k (pv ++ pq) -> nth k Va 0 = nth k (c_Va s) 0) /\
  (forall k, ~ In k pq -> nth k Vm 0 = nth k (c_Vm s) 0).
Proof.
  unfold newton_update. intros H.
  destruct (take_idx Sxfr (pv ++ pq)); [|discriminate]. cbn [bind] in H.
  destruct (take_idx Sxfr pq); [|discriminate]. cbn [bind] in H.
  destruct (cpf_p_jac _ _ _ _ _ _ _ _ _) as [[dP_dV dP_dlam]|];
    [|discriminate]. cbn [bind] in H.
  match type of H with
  | (Va0 <- ?a ;; _) = _ => destruct a as [Va'|] eqn:Ea; [|discriminate]
  end. cbn [bind] in H.
  match type of H with
  | (Vm0 <- ?a ;; _) = _ => destruct a as [Vm'|] eqn:Em; [|discriminate]
  end. cbn [bind] in H.
  destruct (getitem _ _); [|discriminate]. cbn [bind] in H.
  inversion H. subst. clear H.
  assert (HA : length Va = length (c_Va s) /\
               forall k, ~ In k (pv ++ pq) -> nth k Va 0 = nth k (c_Va s) 0).
  { destruct (0 <? length pv)%nat.
    - destruct (take_idx (c_Va s) (pv ++ pq)); [|discriminate].
      cbn [bind] in Ea.
      destruct (elementwise Rplus _ _) as [g'|]; [|discriminate].
      cbn [bind] in Ea. split.
      + eapply put_idx_length; eassumption.
      + intros k Hk. eapply put_idx_frame; eassumption.
    - inversion Ea. subst. split; [reflexivity | intros; reflexivity]. }
  assert (HM : length Vm = length (c_Vm s) /\
               forall k, ~ In k pq -> nth k Vm 0 = nth k (c_Vm s) 0).
  { destruct (0 <? length pq)%nat.
    - destruct (take_idx (c_Vm s) pq); [|discriminate].
      cbn [bind] in Em.
      destruct (elementwise Rplus _ _) as [g'|]; [|discriminate].
      cbn [bind] in Em. split.
      + eapply put_idx_length; eassumption.
      + intros k Hk. eapply put_idx_frame; eassumption.
    - inversion Em. subst. split; [reflexivity | intros; reflexivity]. }
  tauto.
Qed.

Lemma kept_refl (V : list C) : kept pv pq V V.
Proof. repeat split. Qed.

Lemma kept_trans (V1 V2 V3 : list C) :
  kept pv pq V1 V2 -> kept pv pq V2 V3 -> kept pv pq V1 V3.
Proof.
  intros (L1 & M1 & S1) (L2 & M2 & S2). split; [congruence|]. split.
  - intros k Hk. rewrite M2, M1; auto.
  - intros k Hk. rewrite S2, S1; auto.
Qed.

Lemma newton_step_kept (s s' : cstate) :
  polar_form s -> nstep s = Ok s' -> kept pv pq (c_V s) (c_V s').
Proof.
  intros [HVa HVm] H.
  learn newton_step_inv H as Hinv.
  destruct Hinv as (Va & Vm & lam & V & Hu & Hv & HV & _ & _).
  destruct (newton_update_frame _ _ _ _ Hu) as (LA & LM & FA & FM).
  rewrite HVa in LA, FA. rewrite HVm in LM, FM. rewrite length_map in LA, LM.
  rewrite elementwise_same in Hv by congruence.
  injection Hv as <-. rewrite HV. apply polar_kept; assumption.
Qed.

Lemma newton_loop_kept (fuel : nat) (s s' : cstate) :
  polar_form s -> nloop fuel s = Ok s' ->
  polar_form s' /\ kept pv pq (c_V s) (c_V s').
Proof.
  revert s. induction fuel as [|fuel IH]; cbn [newton_loop]; intros s Hp H.
  - inversion H. subst. split; [exact Hp | apply kept_refl].
  - destruct (c_converged s).
    + inversion H. subst. split; [exact Hp | apply kept_refl].
    + destruct (nstep s) as [s1|] eqn:E1; [|discriminate]. cbn [bind] in H.
      pose proof (newton_step_kept _ _ Hp E1) as K1.
      learn newton_step_inv E1 as Hinv.
      destruct Hinv as (Va & Vm & lam & V & _ & _ & _ & _ & Hp1).
      destruct (IH _ Hp1 H) as [Hp' K2]. split; [exact Hp'|].
      eapply kept_trans; eassumption.
Qed.

End CorrectorFrame.

Lemma norm_inf_bound (v : list R) (t x : R) :
  norm_inf v < t -> In x v -> Rabs x < t.
Proof.
  induction v as [|y v IH]; simpl; [tauto|].
  intros H [->|Hin].
  - pose proof (Rmax_l (Rabs x) (norm_inf v)). lra.
  - apply IH; [|exact Hin].
    pose proof (Rmax_r (Rabs y) (norm_inf v)). unfold norm_inf in *. lra.
Qed.


(** ** The parametrization function and its derivatives *)

Lemma vsum_snoc (v : list R) (x : R) : vsum (v ++ [x]) = vsum v + x.
Proof.
  induction v as [|y v IH]; simpl; [lra|]. unfold vsum in *. simpl.
  rewrite IH. lra.
Qed.

Lemma map2_snoc {A B D : Type} (f : A -> B -> D) (a : list A) (b : list B)
  (x : A) (y : B) :
  length a = length b ->
  map2 f (a ++ [x]) (b ++ [y]) = map2 f a b ++ [f x y].
Proof. intros H. rewrite map2_app by exact H. reflexivity. Qed.

Lemma take_idx_length {A : Type} (v : list A) (idx : list nat) (l : list A) :
  take_idx v idx = Ok l -> length l = length idx.
Proof.
  intros H. destruct (take_idx_inv _ _ H) as [_ Hm].
  destruct l as [|d l'].
  - destruct idx; [reflexivity|]. simpl in H.
    destruct (getitem v n); [|discriminate]. simpl in H.
    destruct (take_idx v idx); discriminate.
  - rewrite (Hm d). apply length_map.
Qed.

(** the value of the arc-length scheme, as a function of [lam] *)
Lemma cpf_p_arc_in_lam (step : R) (z : list R) (V V_prev : list C)
  (lamprv : R) (pv pq pvpq : list nat) (lam0 P0 : R) :
  cpf_p (Param ArcLength) step z V lam0 V_prev lamprv pv pq pvpq = Ok P0 ->
  exists K, forall lam,
    cpf_p (Param ArcLength) step z V lam V_prev lamprv pv pq pvpq
    = Ok (K + (lam - lamprv) ^ 2 - step ^ 2).
Proof.
  unfold cpf_p. intros H.
  destruct (take_idx (map angle V) pvpq) as [a1|] eqn:E1; [|discriminate].
  cbn [bind] in *.
  destruct (take_idx (map Cabs V) pq) as [a2|] eqn:E2; [|discriminate].
  cbn [bind] in *.
  destruct (take_idx (map angle V_prev) pvpq) as [b1|] eqn:E3;
    [|discriminate]. cbn [bind] in *.
  destruct (take_idx (map Cabs V_prev) pq) as [b2|] eqn:E4; [|discriminate].
  cbn [bind] in *. clear H.
  apply take_idx_length in E1, E2, E3, E4.
  exists (vsum (map (fun x => x ^ 2) (map2 Rminus (a1 ++ a2) (b1 ++ b2)))).
  intros lam. rewrite !app_assoc.
  rewrite elementwise_same by (rewrite !length_app; simpl; lia).
  cbn [bind]. rewrite map2_snoc by (rewrite !length_app; lia).
  rewrite map_app. cbn [map]. rewrite vsum_snoc. reflexivity.
Qed.

(** the value of the pseudo-arc-length scheme, as a function of [lam] *)
Lemma cpf_p_pseudo_in_lam (step : R) (z : list R) (V V_prev : list C)
  (lamprv : R) (pv pq pvpq : list nat) (lam0 P0 : R) :
  cpf_p (Param PseudoArcLength) step z V lam0 V_prev lamprv pv pq pvpq
  = Ok P0 ->
  exists K zl,
    getitem z (2 * length V) = Ok zl /\
    forall lam,
      cpf_p (Param PseudoArcLength) step z V lam V_prev lamprv pv pq pvpq
      = Ok (K + zl * (lam - lamprv) - step).
Proof.
  unfold cpf_p. intros H.
  rewrite !app_assoc in *. rewrite take_idx_app in *.
  destruct (take_idx z ((pv ++ pq) ++ shift (length V) pq)) as [a|] eqn:Ea;
    [|discriminate]. cbn [bind] in *.
  cbn [take_idx] in *.
  destruct (getitem z (2 * length V)) as [zl|] eqn:Ez; [|discriminate].
  cbn [bind] in *.
  destruct (take_idx (map angle V) pvpq) as [a1|] eqn:E1; [|discriminate].
  cbn [bind] in *.
  destruct (take_idx (map Cabs V) pq) as [a2|] eqn:E2; [|discriminate].
  cbn [bind] in *.
  destruct (take_idx (map angle V_prev) pvpq) as [b1|] eqn:E3;
    [|discriminate]. cbn [bind] in *.
  destruct (take_idx (map Cabs V_prev) pq) as [b2|] eqn:E4; [|discriminate].
  cbn [bind] in *.
  apply take_idx_length in Ea, E1, E2, E3, E4.
  rewrite elementwise_same in H by (rewrite !length_app; simpl; lia).
  cbn [bind] in H.
  assert (Hlen : length a = length (map2 Rminus (a1 ++ a2) (b1 ++ b2))).
  { unfold dot in H.
    match type of H with
    | context [(?x =? ?y)%nat] =>
        destruct (Nat.eqb_spec x y) as [Hl|Hl]; [|discriminate]
    end.
    rewrite !length_app, map2_length, !length_app in Hl. simpl in Hl.
    rewrite map2_length, !length_app. lia. }
  clear H. exists (vsum (map2 Rmult a (map2 Rminus (a1 ++ a2) (b1 ++ b2)))), zl.
  split; [reflexivity|]. intros lam.
  rewrite elementwise_same by (rewrite !length_app; simpl; lia).
  cbn [bind]. rewrite (app_assoc a1), (app_assoc b1).
  rewrite map2_snoc by (rewrite !length_app; lia).
  unfold dot. rewrite !length_app, <- Hlen, Nat.eqb_refl. cbn [bind].
  rewrite map2_snoc by exact Hlen. rewrite vsum_snoc. reflexivity.
Qed.

(** ** The corrector: the state behind its result *)

Section CorrectorResult.
Variable create_J :
  spmatrix -> list C -> list nat -> list nat -> list nat -> nat -> nat ->
  matrix.
Variable spsolve : matrix -> list R -> list R.
Variable Ybus : spmatrix.
Variable Sbus : list C.
Variable pv pq : list nat.
Variable Sxfr : list C.
Variable Vprv : list C.
Variable lamprv : R.
Variable z : list R.
Variable step : R.
Variable parametrization : param_arg.
Variable tol : R.
Variable pvpq_lookup : list nat.

(** the tuple that the corrector returns is read off a settled state *)
Lemma corrector_settled (V0 V : list C) (lam0 lam normF : R)
  (Scalc : list C) (converged : bool) (i max_it : nat) :
  corrector create_J spsolve Ybus Sbus pv pq Sxfr Vprv lamprv z step
    parametrization tol pvpq_lookup V0 lam0 max_it
  = Ok (V, converged, i, lam, normF, Scalc) ->
  exists s,
    settled Ybus Sbus pv pq Sxfr Vprv lamprv z step parametrization tol s /\
    V = c_V s /\ converged = c_converged s /\ lam = c_lam s /\
    normF = c_normF s /\ Scalc = c_Scalc s.
Proof.
  unfold corrector. intros H.
  destruct (corrector_init _ _ _ _ _ _ _ _ _ _ _ V0 lam0) as [s0|] eqn:E0;
    [|discriminate]. cbn [bind] in H.
  destruct (newton_loop _ _ _ _ _ _ _ _ _ _ _ _ _ _ max_it s0) as [s|] eqn:El;
    [|discriminate]. cbn [bind] in H. injection H as <- <- _ <- <- <-.
  learn corrector_init_settled E0 as Hs0.
  learn newton_loop_settled El as Hs; [|exact Hs0].
  exists s. auto 7.
Qed.

(** the residual of a settled state *)
Lemma settled_residual (s : cstate) :
  settled Ybus Sbus pv pq Sxfr Vprv lamprv z step parametrization tol s ->
  exists mismatch P m1 m2,
    calc_mismatch Ybus Sbus Sxfr (c_V s) (c_lam s)
    = Ok (c_Scalc s, mismatch) /\
    cpf_p parametrization step z (c_V s) (c_lam s) Vprv lamprv pv pq
      (pv ++ pq) = Ok P /\
    take_idx mismatch (pv ++ pq) = Ok m1 /\
    take_idx mismatch pq = Ok m2 /\
    c_normF s = norm_inf (map Cre m1 ++ map Cim m2 ++ [P]) /\
    c_converged s = Rltb (c_normF s) tol.
Proof.
  unfold settled, corrector_init. intros Hs.
  destruct (calc_mismatch _ _ _ _ _) as [[Scalc mismatch]|]; [|discriminate].
  cbn [bind] in Hs.
  destruct (cpf_p _ _ _ _ _ _ _ _ _ _) as [P|]; [|discriminate].
  cbn [bind] in Hs.
  destruct (take_idx mismatch (pv ++ pq)) as [m1|] eqn:E1; [|discriminate].
  cbn [bind] in Hs.
  destruct (take_idx mismatch pq) as [m2|] eqn:E2; [|discriminate].
  cbn [bind] in Hs. injection Hs as _ _ _ HN HS HC.
  exists mismatch, P, m1, m2. rewrite HS, <- HC, <- HN.
  repeat split; solve [reflexivity | assumption].
Qed.
End CorrectorResult.

(** ** The driver: one pass of the loop, taken apart *)

Section DriverPass.
Variable create_J :
  spmatrix -> list C -> list nat -> list nat -> list nat -> nat -> nat ->
  matrix.
Variable spsolve : matrix -> list R -> list R.
Variable control_q_direct :
  list C -> list R -> list R -> list R -> list R -> list Z -> list Z ->
  list C * list R * list Z * bool.
Variable compile_types :
  list C -> list Z -> list nat * list nat * list nat * list nat.
Variable Ybus : spmatrix.
Variable Sbus_base : list C.
Variable Sxfr : list C.
Variable pvpq : list nat.
Variable pvpq_lookup : list nat.
Variable step_min step_max error_tol tol : R.
Variable max_it : nat.
Variable stop_at : stop_arg.
Variable controlQ : ReactivePowerControlMode.
Variable Qmax_bus Qmin_bus : list R.
Variable original_bus_types : list Z.
Variable has_call_back : bool.

Local Abbreviation body :=
  (loop_body create_J spsolve control_q_direct compile_types Ybus Sbus_base
     Sxfr pvpq pvpq_lookup step_min step_max error_tol tol max_it stop_at
     controlQ Qmax_bus Qmin_bus original_bus_types has_call_back).
Local Abbreviation loop :=
  (continuation_loop create_J spsolve control_q_direct compile_types Ybus
     Sbus_base Sxfr pvpq pvpq_lookup step_min step_max error_tol tol max_it
     stop_at controlQ Qmax_bus Qmin_bus original_bus_types has_call_back).
Local Abbreviation controls :=
  (check_controls control_q_direct compile_types controlQ Qmax_bus Qmin_bus
     original_bus_types).

(** a pass that ends normally: the predictor and the corrector returned,
    and after a converged corrector step so did the controls, the stop
    check and the step adaptation *)
Lemma loop_body_next (st st' : dstate) :
  body st = Next st' ->
  exists V0 lam0 z V success i lam normF Scalc,
    predictor create_J spsolve (d_V st) (d_lam st) Ybus Sxfr (d_pv st)
      (d_pq st) (d_step st) (d_z st) (d_V_prev st) (d_lam_prev st)
      (d_approximation_order st) pvpq_lookup = Ok (V0, lam0, z) /\
    corrector create_J spsolve Ybus Sbus_base (d_pv st) (d_pq st) Sxfr
      (d_V st) (d_lam st) z (d_step st) (d_approximation_order st) tol
      pvpq_lookup V0 lam0 max_it = Ok (V, success, i, lam, normF, Scalc) /\
    let mid := after_corrector st z V success lam normF in
    if success
    then exists st1 st2 st3,
           controls Scalc mid = Ok st1 /\
           check_stop stop_at st1 = Ok st2 /\
           adapt_step_size pvpq step_min step_max error_tol V0 lam0 st2
           = Ok st3 /\
           st' = call_back has_call_back st3
    else st' = set_continuation false mid.
Proof.
  unfold loop_body, attempt. cbv zeta. norm_state. intros H.
  destruct (predictor _ _ _ _ _ _ _ _ _ _ _ _ _ _)
    as [[[V0 lam0] z]|e] eqn:Ep; [|discriminate].
  destruct (corrector _ _ _ _ _ _ _ _ _ _ _ _ _ _ _ _ _)
    as [[[[[[V success] i] lam] normF] Scalc]|e] eqn:Ec; [|discriminate].
  exists V0, lam0, z, V, success, i, lam, normF, Scalc.
  split; [reflexivity|]. split; [exact Ec|].
  unfold after_corrector. cbv zeta. norm_state.
  destruct success.
  - destruct (check_controls _ _ _ _ _ _ _ _) as [st1|] eqn:E1;
      [|discriminate].
    destruct (check_stop _ st1) as [st2|] eqn:E2; [|discriminate].
    destruct (adapt_step_size _ _ _ _ _ _ st2) as [st3|] eqn:E3;
      [|discriminate].
    injection H as <-. exists st1, st2, st3. auto.
  - injection H as <-. reflexivity.
Qed.

(** a property that every pass started in a running state preserves holds
    wherever the run is observed *)
Lemma loop_invariant (Inv : dstate -> Prop) :
  (forall st st', d_continuation st = true -> Inv st -> body st = Next st' ->
                  Inv st') ->
  forall fuel st, Inv st ->
  match loop fuel st with
  | Returned st' => Inv st' /\ d_continuation st' = false
  | Running st' => Inv st' /\ d_continuation st' = true
  | RaisedAtEntry _ => True
  | RaisedInLoop _ _ => True
  end.
Proof.
  intros Hstep. induction fuel as [|fuel IH]; intros st HI;
    cbn [continuation_loop].
  - destruct (d_continuation st) eqn:E; auto.
  - destruct (d_continuation st) eqn:E; [|auto].
    destruct (body st) as [st'|e st'] eqn:Eb; [|exact I].
    apply IH. eapply Hstep; eassumption.
Qed.

(** what the three checks after a converged step can do to the state *)
Lemma check_controls_cases (Scalc : list C) (st st' : dstate) :
  controls Scalc st = Ok st' ->
  exists V,
    st' = set_V V st \/
    exists pv pq types Sbus,
      controlQ = Direct /\
      st' = set_pv pv (set_pq pq (set_Sbus (Some Sbus)
              (set_bus_types types (set_V V st)))).
Proof.
  unfold check_controls.
  destruct controlQ.
  - intros [= <-]. exists (d_V st). left. reflexivity.
  - destruct (control_q_direct _ _ _ _ _ _ _)
      as [[[V Qnew] types_new] issue].
    intros H. exists V. destruct issue.
    + destruct (elementwise _ _ _) as [Sbus|]; [|discriminate].
      cbn [bind] in H.
      destruct (compile_types Sbus types_new) as [[[vd pq] pv] pqpv].
      injection H as <-. right. exists pv, pq, types_new, Sbus.
      split; reflexivity.
    + injection H as <-. left. reflexivity.
Qed.

Lemma check_stop_cases (st st' : dstate) :
  check_stop stop_at st = Ok st' ->
  (st' = st /\ ~ stop_met stop_at st) \/
  (st' = set_continuation false st /\ stop_met stop_at st) \/
  (stop_at = StopAt Full /\ ~ stop_met stop_at st /\
   d_lam st < d_lam_prev st /\ d_lam st - d_step st < 0 /\
   st' = set_adapt_step false
           (set_approximation_order (Param Natural)
              (set_step (d_lam st) st))).
Proof.
  unfold check_stop, stop_met. destruct stop_at as [[|]|v].
  - unfold Rltb. destruct (Rlt_dec _ _); intros [= <-].
    + right. left. auto.
    + left. auto.
  - unfold Rltb.
    destruct (Rlt_dec (Rabs _) _); [intros [= <-]; right; left; auto|].
    destruct (Rlt_dec (d_lam st) _); cbn [andb].
    + destruct (Rlt_dec _ 0); intros [= <-].
      * right. right. auto 6.
      * left. auto.
    + intros [= <-]. left. auto.
  - discriminate.
Qed.

Lemma adapt_step_size_cases (V0 : list C) (lam0 : R) (st st' : dstate) :
  adapt_step_size pvpq step_min step_max error_tol V0 lam0 st = Ok st' ->
  st' = st \/
  exists e,
    d_adapt_step st = true /\ d_continuation st = true /\ 0 < e /\
    st' = set_step (adapt (d_step st) error_tol step_min step_max e) st.
Proof.
  unfold adapt_step_size.
  destruct (d_adapt_step st), (d_continuation st); cbn [andb];
    try (intros [= <-]; left; reflexivity).
  destruct (cpf_error_of _ _ _ _ _ _) as [e|] eqn:E; [|discriminate].
  cbn [bind]. intros [= <-]. right. exists (guard_zero e).
  repeat split. apply guard_zero_pos. eapply cpf_error_nonneg. exact E.
Qed.
End DriverPass.

(** ** The driver: facts for its invariants *)

Lemma nondecreasing_snoc (l : list R) (x : R) :
  nondecreasing l -> (l <> [] -> last l 0 <= x) -> nondecreasing (l ++ [x]).
Proof.
  induction l as [|a l IH]; intros Hn Hl; [exact I|].
  destruct l as [|b l].
  - simpl. split; [|exact I]. apply Hl. discriminate.
  - destruct Hn as [Hab Hn]. split; [exact Hab|].
    apply IH; [exact Hn|]. intros _. apply Hl. discriminate.
Qed.

Lemma last_cons_snoc (a : R) (l : list R) (x : R) :
  last (a :: l ++ [x]) 0 = x.
Proof. rewrite app_comm_cons. apply last_last. Qed.

(** the adapted step stays between the bounds *)
Lemma adapt_bounds (step error_tol step_min step_max e : R) :
  0 <= step_min -> step_min <= step <= step_max -> 0 < e ->
  step_min <= adapt step error_tol step_min step_max e <= step_max.
Proof.
  intros H0 [Hlo Hhi] He. unfold adapt.
  assert (Er : step * error_tol / e * e = step * error_tol)
    by (field; lra).
  set (r := step * error_tol / e) in *.
  unfold Rltb. destruct (Rlt_dec e error_tol) as [Hlt|Hge].
  - assert (step <= r) by nra.
    destruct (Rlt_dec step_max r); lra.
  - destruct (Rlt_dec r step_min); [lra|].
    split; [lra|].
    destruct (Rle_dec 0 error_tol); nra.
Qed.

(** a property that holds in the driver's first state and that every pass
    preserves holds wherever the run is observed *)
Lemma run_invariant (Inv : dstate -> Prop)
  (create_J :
     spmatrix -> list C -> list nat -> list nat -> list nat -> nat -> nat ->
     matrix)
  (spsolve : matrix -> list R -> list R)
  (control_q_direct :
     list C -> list R -> list R -> list R -> list R -> list Z -> list Z ->
     list C * list R * list Z * bool)
  (compile_types :
     list C -> list Z -> list nat * list nat * list nat * list nat)
  (fuel : nat)
  (Ybus : spmatrix) (Sbus_base Sbus_target V : list C) (pv pq : list nat)
  (step : R) (approximation_order : param_arg) (adapt_step : bool)
  (step_min step_max error_tol tol : R) (max_it : nat) (stop_at : stop_arg)
  (controlQ : ReactivePowerControlMode) (Qmax_bus Qmin_bus : list R)
  (original_bus_types : option (list Z)) (has_call_back : bool) :
  (forall Sxfr pvpq bus_types z pvpq_lookup,
     continuation_init Ybus Sbus_base Sbus_target pv pq original_bus_types
     = Ok (Sxfr, pvpq, bus_types, z, pvpq_lookup) ->
     Inv (mk_dstate V V 0 0 z step pv pq bus_types None approximation_order
            adapt_step true 0 0 false [] [] []) /\
     forall st st',
       d_continuation st = true -> Inv st ->
       loop_body create_J spsolve control_q_direct compile_types Ybus
         Sbus_base Sxfr pvpq pvpq_lookup step_min step_max error_tol tol
         max_it stop_at controlQ Qmax_bus Qmin_bus bus_types has_call_back st
       = Next st' ->
       Inv st') ->
  match continuation_nr create_J spsolve control_q_direct compile_types fuel
          Ybus Sbus_base Sbus_target V pv pq step approximation_order
          adapt_step step_min step_max error_tol tol max_it stop_at controlQ
          Qmax_bus Qmin_bus original_bus_types has_call_back with
  | Returned st => Inv st /\ d_continuation st = false
  | Running st => Inv st /\ d_continuation st = true
  | RaisedAtEntry _ => True
  | RaisedInLoop _ _ => True
  end.
Proof.
  intros H. unfold continuation_nr.
  destruct (continuation_init _ _ _ _ _ _)
    as [[[[[Sxfr pvpq] bus_types] z0] pvpq_lookup]|e]; [|exact I].
  destruct (H _ _ _ _ _ eq_refl) as [H0 Hstep].
  apply loop_invariant; assumption.
Qed.

(** ** The driver: tactics for one pass *)

Ltac clear_pass :=
  repeat match goal with
         | H : predictor _ _ _ _ _ _ _ _ _ _ _ _ _ _ = _ |- _ => clear H
         | H : corrector _ _ _ _ _ _ _ _ _ _ _ _ _ _ _ _ _ = _ |- _ =>
             clear H
         end.

(** one pass of the loop, split into the ways it can end normally *)
Ltac split_pass Hb :=
  apply loop_body_next in Hb;
  destruct Hb as (pV0 & plam0 & pz & pV & psuccess & pit & plam & pnormF &
                  pScalc & Hpred & Hcorr & Hrest);
  cbv zeta in Hrest;
  destruct psuccess;
  [ destruct Hrest as (st1 & st2 & st3 & E1 & E2 & E3 & Est);
    apply check_controls_cases in E1;
    destruct E1 as (pVc & [E1 | (pv' & pq' & types' & Sbus' & Hdirect & E1)]);
    apply check_stop_cases in E2;
    destruct E2 as [[E2 Hstop] | [[E2 Hstop]
                   | (Hfull & Hstop & Hback & Hover & E2)]];
    apply adapt_step_size_cases in E3;
    destruct E3 as [E3 | (pe & Hadapt & Hcont & He & E3)];
    unfold call_back in Est
  | ].

(** the state at the end of the pass, field by field *)
Ltac pass_fields st :=
  subst; clear_pass; destruct st;
  unfold after_corrector, stop_met in *;
  cbv beta iota zeta delta
    [set_V d_V set_V_prev d_V_prev set_lam d_lam
     set_lam_prev d_lam_prev set_z d_z set_step d_step
     set_pv d_pv set_pq d_pq set_bus_types d_bus_types
     set_Sbus d_Sbus set_approximation_order d_approximation_order
     set_adapt_step d_adapt_step set_continuation d_continuation
     set_cont_steps d_cont_steps set_normF d_normF
     set_success d_success set_voltage_series d_voltage_series
     set_lambda_series d_lambda_series set_callbacks d_callbacks] in *.


(** ** The driver: its initialization *)

Lemma put_seq_in_range {A : Type} (idx : list nat) (vals v v' : list A) :
  length vals = length idx ->
  put_seq v idx vals = Ok v' ->
  Forall (fun i => (i < length v)%nat) idx.
Proof.
  revert vals v. induction idx as [|i idx IH]; intros [|x vals] v Hlen H;
    simpl in *; try discriminate; [constructor|].
  destruct (setitem v i x) as [v1|] eqn:E; [|discriminate]. cbn [bind] in H.
  destruct (setitem_inv _ _ _ E) as [Hi ->].
  constructor; [exact Hi|].
  specialize (IH vals (upd v i x) ltac:(lia) H).
  rewrite upd_length in IH. exact IH.
Qed.

Lemma put_seq_out_of_range {A : Type} (idx : list nat) (vals v : list A) :
  length vals = length idx ->
  Exists (fun i => (length v <= i)%nat) idx ->
  put_seq v idx vals = Raise IndexError.
Proof.
  revert vals v. induction idx as [|i idx IH]; intros [|x vals] v Hlen Hex;
    simpl in *; try discriminate; [inversion Hex|].
  unfold setitem. destruct (Nat.ltb_spec i (length v)) as [Hi|Hi];
    [|reflexivity].
  cbn [bind]. apply IH; [lia|]. rewrite upd_length.
  inversion Hex; subst; [lia | assumption].
Qed.

Lemma loop_not_at_entry
  (create_J :
     spmatrix -> list C -> list nat -> list nat -> list nat -> nat -> nat ->
     matrix)
  (spsolve : matrix -> list R -> list R)
  (control_q_direct :
     list C -> list R -> list R -> list R -> list R -> list Z -> list Z ->
     list C * list R * list Z * bool)
  (compile_types :
     list C -> list Z -> list nat * list nat * list nat * list nat)
  (Ybus : spmatrix) (Sbus_base Sxfr : list C) (pvpq pvpq_lookup : list nat)
  (step_min step_max error_tol tol : R) (max_it : nat) (stop_at : stop_arg)
  (controlQ : ReactivePowerControlMode) (Qmax_bus Qmin_bus : list R)
  (original_bus_types : list Z) (has_call_back : bool) (fuel : nat)
  (st : dstate) (e : exn) :
  continuation_loop create_J spsolve control_q_direct compile_types Ybus
    Sbus_base Sxfr pvpq pvpq_lookup step_min step_max error_tol tol max_it
    stop_at controlQ Qmax_bus Qmin_bus original_bus_types has_call_back fuel
    st
  <> RaisedAtEntry e.
Proof.
  revert st. induction fuel as [|fuel IH]; intros st; cbn [continuation_loop].
  - destruct (d_continuation st); discriminate.
  - destruct (d_continuation st); [|discriminate].
    destruct (loop_body _ _ _ _ _ _ _ _ _ _ _ _ _ _ _ _ _ _ _ _ st);
      [apply IH | discriminate].
Qed.

Lemma put_seq_succeeds {A : Type} (idx : list nat) (vals v : list A) :
  Forall (fun i => (i < length v)%nat) idx ->
  exists v', put_seq v idx vals = Ok v'.
Proof.
  revert vals v. induction idx as [|i idx IH]; intros [|x vals] v Hr;
    simpl; eauto.
  inversion Hr; subst. rewrite setitem_ok by assumption. cbn [bind].
  apply IH. rewrite upd_length. assumption.
Qed.

Lemma vsum_mult_zero (a : list R) (x : list R) :
  vsum (map2 Rmult a (map2 Rminus x x)) = 0.
Proof.
  revert a. induction x as [|y x IH]; intros [|b a]; simpl; try reflexivity.
  unfold vsum in *. simpl. rewrite IH. ring.
Qed.


(** ** Reading and writing through an index array *)

Lemma map2_plus_zero (a b : list R) :
  length a = length b -> map2 Rplus a (map (Rmult 0) b) = a.
Proof.
  revert b. induction a as [|x a IH]; intros [|y b] H; simpl in *;
    try discriminate; [reflexivity|].
  f_equal; [ring | apply IH; lia].
Qed.

(** writing back the values just read changes nothing *)
Lemma put_idx_same {A : Type} (v : list A) (idx : list nat) (a v' : list A) :
  take_idx v idx = Ok a -> put_idx v idx a = Ok v' -> v' = v.
Proof.
  intros Ht Hp. pose proof (take_idx_length _ _ _ Ht) as Hl.
  unfold put_idx in Hp. rewrite broadcast_to_same in Hp by exact Hl.
  cbn [bind] in Hp. destruct (take_idx_inv _ _ Ht) as [Hr Hm].
  destruct v as [|d v0] eqn:Ev.
  - pose proof (put_seq_length _ _ _ Hp) as L. destruct v'; [reflexivity|].
    discriminate.
  - rewrite <- Ev in *. rewrite (Hm d) in Hp.
    destruct (@put_seq_map A (fun i => nth i v d) idx v Hr)
      as (w & Hw & Lw & Nw).
    rewrite Hw in Hp. injection Hp as <-.
    apply (nth_ext _ _ d d Lw). intros k _. rewrite Nw.
    destruct (in_dec Nat.eq_dec k idx); reflexivity.
Qed.

Lemma map2_polar_abs_angle (V : list C) :
  map2 polar (map Cabs V) (map angle V) = V.
Proof.
  induction V as [|c V IH]; simpl; [reflexivity|].
  rewrite polar_abs_angle, IH. reflexivity.
Qed.


(** ** The Natural scheme in the Newton iteration *)

Lemma zeros_dot (n : nat) (x : list R) :
  vsum (map2 Rmult (repeat 0 n) x) = 0.
Proof.
  revert x. induction n as [|n IH]; intros [|y x]; simpl; try reflexivity.
  unfold vsum in *. simpl. rewrite IH. ring.
Qed.

Lemma list_snoc_inv {A : Type} (x : list A) (n : nat) :
  length x = S n -> exists x' xl, x = x' ++ [xl] /\ length x' = n.
Proof.
  intros H. destruct (exists_last (l := x)) as (x' & xl & ->).
  { intros ->. discriminate. }
  exists x', xl. split; [reflexivity|].
  rewrite length_app in H. simpl in H. lia.
Qed.

Section NaturalNewton.
Variable create_J :
  spmatrix -> list C -> list nat -> list nat -> list nat -> nat -> nat ->
  matrix.
Variable spsolve : matrix -> list R -> list R.
Variable Ybus : spmatrix.
Variable Sbus : list C.
Variable pv pq : list nat.
Variable Sxfr : list C.
Variable Vprv : list C.
Variable lamprv : R.
Variable z : list R.
Variable step : R.
Variable tol : R.
Variable pvpq_lookup : list nat.

(** where a Newton iteration of the Natural scheme puts lambda *)
Lemma natural_newton_step (s s' : cstate) :
  settled Ybus Sbus pv pq Sxfr Vprv lamprv z step (Param Natural) tol s ->
  newton_step create_J spsolve Ybus Sbus pv pq Sxfr Vprv lamprv z step
    (Param Natural) tol pvpq_lookup s = Ok s' ->
  (forall J2,
     tangent_system create_J (c_V s) (c_lam s) Ybus Sxfr pv pq z Vprv lamprv
       (Param Natural) pvpq_lookup = Ok J2 ->
     solves J2 (spsolve J2 (c_F s)) (c_F s)) ->
  c_lam s' = if Rleb lamprv (c_lam s) then lamprv + step else lamprv - step.
Proof.
  intros Hs Hstep Hsol.
  (* the residual vector ends in the value of the parametrization *)
  assert (HF : exists F',
            length F' = (length pv + 2 * length pq)%nat /\
            c_F s = F' ++ [if Rleb lamprv (c_lam s)
                           then c_lam s - lamprv - step
                           else lamprv - c_lam s - step]).
  { unfold settled, corrector_init in Hs.
    destruct (calc_mismatch _ _ _ _ _) as [[Scalc mismatch]|];
      [|discriminate]. cbn [bind] in Hs.
    unfold cpf_p in Hs.
    destruct (take_idx mismatch (pv ++ pq)) as [m1|] eqn:E1.
    2:{ destruct (Rleb lamprv (c_lam s)); discriminate. }
    destruct (take_idx mismatch pq) as [m2|] eqn:E2.
    2:{ destruct (Rleb lamprv (c_lam s)); discriminate. }
    apply take_idx_length in E1, E2. rewrite length_app in E1.
    exists (map Cre m1 ++ map Cim m2). split.
    - rewrite length_app, !length_map. lia.
    - destruct (Rleb lamprv (c_lam s)); cbn [bind] in Hs;
        injection Hs as _ _ HF _ _ _; rewrite <- HF, <- app_assoc;
        reflexivity. }
  destruct HF as (F' & LF & HF).
  learn newton_step_inv Hstep as Hinv.
  destruct Hinv as (Va & Vm & lam' & V & Hu & _ & _ & Hl & _).
  rewrite Hl. clear Hl Hstep Hs.
  unfold newton_update in Hu. unfold tangent_system in Hsol.
  destruct (take_idx Sxfr (pv ++ pq)) as [S1|]; [|discriminate].
  cbn [bind] in Hu, Hsol.
  destruct (take_idx Sxfr pq) as [S2|]; [|discriminate].
  cbn [bind] in Hu, Hsol.
  unfold cpf_p_jac in Hu, Hsol.
  set (d := if Rleb lamprv (c_lam s) then 1 else -1).
  assert (Hd : (if Rleb lamprv (c_lam s)
                then Ok (repeat 0 (length pv + 2 * length pq), 1)
                else Ok (repeat 0 (length pv + 2 * length pq), -1))
               = Ok (repeat 0 (length pv + 2 * length pq), d)).
  { unfold d. destruct (Rleb lamprv (c_lam s)); reflexivity. }
  rewrite Hd in Hu, Hsol. cbn [bind] in Hu, Hsol.
  specialize (Hsol _ eq_refl). destruct Hsol as [Lx Hmv].
  set (x := spsolve _ (c_F s)) in *.
  rewrite HF, length_app in Lx. simpl in Lx.
  destruct (list_snoc_inv x (length F') ltac:(lia)) as (x' & xl & Ex & Lx').
  (* the last equation of the system *)
  assert (Hlast : d * xl =
                  if Rleb lamprv (c_lam s)
                  then c_lam s - lamprv - step
                  else lamprv - c_lam s - step).
  { unfold augment, mat_vec in Hmv. rewrite map_app, HF in Hmv.
    cbn [map] in Hmv. apply app_inj_tail in Hmv. destruct Hmv as [_ Hmv].
    rewrite Ex in Hmv.
    rewrite map2_snoc in Hmv by (rewrite repeat_length; lia).
    rewrite vsum_snoc, zeros_dot in Hmv. lra. }
  (* the update of lambda *)
  match type of Hu with
  | (Va0 <- ?a ;; _) = _ => destruct a; [|discriminate]
  end. cbn [bind] in Hu.
  match type of Hu with
  | (Vm0 <- ?a ;; _) = _ => destruct a; [|discriminate]
  end. cbn [bind] in Hu.
  destruct (getitem _ _) as [dlam|] eqn:Eg; [|discriminate].
  cbn [bind] in Hu. injection Hu as _ _ <-.
  destruct (getitem_inv _ _ Eg) as [_ Hn]. specialize (Hn 0).
  rewrite Ex, map_app in Hn. cbn [map] in Hn.
  rewrite app_nth2 in Hn by (rewrite length_map; lia).
  rewrite length_map in Hn.
  replace (length pv + length pq + length pq - length x')%nat with 0%nat
    in Hn by lia.
  cbn [nth] in Hn. subst dlam.
  unfold d in Hlast. destruct (Rleb lamprv (c_lam s)); lra.
Qed.

Lemma newton_iter_settled (n : nat) (s0 sn : cstate) :
  settled Ybus Sbus pv pq Sxfr Vprv lamprv z step (Param Natural) tol s0 ->
  newton_iter create_J spsolve Ybus Sbus pv pq Sxfr Vprv lamprv z step
    (Param Natural) tol pvpq_lookup n s0 = Ok sn ->
  settled Ybus Sbus pv pq Sxfr Vprv lamprv z step (Param Natural) tol sn.
Proof.
  revert sn. induction n as [|n IH]; intros sn H0 Hn.
  - cbn [newton_iter] in Hn. injection Hn as <-. exact H0.
  - learn newton_iter_snoc Hn as Hs. destruct Hs as (sm & _ & Hs).
    eapply newton_step_settled. exact Hs.
Qed.
End NaturalNewton.

(** ** Exceptions of the parametrization function *)

Lemma take_idx_raise {A : Type} (v : list A) (idx : list nat) (e : exn) :
  take_idx v idx = Raise e -> e = IndexError.
Proof.
  induction idx as [|i idx IH]; simpl; [discriminate|].
  unfold getitem. destruct (nth_error v i); cbn [bind].
  - destruct (take_idx v idx); cbn [bind]; [discriminate|].
    intros [= <-]. apply IH. reflexivity.
  - intros [= <-]. reflexivity.
Qed.

(** ** The predictor: what it leaves alone *)

Section PredictorFrame.
Variable create_J :
  spmatrix -> list C -> list nat -> list nat -> list nat -> nat -> nat ->
  matrix.
Variable spsolve : matrix -> list R -> list R.

(** the predicted voltages are rebuilt from magnitudes and angles that
    differ from the current ones at the pq and at the pv and pq buses only *)
Lemma predictor_polar (V : list C) (lam : R) (Ybus : spmatrix)
  (Sxfr : list C) (pv pq : list nat) (step : R) (z : list R)
  (Vprv : list C) (lamprv : R) (parametrization : param_arg)
  (pvpq_lookup : list nat) (V0 : list C) (lam0 : R) (z' : list R) :
  predictor create_J spsolve V lam Ybus Sxfr pv pq step z Vprv lamprv
    parametrization pvpq_lookup = Ok (V0, lam0, z') ->
  exists Vm0 Va0,
    V0 = map2 polar Vm0 Va0 /\
    length Va0 = length V /\ length Vm0 = length V /\
    (forall k, ~ In k (pv ++ pq) -> nth k Va0 0 = nth k (map angle V) 0) /\
    (forall k, ~ In k pq -> nth k Vm0 0 = nth k (map Cabs V) 0).
Proof.
  unfold predictor. intros H.
  destruct (tangent_system _ _ _ _ _ _ _ _ _ _ _ _) as [J2|]; [|discriminate].
  cbn [bind] in H.
  destruct (tangent _ _ _ _ _) as [z1|]; [|discriminate]. cbn [bind] in H.
  destruct (take_idx (map angle V) (pv ++ pq)) as [a|]; [|discriminate].
  cbn [bind] in H.
  destruct (take_idx z1 (pv ++ pq)) as [za|]; [|discriminate].
  cbn [bind] in H.
  destruct (elementwise Rplus a _) as [a'|]; [|discriminate].
  cbn [bind] in H.
  destruct (put_idx (map angle V) (pv ++ pq) a') as [Va0|] eqn:Ea;
    [|discriminate]. cbn [bind] in H.
  destruct (take_idx (map Cabs V) pq) as [m|]; [|discriminate].
  cbn [bind] in H.
  destruct (take_idx z1 (shift (length V) pq)) as [zm|]; [|discriminate].
  cbn [bind] in H.
  destruct (elementwise Rplus m _) as [m'|]; [|discriminate].
  cbn [bind] in H.
  destruct (put_idx (map Cabs V) pq m') as [Vm0|] eqn:Em; [|discriminate].
  cbn [bind] in H.
  destruct (getitem z1 _) as [zl|]; [|discriminate]. cbn [bind] in H.
  pose proof Ea as LA. apply put_idx_length in LA.
  pose proof Em as LM. apply put_idx_length in LM.
  rewrite length_map in LA, LM.
  rewrite elementwise_same in H by congruence. cbn [bind] in H.
  injection H as <- _ _. exists Vm0, Va0.
  split; [reflexivity|]. split; [exact LA|]. split; [exact LM|]. split.
  - intros k Hk. eapply put_idx_frame; eassumption.
  - intros k Hk. eapply put_idx_frame; eassumption.
Qed.
End PredictorFrame.

(** * Further properties of the code: the theorems *)

(** ** The corrector *)

Section CorrectorProperties.
Variable create_J :
  spmatrix -> list C -> list nat -> list nat -> list nat -> nat -> nat ->
  matrix.
Variable spsolve : matrix -> list R -> list R.
Variable Ybus : spmatrix.
Variable Sbus : list C.
Variable pv pq : list nat.
Variable Sxfr : list C.
Variable Vprv : list C.
Variable lamprv : R.
Variable z : list R.
Variable step : R.
Variable parametrization : param_arg.
Variable tol : R.
Variable pvpq_lookup : list nat.

(** X1. The corrector makes at most [max_it] Newton iterations, it reports
    a failure to converge only after exactly [max_it] of them, and when it
    made none it returns the initial guess [(V0, lam0)] itself. *)
Theorem corrector_iteration_count (V0 V : list C) (lam0 lam normF : R)
  (Scalc : list C) (converged : bool) (i max_it : nat) :
  corrector create_J spsolve Ybus Sbus pv pq Sxfr Vprv lamprv z step
    parametrization tol pvpq_lookup V0 lam0 max_it
  = Ok (V, converged, i, lam, normF, Scalc) ->
  (i <= max_it)%nat /\
  (converged = false -> i = max_it) /\
  (i = 0%nat -> V = V0 /\ lam = lam0).
Proof.
  unfold corrector. intros H.
  destruct (corrector_init _ _ _ _ _ _ _ _ _ _ _ V0 lam0) as [s0|] eqn:E0;
    [|discriminate]. cbn [bind] in H.
  destruct (newton_loop _ _ _ _ _ _ _ _ _ _ _ _ _ _ max_it s0) as [s|] eqn:El;
    [|discriminate]. cbn [bind] in H. inversion H. subst. clear H.
  learn corrector_init_fields E0 as Hf. destruct Hf as (HV & Hl & Ei).
  learn newton_loop_iter El as Hit. destruct Hit as (n & Hn & Hle & Hiter).
  split; [lia|]. split.
  - intros Hc. learn newton_loop_exhausted El as Hx; [|exact Hc]. lia.
  - intros Hi. assert (n = 0%nat) by lia. subst n.
    cbn [newton_iter] in Hiter. injection Hiter as <-. auto.
Qed.

(** X2. The returned flag is the tolerance test on the returned residual
    norm: [converged] is [True] exactly when [normF < tol]. *)
Theorem corrector_flag_is_tolerance_test (V0 V : list C)
  (lam0 lam normF : R) (Scalc : list C) (converged : bool) (i max_it : nat) :
  corrector create_J spsolve Ybus Sbus pv pq Sxfr Vprv lamprv z step
    parametrization tol pvpq_lookup V0 lam0 max_it
  = Ok (V, converged, i, lam, normF, Scalc) ->
  (converged = true <-> normF < tol).
Proof.
  intros H.
  destruct (corrector_settled _ _ _ _ _ _ _ _ _ _ _ _ _ _ _ _ _ _ _ _ _ _ _ H)
    as (s & Hs & _ & -> & _ & -> & _).
  destruct (settled_residual _ _ _ _ _ _ _ _ _ _ _ _ Hs)
    as (mismatch & P & m1 & m2 & _ & _ & _ & _ & _ & HC).
  rewrite HC. unfold Rltb.
  destruct (Rlt_dec (c_normF s) tol); split; intros; try assumption;
    try reflexivity; try discriminate; contradiction.
Qed.

(** X3. What convergence means: at the returned point [(V, lam)] the
    returned [Scalc] is the injection [V * conj(Ybus * V)], and the
    active-power mismatch at every pv and pq bus, the reactive-power
    mismatch at every pq bus and the parametrization residual are all
    smaller than [tol] in absolute value. *)
Theorem converged_point_balances (V0 V : list C) (lam0 lam normF : R)
  (Scalc : list C) (i max_it : nat) :
  corrector create_J spsolve Ybus Sbus pv pq Sxfr Vprv lamprv z step
    parametrization tol pvpq_lookup V0 lam0 max_it
  = Ok (V, true, i, lam, normF, Scalc) ->
  exists mismatch P,
    calc_mismatch Ybus Sbus Sxfr V lam = Ok (Scalc, mismatch) /\
    cpf_p parametrization step z V lam Vprv lamprv pv pq (pv ++ pq) = Ok P /\
    Rabs P < tol /\
    (forall k, In k (pv ++ pq) ->
               Rabs (Cre (nth k mismatch (0, 0))) < tol) /\
    (forall k, In k pq -> Rabs (Cim (nth k mismatch (0, 0))) < tol).
Proof.
  intros H.
  destruct (corrector_settled _ _ _ _ _ _ _ _ _ _ _ _ _ _ _ _ _ _ _ _ _ _ _ H)
    as (s & Hs & -> & Hconv & -> & _ & ->).
  destruct (settled_residual _ _ _ _ _ _ _ _ _ _ _ _ Hs)
    as (mismatch & P & m1 & m2 & Hm & HP & E1 & E2 & HN & HC).
  exists mismatch, P. split; [exact Hm|]. split; [exact HP|].
  assert (Hlt : norm_inf (map Cre m1 ++ map Cim m2 ++ [P]) < tol).
  { rewrite <- HN. rewrite <- Hconv in HC. symmetry in HC. unfold Rltb in HC.
    destruct (Rlt_dec (c_normF s) tol); [assumption | discriminate]. }
  destruct (take_idx_inv _ _ E1) as [_ Hm1].
  destruct (take_idx_inv _ _ E2) as [_ Hm2].
  rewrite (Hm1 (0, 0)), (Hm2 (0, 0)) in Hlt. rewrite !map_map in Hlt.
  split; [|split].
  - apply (norm_inf_bound _ _ _ Hlt). rewrite !in_app_iff. simpl. auto.
  - intros k Hk. apply (norm_inf_bound _ _ _ Hlt). rewrite in_app_iff.
    left. apply (in_map (fun i => Cre (nth i mismatch (0, 0)))). exact Hk.
  - intros k Hk. apply (norm_inf_bound _ _ _ Hlt). rewrite !in_app_iff.
    right. left. apply (in_map (fun i => Cim (nth i mismatch (0, 0)))).
    exact Hk.
Qed.

(** X4. The corrector holds the set points: the returned voltage vector has
    the length of the initial guess, every bus outside [pq] (the PV and the
    slack buses) keeps its voltage magnitude, and every bus outside [pv] and
    [pq] (the slack buses) keeps its complex voltage. *)
Theorem corrector_holds_set_points (V0 V : list C) (lam0 lam normF : R)
  (Scalc : list C) (converged : bool) (i max_it : nat) :
  corrector create_J spsolve Ybus Sbus pv pq Sxfr Vprv lamprv z step
    parametrization tol pvpq_lookup V0 lam0 max_it
  = Ok (V, converged, i, lam, normF, Scalc) ->
  kept pv pq V0 V.
Proof.
  unfold corrector. intros H.
  destruct (corrector_init _ _ _ _ _ _ _ _ _ _ _ V0 lam0) as [s0|] eqn:E0;
    [|discriminate]. cbn [bind] in H.
  destruct (newton_loop _ _ _ _ _ _ _ _ _ _ _ _ _ _ max_it s0) as [s|] eqn:El;
    [|discriminate]. cbn [bind] in H. inversion H. subst. clear H.
  learn corrector_init_polar_form E0 as Hp. destruct Hp as [Hp HV].
  destruct (newton_loop_kept _ _ _ _ _ _ _ _ _ _ _ _ _ _ _ _ _ Hp El)
    as [_ K].
  rewrite HV in K. exact K.
Qed.
End CorrectorProperties.

(** ** The predictor *)

Section PredictorProperties.
Variable create_J :
  spmatrix -> list C -> list nat -> list nat -> list nat -> nat -> nat ->
  matrix.
Variable spsolve : matrix -> list R -> list R.

(** X5. The predictor holds the set points: the predicted voltage vector
    has the length of the current one, every bus outside [pq] keeps its
    voltage magnitude and every bus outside [pv] and [pq] keeps its complex
    voltage. *)
Theorem predictor_holds_set_points (V : list C) (lam : R) (Ybus : spmatrix)
  (Sxfr : list C) (pv pq : list nat) (step : R) (z : list R)
  (Vprv : list C) (lamprv : R) (parametrization : param_arg)
  (pvpq_lookup : list nat) (V0 : list C) (lam0 : R) (z' : list R) :
  predictor create_J spsolve V lam Ybus Sxfr pv pq step z Vprv lamprv
    parametrization pvpq_lookup = Ok (V0, lam0, z') ->
  kept pv pq V V0.
Proof.
  intros H.
  destruct (predictor_polar _ _ _ _ _ _ _ _ _ _ _ _ _ _ _ _ _ H)
    as (Vm0 & Va0 & -> & LA & LM & FA & FM).
  apply polar_kept; assumption.
Qed.
End PredictorProperties.

(** ** The parametrization function and its derivatives *)

(** X6. For the Natural and the ArcLength schemes the derivative with
    respect to lambda that [cpf_p_jac] returns is never zero (for ArcLength
    the value [1] replaces the vanishing derivative at [lam = lamprv]), so
    the last row of the augmented Jacobian is never a zero row. *)
Theorem cpf_p_jac_lambda_slope_nonzero (p : VCParametrization) (z : list R)
  (V Vprv : list C) (lam lamprv : R) (pv pq pvpq : list nat)
  (dP_dV : list R) (dP_dlam : R) :
  p <> PseudoArcLength ->
  cpf_p_jac (Param p) z V lam Vprv lamprv pv pq pvpq = Ok (dP_dV, dP_dlam) ->
  dP_dlam <> 0.
Proof.
  intros Hp H. destruct p; [| |contradiction]; unfold cpf_p_jac in H.
  - destruct (Rleb lamprv lam); injection H as _ <-; lra.
  - destruct (take_idx (map angle V) pvpq); [|discriminate]. cbn [bind] in H.
    destruct (take_idx (map Cabs V) pq); [|discriminate]. cbn [bind] in H.
    destruct (take_idx (map angle Vprv) pvpq); [|discriminate].
    cbn [bind] in H.
    destruct (take_idx (map Cabs Vprv) pq); [|discriminate]. cbn [bind] in H.
    destruct (elementwise Rminus _ _); [|discriminate]. cbn [bind] in H.
    unfold Reqb in H. destruct (Req_dec_T lam lamprv);
      injection H as _ <-; lra.
Qed.

(** X7. [cpf_p_jac] agrees with [cpf_p] in lambda: wherever [cpf_p] is
    defined, the [dP_dlam] returned by [cpf_p_jac] is the derivative of the
    value of [cpf_p] with respect to [lam] - for the PseudoArcLength scheme
    at every [lam], for the Natural and the ArcLength schemes at every
    [lam] other than [lamprv]. *)
Theorem cpf_p_jac_is_lambda_derivative (p : VCParametrization) (step : R)
  (z : list R) (V Vprv : list C) (lam lamprv : R) (pv pq pvpq : list nat)
  (dP_dV : list R) (dP_dlam : R) :
  (p <> PseudoArcLength -> lam <> lamprv) ->
  is_ok (cpf_p (Param p) step z V lam Vprv lamprv pv pq pvpq) ->
  cpf_p_jac (Param p) z V lam Vprv lamprv pv pq pvpq = Ok (dP_dV, dP_dlam) ->
  derivable_pt_lim (cpf_p_value (Param p) step z V Vprv lamprv pv pq pvpq)
    lam dP_dlam.
Proof.
  intros Hne Hok HJ.
  destruct (cpf_p (Param p) step z V lam Vprv lamprv pv pq pvpq) as [P0|]
    eqn:EP; [clear Hok | contradiction].
  destruct p.
  - (* Natural *)
    assert (Hl : lam <> lamprv) by (apply Hne; discriminate).
    assert (Hd : 0 < Rabs (lam - lamprv)) by (apply Rabs_pos_lt; lra).
    intros eps Heps. exists (mkposreal _ Hd). intros h Hh Hlt. simpl in Hlt.
    unfold cpf_p_value, cpf_p. unfold cpf_p_jac in HJ.
    destruct (Rle_dec lamprv lam) as [Hle|Hgt].
    + rewrite (Rabs_right (lam - lamprv)) in Hlt by lra.
      assert (Hle' : lamprv <= lam + h).
      { unfold Rabs in Hlt. destruct (Rcase_abs h); lra. }
      rewrite !Rleb_true by assumption. rewrite Rleb_true in HJ by assumption.
      injection HJ as _ <-.
      replace ((lam + h - lamprv - step - (lam - lamprv - step)) / h - 1)
        with 0 by (field; exact Hh).
      rewrite Rabs_R0. exact Heps.
    + rewrite (Rabs_left (lam - lamprv)) in Hlt by lra.
      assert (Hgt' : lam + h < lamprv).
      { unfold Rabs in Hlt. destruct (Rcase_abs h); lra. }
      rewrite !Rleb_false by lra. rewrite Rleb_false in HJ by lra.
      injection HJ as _ <-.
      replace ((lamprv - (lam + h) - step - (lamprv - lam - step)) / h - -1)
        with 0 by (field; exact Hh).
      rewrite Rabs_R0. exact Heps.
  - (* ArcLength *)
    assert (Hl : lam <> lamprv) by (apply Hne; discriminate).
    destruct (cpf_p_arc_in_lam _ _ _ _ _ _ _ _ _ _ EP) as (K & HK).
    assert (Ed : dP_dlam = 2 * (lam - lamprv)).
    { unfold cpf_p_jac in HJ.
      destruct (take_idx (map angle V) pvpq); [|discriminate].
      cbn [bind] in HJ.
      destruct (take_idx (map Cabs V) pq); [|discriminate]. cbn [bind] in HJ.
      destruct (take_idx (map angle Vprv) pvpq); [|discriminate].
      cbn [bind] in HJ.
      destruct (take_idx (map Cabs Vprv) pq); [|discriminate].
      cbn [bind] in HJ.
      destruct (elementwise Rminus _ _); [|discriminate]. cbn [bind] in HJ.
      rewrite Reqb_false in HJ by exact Hl. injection HJ as _ <-.
      reflexivity. }
    intros eps Heps. exists (mkposreal _ Heps). intros h Hh Hlt.
    simpl in Hlt. unfold cpf_p_value. rewrite !HK, Ed.
    replace ((K + (lam + h - lamprv) ^ 2 - step ^ 2 -
              (K + (lam - lamprv) ^ 2 - step ^ 2)) / h - 2 * (lam - lamprv))
      with h by (field; exact Hh).
    exact Hlt.
  - (* PseudoArcLength *)
    destruct (cpf_p_pseudo_in_lam _ _ _ _ _ _ _ _ _ _ EP)
      as (K & zl & Hz & HK).
    assert (Ed : dP_dlam = zl).
    { unfold cpf_p_jac in HJ.
      destruct (take_idx z _); [|discriminate]. cbn [bind] in HJ.
      rewrite Hz in HJ. cbn [bind] in HJ. injection HJ as _ <-.
      reflexivity. }
    intros eps Heps. exists (mkposreal _ Heps). intros h Hh Hlt.
    unfold cpf_p_value. rewrite !HK, Ed.
    replace ((K + zl * (lam + h - lamprv) - step -
              (K + zl * (lam - lamprv) - step)) / h - zl)
      with 0 by (field; exact Hh).
    rewrite Rabs_R0. exact Heps.
Qed.

(** ** The continuation driver *)

Section DriverProperties.
Variable create_J :
  spmatrix -> list C -> list nat -> list nat -> list nat -> nat -> nat ->
  matrix.
Variable spsolve : matrix -> list R -> list R.
Variable control_q_direct :
  list C -> list R -> list R -> list R -> list R -> list Z -> list Z ->
  list C * list R * list Z * bool.
Variable compile_types :
  list C -> list Z -> list nat * list nat * list nat * list nat.

(** X8. A run that returns with [success = True] has met its stop
    condition at the last point: with [Nose] the last lambda is below the
    one before, with [Full] the last lambda is within [1e-8] of zero.  (A
    return without the stop condition met always has [success = False].) *)
Theorem successful_return_met_stop_condition (fuel : nat) (Ybus : spmatrix)
  (Sbus_base Sbus_target V : list C) (pv pq : list nat) (step : R)
  (approximation_order : param_arg) (adapt_step : bool)
  (step_min step_max error_tol tol : R) (max_it : nat) (stop_at : stop_arg)
  (controlQ : ReactivePowerControlMode) (Qmax_bus Qmin_bus : list R)
  (original_bus_types : option (list Z)) (has_call_back : bool) :
  match continuation_nr create_J spsolve control_q_direct compile_types fuel
          Ybus Sbus_base Sbus_target V pv pq step approximation_order
          adapt_step step_min step_max error_tol tol max_it stop_at controlQ
          Qmax_bus Qmin_bus original_bus_types has_call_back with
  | Returned st => d_success st = true -> stop_met stop_at st
  | _ => True
  end.
Proof.
  pose proof (run_invariant
    (fun st => d_continuation st = false -> d_success st = true ->
               stop_met stop_at st)
    create_J spsolve control_q_direct compile_types fuel Ybus Sbus_base
    Sbus_target V pv pq step approximation_order adapt_step step_min
    step_max error_tol tol max_it stop_at controlQ Qmax_bus Qmin_bus
    original_bus_types has_call_back) as H.
  cbv beta in H.
  match type of H with
  | ?P -> _ => assert (K : P); [|specialize (H K); clear K]
  end.
  { clear H. intros Sxfr pvpq bus_types z0 pvpq_lookup _. split; [discriminate|].
    intros st st' Hc _ Hb Hc' Hs'.
    split_pass Hb; pass_fields st; destruct has_call_back;
      cbv beta iota zeta delta [d_continuation d_success d_lam d_lam_prev]
        in *;
      try discriminate; try assumption; congruence. }
  match goal with
  | |- match ?o with _ => _ end => destruct o as [st| | |st]; try exact I
  end.
  destruct H as [H Hc]. exact (H Hc).
Qed.

(** X9. With [Nose] as stop point the lambda series never decreases while
    the run goes on: at every head of the loop the series, started at the
    base value 0, is non-decreasing and ends in the current lambda.  At the
    return the series is non-decreasing up to its last point, the last
    point is the returned lambda (so the series is not empty), and after a
    converged last step that lambda is below the one before it. *)
Theorem nose_lambda_series_monotone (fuel : nat) (Ybus : spmatrix)
  (Sbus_base Sbus_target V : list C) (pv pq : list nat) (step : R)
  (approximation_order : param_arg) (adapt_step : bool)
  (step_min step_max error_tol tol : R) (max_it : nat)
  (controlQ : ReactivePowerControlMode) (Qmax_bus Qmin_bus : list R)
  (original_bus_types : option (list Z)) (has_call_back : bool) :
  match continuation_nr create_J spsolve control_q_direct compile_types fuel
          Ybus Sbus_base Sbus_target V pv pq step approximation_order
          adapt_step step_min step_max error_tol tol max_it (StopAt Nose)
          controlQ Qmax_bus Qmin_bus original_bus_types has_call_back with
  | Running st =>
      nondecreasing (0 :: d_lambda_series st) /\
      d_lam st = last (0 :: d_lambda_series st) 0
  | Returned st =>
      exists ls,
        d_lambda_series st = ls ++ [d_lam st] /\
        nondecreasing (0 :: ls) /\
        (d_success st = true -> d_lam st < last (0 :: ls) 0)
  | _ => True
  end.
Proof.
  pose proof (run_invariant
    (fun st =>
       (d_continuation st = true ->
        nondecreasing (0 :: d_lambda_series st) /\
        d_lam st = last (0 :: d_lambda_series st) 0) /\
       (d_continuation st = false ->
        exists ls,
          d_lambda_series st = ls ++ [d_lam st] /\
          nondecreasing (0 :: ls) /\
          (d_success st = true -> d_lam st < last (0 :: ls) 0)))
    create_J spsolve control_q_direct compile_types fuel Ybus Sbus_base
    Sbus_target V pv pq step approximation_order adapt_step step_min
    step_max error_tol tol max_it (StopAt Nose) controlQ Qmax_bus Qmin_bus
    original_bus_types has_call_back) as H.
  cbv beta in H.
  match type of H with
  | ?P -> _ => assert (K : P); [|specialize (H K); clear K]
  end.
  { clear H. intros Sxfr pvpq bus_types z0 pvpq_lookup _. split.
    { split; [intros _; split; [exact I | reflexivity] | discriminate]. }
    intros st st' Hc [Hrun _] Hb. specialize (Hrun Hc).
    destruct Hrun as [Hnd Hlast].
    assert (Hsn : forall x, d_lam st <= x ->
                    nondecreasing (0 :: d_lambda_series st ++ [x])).
    { intros x Hx. rewrite app_comm_cons. apply nondecreasing_snoc.
      - exact Hnd.
      - intros _. rewrite <- Hlast. exact Hx. }
    split_pass Hb; try discriminate; pass_fields st; destruct has_call_back;
      cbv beta iota zeta delta
        [d_continuation d_success d_lam d_lam_prev d_lambda_series] in *;
      try discriminate;
      (split; intros Hk; try discriminate; try congruence;
       first
         [ solve [split; [apply Hsn; lra | symmetry; apply last_cons_snoc]]
         | solve [eexists; split; [reflexivity|]; split; [exact Hnd|];
                  intros; try discriminate; rewrite <- Hlast; assumption]
         | idtac ]). }
  match goal with
  | |- match ?o with _ => _ end => destruct o as [st| | |st]; try exact I
  end.
  - destruct H as [[_ H] Hc]. exact (H Hc).
  - destruct H as [[H _] Hc]. exact (H Hc).
Qed.

(** X10. With bounds [0 <= step_min <= step <= step_max] at the call, the
    step size stays between [step_min] and [step_max] for as long as
    adaptivity is enabled, whatever the errors of the steps are. *)
Theorem adaptive_step_stays_in_bounds (fuel : nat) (Ybus : spmatrix)
  (Sbus_base Sbus_target V : list C) (pv pq : list nat) (step : R)
  (approximation_order : param_arg) (adapt_step : bool)
  (step_min step_max error_tol tol : R) (max_it : nat) (stop_at : stop_arg)
  (controlQ : ReactivePowerControlMode) (Qmax_bus Qmin_bus : list R)
  (original_bus_types : option (list Z)) (has_call_back : bool) :
  0 <= step_min -> step_min <= step <= step_max ->
  observed
    (continuation_nr create_J spsolve control_q_direct compile_types fuel
       Ybus Sbus_base Sbus_target V pv pq step approximation_order
       adapt_step step_min step_max error_tol tol max_it stop_at controlQ
       Qmax_bus Qmin_bus original_bus_types has_call_back)
    (fun st => d_adapt_step st = true -> step_min <= d_step st <= step_max).
Proof.
  intros Hmin Hstep.
  pose proof (run_invariant
    (fun st => d_adapt_step st = true -> step_min <= d_step st <= step_max)
    create_J spsolve control_q_direct compile_types fuel Ybus Sbus_base
    Sbus_target V pv pq step approximation_order adapt_step step_min
    step_max error_tol tol max_it stop_at controlQ Qmax_bus Qmin_bus
    original_bus_types has_call_back) as H.
  cbv beta in H.
  match type of H with
  | ?P -> _ => assert (K : P); [|specialize (H K); clear K]
  end.
  { clear H. intros Sxfr pvpq bus_types z0 pvpq_lookup _.
    split; [intros _; exact Hstep|].
    intros st st' Hc HI Hb.
    split_pass Hb; pass_fields st; destruct has_call_back;
      cbv beta iota zeta delta [d_adapt_step d_step] in *;
      intros Ha; try discriminate; try (apply HI; exact Ha);
      apply adapt_bounds; auto. }
  unfold observed.
  match goal with
  | |- match ?o with _ => _ end => destruct o as [st| | |st]; try exact I
  end; apply H.
Qed.

(** X11. Without reactive-limit control the run does not depend on
    [control_q_direct] and [compile_types] (they are never consulted), and
    the bus partition stays the one of the call: [pv], [pq] and the bus
    types are never reassigned and no bus power vector is re-derived. *)
Theorem no_control_keeps_partition
  (control_q_direct' :
     list C -> list R -> list R -> list R -> list R -> list Z -> list Z ->
     list C * list R * list Z * bool)
  (compile_types' :
     list C -> list Z -> list nat * list nat * list nat * list nat)
  (fuel : nat) (Ybus : spmatrix)
  (Sbus_base Sbus_target V : list C) (pv pq : list nat) (step : R)
  (approximation_order : param_arg) (adapt_step : bool)
  (step_min step_max error_tol tol : R) (max_it : nat) (stop_at : stop_arg)
  (Qmax_bus Qmin_bus : list R)
  (original_bus_types : option (list Z)) (has_call_back : bool) :
  continuation_nr create_J spsolve control_q_direct compile_types fuel
    Ybus Sbus_base Sbus_target V pv pq step approximation_order
    adapt_step step_min step_max error_tol tol max_it stop_at NoControl
    Qmax_bus Qmin_bus original_bus_types has_call_back
  = continuation_nr create_J spsolve control_q_direct' compile_types' fuel
      Ybus Sbus_base Sbus_target V pv pq step approximation_order
      adapt_step step_min step_max error_tol tol max_it stop_at NoControl
      Qmax_bus Qmin_bus original_bus_types has_call_back
  /\
  observed
    (continuation_nr create_J spsolve control_q_direct compile_types fuel
       Ybus Sbus_base Sbus_target V pv pq step approximation_order
       adapt_step step_min step_max error_tol tol max_it stop_at NoControl
       Qmax_bus Qmin_bus original_bus_types has_call_back)
    (fun st =>
       d_pv st = pv /\ d_pq st = pq /\ d_Sbus st = None /\
       original_bus_types = Some (d_bus_types st)).
Proof.
  split.
  - unfold continuation_nr.
    destruct (continuation_init _ _ _ _ _ _)
      as [[[[[Sxfr pvpq] bus_types] z0] pvpq_lookup]|e]; [|reflexivity].
    generalize (mk_dstate V V 0 0 z0 step pv pq bus_types None
                  approximation_order adapt_step true 0 0 false [] [] []).
    induction fuel as [|fuel IH]; intros st; cbn [continuation_loop];
      [reflexivity|].
    destruct (d_continuation st); [|reflexivity].
    change (loop_body create_J spsolve control_q_direct' compile_types' Ybus
              Sbus_base Sxfr pvpq pvpq_lookup step_min step_max error_tol
              tol max_it stop_at NoControl Qmax_bus Qmin_bus bus_types
              has_call_back st)
      with (loop_body create_J spsolve control_q_direct compile_types Ybus
              Sbus_base Sxfr pvpq pvpq_lookup step_min step_max error_tol
              tol max_it stop_at NoControl Qmax_bus Qmin_bus bus_types
              has_call_back st).
    destruct (loop_body _ _ _ _ _ _ _ _ _ _ _ _ _ _ _ _ _ _ _ _ st);
      [apply IH | reflexivity].
  - pose proof (run_invariant
      (fun st => d_pv st = pv /\ d_pq st = pq /\ d_Sbus st = None /\
                 original_bus_types = Some (d_bus_types st))
      create_J spsolve control_q_direct compile_types fuel Ybus Sbus_base
      Sbus_target V pv pq step approximation_order adapt_step step_min
      step_max error_tol tol max_it stop_at NoControl Qmax_bus Qmin_bus
      original_bus_types has_call_back) as H.
    cbv beta in H.
    match type of H with
    | ?P -> _ => assert (K : P); [|specialize (H K); clear K]
    end.
    { clear H. intros Sxfr pvpq bus_types z0 pvpq_lookup Hinit. split.
      { cbn. repeat split. unfold continuation_init in Hinit.
        destruct (elementwise Csub _ _); [|discriminate].
        cbn [bind] in Hinit.
        destruct original_bus_types as [t|]; [|discriminate].
        cbn [bind] in Hinit.
        destruct (np_max _); [|discriminate]. cbn [bind] in Hinit.
        destruct (put_idx _ _ _); [|discriminate]. cbn [bind] in Hinit.
        injection Hinit as _ _ <- _ _. reflexivity. }
      intros st st' Hc HI Hb.
      split_pass Hb; try discriminate; pass_fields st; destruct has_call_back;
        cbv beta iota zeta delta [d_pv d_pq d_Sbus d_bus_types] in *;
        exact HI. }
    unfold observed.
    match goal with
    | |- match ?o with _ => _ end => destruct o as [st| | |st]; try exact I
    end; apply H.
Qed.

(** X12. The call-back is called exactly once after every converged step,
    with that step's lambda and in order, and never for a step that failed
    to converge: while the run goes on, and after a return with
    [success = True], the lambdas passed to it are the lambda series; after
    a return with [success = False] they are the series without its last
    point. *)
Theorem call_back_once_per_converged_step (fuel : nat) (Ybus : spmatrix)
  (Sbus_base Sbus_target V : list C) (pv pq : list nat) (step : R)
  (approximation_order : param_arg) (adapt_step : bool)
  (step_min step_max error_tol tol : R) (max_it : nat) (stop_at : stop_arg)
  (controlQ : ReactivePowerControlMode) (Qmax_bus Qmin_bus : list R)
  (original_bus_types : option (list Z)) :
  match continuation_nr create_J spsolve control_q_direct compile_types fuel
          Ybus Sbus_base Sbus_target V pv pq step approximation_order
          adapt_step step_min step_max error_tol tol max_it stop_at controlQ
          Qmax_bus Qmin_bus original_bus_types true with
  | Running st => d_callbacks st = d_lambda_series st
  | Returned st =>
      if d_success st then d_callbacks st = d_lambda_series st
      else d_lambda_series st = d_callbacks st ++ [d_lam st]
  | _ => True
  end.
Proof.
  pose proof (run_invariant
    (fun st =>
       (d_continuation st = true -> d_callbacks st = d_lambda_series st) /\
       (d_continuation st = false ->
        if d_success st then d_callbacks st = d_lambda_series st
        else d_lambda_series st = d_callbacks st ++ [d_lam st]))
    create_J spsolve control_q_direct compile_types fuel Ybus Sbus_base
    Sbus_target V pv pq step approximation_order adapt_step step_min
    step_max error_tol tol max_it stop_at controlQ Qmax_bus Qmin_bus
    original_bus_types true) as H.
  cbv beta in H.
  match type of H with
  | ?P -> _ => assert (K : P); [|specialize (H K); clear K]
  end.
  { clear H. intros Sxfr pvpq bus_types z0 pvpq_lookup _.
    split; [split; [reflexivity | discriminate]|].
    intros st st' Hc [HI _] Hb. specialize (HI Hc).
    split_pass Hb; pass_fields st;
      cbv beta iota zeta delta
        [d_continuation d_success d_lam d_callbacks d_lambda_series] in *;
      subst; split; intros Hk; try discriminate; reflexivity. }
  match goal with
  | |- match ?o with _ => _ end => destruct o as [st| | |st]; try exact I
  end.
  - destruct H as [[_ H] Hc]. exact (H Hc).
  - destruct H as [[H _] Hc]. exact (H Hc).
Qed.

(** X13. The driver never switches adaptivity on and changes the scheme
    in one way only: wherever the run is observed, either the scheme and
    the adaptivity flag are the ones of the call, or the stop point is
    [Full], the scheme is Natural and adaptivity is off (the run has passed
    the branch "next step will overshoot"). *)
Theorem scheme_changes_only_to_natural (fuel : nat) (Ybus : spmatrix)
  (Sbus_base Sbus_target V : list C) (pv pq : list nat) (step : R)
  (approximation_order : param_arg) (adapt_step : bool)
  (step_min step_max error_tol tol : R) (max_it : nat) (stop_at : stop_arg)
  (controlQ : ReactivePowerControlMode) (Qmax_bus Qmin_bus : list R)
  (original_bus_types : option (list Z)) (has_call_back : bool) :
  observed
    (continuation_nr create_J spsolve control_q_direct compile_types fuel
       Ybus Sbus_base Sbus_target V pv pq step approximation_order
       adapt_step step_min step_max error_tol tol max_it stop_at controlQ
       Qmax_bus Qmin_bus original_bus_types has_call_back)
    (fun st =>
       (d_approximation_order st = approximation_order /\
        d_adapt_step st = adapt_step /\
        (adapt_step = false -> d_step st = step)) \/
       (stop_at = StopAt Full /\
        d_approximation_order st = Param Natural /\
        d_adapt_step st = false)).
Proof.
  pose proof (run_invariant
    (fun st =>
       (d_approximation_order st = approximation_order /\
        d_adapt_step st = adapt_step /\
        (adapt_step = false -> d_step st = step)) \/
       (stop_at = StopAt Full /\
        d_approximation_order st = Param Natural /\
        d_adapt_step st = false))
    create_J spsolve control_q_direct compile_types fuel Ybus Sbus_base
    Sbus_target V pv pq step approximation_order adapt_step step_min
    step_max error_tol tol max_it stop_at controlQ Qmax_bus Qmin_bus
    original_bus_types has_call_back) as H.
  cbv beta in H.
  match type of H with
  | ?P -> _ => assert (K : P); [|specialize (H K); clear K]
  end.
  { clear H. intros Sxfr pvpq bus_types z0 pvpq_lookup _.
    split; [left; repeat split|].
    intros st st' Hc HI Hb.
    split_pass Hb; pass_fields st; destruct has_call_back;
      cbv beta iota zeta delta [d_approximation_order d_adapt_step d_step]
        in *;
      try exact HI; try (right; repeat split; reflexivity);
      (destruct HI as [(H1 & H2 & H3) | (H1 & H2 & H3)];
       [left; repeat split; try assumption; intros Hf; congruence
       | congruence]). }
  unfold observed.
  match goal with
  | |- match ?o with _ => _ end => destruct o as [st| | |st]; try exact I
  end; apply H.
Qed.
End DriverProperties.

(** ** The driver's initialization *)

Section EntryProperties.
Variable create_J :
  spmatrix -> list C -> list nat -> list nat -> list nat -> nat -> nat ->
  matrix.
Variable spsolve : matrix -> list R -> list R.
Variable control_q_direct :
  list C -> list R -> list R -> list R -> list R -> list Z -> list Z ->
  list C * list R * list Z * bool.
Variable compile_types :
  list C -> list Z -> list nat * list nat * list nat * list nat.

(** X14. A call that leaves [original_bus_types] at its default [None]
    never makes a continuation step: with bus power vectors of one length
    it raises [AttributeError] in the initialization. *)
Theorem missing_bus_types_raise_at_entry (fuel : nat) (Ybus : spmatrix)
  (Sbus_base Sbus_target V : list C) (pv pq : list nat) (step : R)
  (approximation_order : param_arg) (adapt_step : bool)
  (step_min step_max error_tol tol : R) (max_it : nat) (stop_at : stop_arg)
  (controlQ : ReactivePowerControlMode) (Qmax_bus Qmin_bus : list R)
  (has_call_back : bool) :
  length Sbus_target = length Sbus_base ->
  continuation_nr create_J spsolve control_q_direct compile_types fuel
    Ybus Sbus_base Sbus_target V pv pq step approximation_order
    adapt_step step_min step_max error_tol tol max_it stop_at controlQ
    Qmax_bus Qmin_bus None has_call_back
  = RaisedAtEntry AttributeError.
Proof.
  intros Hlen. unfold continuation_nr, continuation_init.
  rewrite elementwise_same by exact Hlen. reflexivity.
Qed.

(** X15. The bus indices are checked against the admittance matrix in the
    initialization only through the lookup table, whose length is the
    largest row index stored in [Ybus] plus one: with bus types given, bus
    power vectors of one length and [mx] that largest index, the call
    raises [IndexError] before any step when some index of [pv] or [pq]
    exceeds [mx], and it raises nothing in the initialization
    otherwise. *)
Theorem entry_index_check (fuel : nat) (Ybus : spmatrix)
  (Sbus_base Sbus_target V : list C) (pv pq : list nat) (step : R)
  (approximation_order : param_arg) (adapt_step : bool)
  (step_min step_max error_tol tol : R) (max_it : nat) (stop_at : stop_arg)
  (controlQ : ReactivePowerControlMode) (Qmax_bus Qmin_bus : list R)
  (bus_types : list Z) (has_call_back : bool) (mx : nat) :
  length Sbus_target = length Sbus_base ->
  np_max (sp_indices Ybus) = Ok mx ->
  (Exists (fun i => (mx < i)%nat) (pv ++ pq) ->
   continuation_nr create_J spsolve control_q_direct compile_types fuel
     Ybus Sbus_base Sbus_target V pv pq step approximation_order
     adapt_step step_min step_max error_tol tol max_it stop_at controlQ
     Qmax_bus Qmin_bus (Some bus_types) has_call_back
   = RaisedAtEntry IndexError) /\
  (Forall (fun i => (i <= mx)%nat) (pv ++ pq) ->
   forall e,
     continuation_nr create_J spsolve control_q_direct compile_types fuel
       Ybus Sbus_base Sbus_target V pv pq step approximation_order
       adapt_step step_min step_max error_tol tol max_it stop_at controlQ
       Qmax_bus Qmin_bus (Some bus_types) has_call_back
     <> RaisedAtEntry e).
Proof.
  intros Hlen Hmx. unfold continuation_nr, continuation_init.
  rewrite elementwise_same by exact Hlen. cbn [bind]. rewrite Hmx.
  cbn [bind]. unfold put_idx.
  rewrite broadcast_to_same by apply length_seq. cbn [bind].
  split.
  - intros Hex. rewrite put_seq_out_of_range; [reflexivity | | ].
    + apply length_seq.
    + rewrite repeat_length. apply Exists_exists in Hex.
      destruct Hex as (i & Hin & Hi). apply Exists_exists.
      exists i. split; [exact Hin | lia].
  - intros Hall e.
    destruct (put_seq_succeeds (pv ++ pq) (seq 0 (length (pv ++ pq)))
                (repeat 0%nat (mx + 1))) as (lookup & ->).
    { rewrite repeat_length. eapply Forall_impl; [|exact Hall].
      intros i Hi. simpl in Hi. lia. }
    apply loop_not_at_entry.
Qed.

(** X16. The lookup table built in the initialization inverts [pvpq]: for
    distinct bus indices, the entry at the bus [pvpq[k]] is [k], and the
    entry at a bus outside [pvpq] is [0]. *)
Theorem lookup_table_inverts_pvpq (Ybus : spmatrix)
  (Sbus_base Sbus_target : list C) (pv pq : list nat)
  (original_bus_types : option (list Z)) (Sxfr : list C) (pvpq : list nat)
  (bus_types : list Z) (z : list R) (pvpq_lookup : list nat) :
  continuation_init Ybus Sbus_base Sbus_target pv pq original_bus_types
  = Ok (Sxfr, pvpq, bus_types, z, pvpq_lookup) ->
  NoDup (pv ++ pq) ->
  pvpq = pv ++ pq /\
  (forall k, (k < length pvpq)%nat ->
             nth (nth k pvpq 0%nat) pvpq_lookup 0%nat = k) /\
  (forall j, ~ In j pvpq -> nth j pvpq_lookup 0%nat = 0%nat).
Proof.
  unfold continuation_init. intros H Hnd.
  destruct (elementwise Csub _ _); [|discriminate]. cbn [bind] in H.
  destruct original_bus_types as [t|]; [|discriminate]. cbn [bind] in H.
  destruct (np_max _) as [mx|]; [|discriminate]. cbn [bind] in H.
  destruct (put_idx _ _ _) as [lookup|] eqn:E; [|discriminate].
  cbn [bind] in H. injection H as _ <- _ _ <-.
  split; [reflexivity|].
  unfold put_idx in E. rewrite broadcast_to_same in E by apply length_seq.
  cbn [bind] in E.
  pose proof (put_seq_in_range _ _ _ _ (length_seq _ _) E) as Hr.
  destruct (@put_seq_nodup nat (pv ++ pq) (seq 0 (length (pv ++ pq)))
              (repeat 0%nat (mx + 1)) Hnd Hr (length_seq _ _))
    as (v' & E' & _ & Hn).
  rewrite E in E'. injection E' as <-. split.
  - intros k Hk. rewrite (Hn k 0%nat Hk). apply seq_nth. exact Hk.
  - intros j Hj. rewrite (@put_seq_frame _ _ _ _ _ j 0%nat E Hj).
    destruct (Nat.lt_ge_cases j (mx + 1)).
    + apply nth_repeat_lt. assumption.
    + apply nth_overflow. rewrite repeat_length. assumption.
Qed.
End EntryProperties.

(** ** The pseudo-arc-length scheme *)

(** X17. Pseudo-arc-length scheme: with the indices in range and [pvpq] as
    long as [pv] and [pq] together, [P] is the dot product of the tangent
    slots [z[pv, pq, nb + pq, 2 nb]] with the difference of the two points
    in (angle at pvpq, magnitude at pq, lambda), minus [step]; at the
    previous point itself it is [- step].  When [pvpq] has another length
    the dot product fails and the call raises [ValueError]. *)
Theorem cpf_p_pseudo_arc_length (step : R) (z : list R) (V V_prev : list C)
  (lam lamprv : R) (pv pq pvpq : list nat) :
  in_range V pvpq -> in_range V pq ->
  in_range V_prev pvpq -> in_range V_prev pq ->
  in_range z (pv ++ pq ++ shift (length V) pq ++ [(2 * length V)%nat]) ->
  let a := map (fun i => nth i z 0) (pv ++ pq ++ shift (length V) pq) in
  let d := map2 Rminus (arc_slots V pq pvpq) (arc_slots V_prev pq pvpq) in
  (length pvpq = (length pv + length pq)%nat ->
   cpf_p (Param PseudoArcLength) step z V lam V_prev lamprv pv pq pvpq
   = Ok (vsum (map2 Rmult a d) + nth (2 * length V) z 0 * (lam - lamprv)
         - step)
   /\
   cpf_p (Param PseudoArcLength) step z V lamprv V lamprv pv pq pvpq
   = Ok (- step))
  /\
  (length pvpq <> (length pv + length pq)%nat ->
   cpf_p (Param PseudoArcLength) step z V lam V_prev lamprv pv pq pvpq
   = Raise ValueError).
Proof.
  intros H1 H2 H3 H4 Hz a d.
  assert (Ez : take_idx z (pv ++ pq ++ shift (length V) pq ++
                           [(2 * length V)%nat])
               = Ok (a ++ [nth (2 * length V) z 0])).
  { rewrite (@take_idx_ok _ z _ 0 Hz). unfold a.
    rewrite !app_assoc, map_app. reflexivity. }
  assert (La : length a = (length pv + length pq + length pq)%nat).
  { unfold a, shift. rewrite length_map, !length_app, length_map. lia. }
  assert (EP : forall W l lp,
            in_range W pvpq -> in_range W pq ->
            let d' := map2 Rminus (arc_slots V pq pvpq) (arc_slots W pq pvpq)
            in
            cpf_p (Param PseudoArcLength) step z V l W lp pv pq pvpq
            = (P <- dot (a ++ [nth (2 * length V) z 0]) (d' ++ [l - lp]) ;;
               Ok (P - step))).
  { intros W l lp HW1 HW2 d'. unfold cpf_p. rewrite Ez. cbn [bind].
    rewrite (take_angle _ _ H1), (take_Cabs _ _ H2). cbn [bind].
    rewrite (take_angle _ _ HW1), (take_Cabs _ _ HW2). cbn [bind].
    rewrite elementwise_same
      by (rewrite !length_app, !length_map; reflexivity).
    cbn [bind]. rewrite !app_assoc.
    rewrite map2_snoc by (rewrite !length_app, !length_map; reflexivity).
    reflexivity. }
  assert (Ld : forall W, length (map2 Rminus (arc_slots V pq pvpq)
                                   (arc_slots W pq pvpq))
                         = (length pvpq + length pq)%nat).
  { intros W. unfold arc_slots.
    rewrite map2_length, !length_app, !length_map. lia. }
  split.
  - intros Hlen.
    assert (Edot : forall W x,
              dot (a ++ [nth (2 * length V) z 0])
                (map2 Rminus (arc_slots V pq pvpq) (arc_slots W pq pvpq)
                 ++ [x])
              = Ok (vsum (map2 Rmult a
                            (map2 Rminus (arc_slots V pq pvpq)
                               (arc_slots W pq pvpq)))
                    + nth (2 * length V) z 0 * x)).
    { intros W x. unfold dot. rewrite !length_app, Ld, La. simpl.
      replace (length pv + length pq + length pq + 1 =?
               length pvpq + length pq + 1)%nat with true
        by (symmetry; apply Nat.eqb_eq; lia).
      rewrite map2_snoc by (rewrite Ld, La; lia).
      rewrite vsum_snoc. reflexivity. }
    split.
    + rewrite (EP V_prev lam lamprv H3 H4). cbv zeta. rewrite Edot.
      reflexivity.
    + rewrite (EP V lamprv lamprv H1 H2). cbv zeta. rewrite Edot.
      cbn [bind]. rewrite vsum_mult_zero. f_equal. ring.
  - intros Hlen. rewrite (EP V_prev lam lamprv H3 H4). cbv zeta.
    unfold dot. rewrite !length_app, Ld, La. simpl.
    replace (length pv + length pq + length pq + 1 =?
             length pvpq + length pq + 1)%nat with false
      by (symmetry; apply Nat.eqb_neq; lia).
    reflexivity.
Qed.

(** ** A step of length zero *)

Section PredictorZeroStep.
Variable create_J :
  spmatrix -> list C -> list nat -> list nat -> list nat -> nat -> nat ->
  matrix.
Variable spsolve : matrix -> list R -> list R.

(** X18. With a step of length zero the predictor returns the current point:
    in exact arithmetic the predicted voltages are the current voltages and
    the predicted lambda is the current lambda, whatever the tangent is. *)
Theorem predictor_zero_step (V : list C) (lam : R) (Ybus : spmatrix)
  (Sxfr : list C) (pv pq : list nat) (z : list R)
  (Vprv : list C) (lamprv : R) (parametrization : param_arg)
  (pvpq_lookup : list nat) (V0 : list C) (lam0 : R) (z' : list R) :
  predictor create_J spsolve V lam Ybus Sxfr pv pq 0 z Vprv lamprv
    parametrization pvpq_lookup = Ok (V0, lam0, z') ->
  V0 = V /\ lam0 = lam.
Proof.
  unfold predictor. intros H.
  destruct (tangent_system _ _ _ _ _ _ _ _ _ _ _ _) as [J2|]; [|discriminate].
  cbn [bind] in H.
  destruct (tangent _ _ _ _ _) as [z1|]; [|discriminate]. cbn [bind] in H.
  destruct (take_idx (map angle V) (pv ++ pq)) as [a|] eqn:Ea;
    [|discriminate]. cbn [bind] in H.
  destruct (take_idx z1 (pv ++ pq)) as [za|] eqn:Eza; [|discriminate].
  cbn [bind] in H.
  rewrite elementwise_same in H
    by (rewrite length_map, (take_idx_length _ _ _ Ea),
          (take_idx_length _ _ _ Eza); reflexivity).
  cbn [bind] in H.
  rewrite map2_plus_zero in H
    by (rewrite (take_idx_length _ _ _ Ea), (take_idx_length _ _ _ Eza);
        reflexivity).
  destruct (put_idx (map angle V) (pv ++ pq) a) as [Va0|] eqn:Epa;
    [|discriminate]. cbn [bind] in H.
  apply (put_idx_same _ _ _ _ Ea) in Epa. subst Va0.
  destruct (take_idx (map Cabs V) pq) as [m|] eqn:Em; [|discriminate].
  cbn [bind] in H.
  destruct (take_idx z1 (shift (length V) pq)) as [zm|] eqn:Ezm;
    [|discriminate]. cbn [bind] in H.
  assert (Lm : length m = length zm).
  { rewrite (take_idx_length _ _ _ Em), (take_idx_length _ _ _ Ezm).
    unfold shift. rewrite length_map. reflexivity. }
  rewrite elementwise_same in H by (rewrite length_map; exact Lm).
  cbn [bind] in H. rewrite map2_plus_zero in H by exact Lm.
  destruct (put_idx (map Cabs V) pq m) as [Vm0|] eqn:Epm; [|discriminate].
  cbn [bind] in H.
  apply (put_idx_same _ _ _ _ Em) in Epm. subst Vm0.
  destruct (getitem z1 _) as [zl|]; [|discriminate]. cbn [bind] in H.
  rewrite elementwise_same in H by (rewrite !length_map; reflexivity).
  cbn [bind] in H. rewrite map2_polar_abs_angle in H.
  injection H as <- <- _. split; [reflexivity | ring].
Qed.
End PredictorZeroStep.

(** ** The Natural scheme in the corrector *)

Section NaturalCorrector.
Variable create_J :
  spmatrix -> list C -> list nat -> list nat -> list nat -> nat -> nat ->
  matrix.
Variable spsolve : matrix -> list R -> list R.
Variable Ybus : spmatrix.
Variable Sbus : list C.
Variable pv pq : list nat.
Variable Sxfr : list C.
Variable Vprv : list C.
Variable lamprv : R.
Variable z : list R.
Variable step : R.
Variable tol : R.
Variable pvpq_lookup : list nat.

(** X19. With the Natural scheme and a step that is not negative, a
    corrector call that iterates returns lambda exactly one step away from
    the previous lambda: when every linear system of its Newton iterations
    is solved exactly, the returned [lam] is [lamprv + step] for an initial
    guess [lam0 >= lamprv], and [lamprv - step] for [lam0 < lamprv]. *)
Theorem natural_corrector_lands_on_step (V0 V : list C)
  (lam0 lam normF : R) (Scalc : list C) (converged : bool) (i max_it : nat)
  (s0 : cstate) :
  0 <= step ->
  corrector_init Ybus Sbus pv pq Sxfr Vprv lamprv z step (Param Natural) tol
    V0 lam0 = Ok s0 ->
  corrector create_J spsolve Ybus Sbus pv pq Sxfr Vprv lamprv z step
    (Param Natural) tol pvpq_lookup V0 lam0 max_it
  = Ok (V, converged, i, lam, normF, Scalc) ->
  (forall n sn J2,
     (n < i)%nat ->
     newton_iter create_J spsolve Ybus Sbus pv pq Sxfr Vprv lamprv z step
       (Param Natural) tol pvpq_lookup n s0 = Ok sn ->
     tangent_system create_J (c_V sn) (c_lam sn) Ybus Sxfr pv pq z Vprv
       lamprv (Param Natural) pvpq_lookup = Ok J2 ->
     solves J2 (spsolve J2 (c_F sn)) (c_F sn)) ->
  (1 <= i)%nat ->
  lam = if Rleb lamprv lam0 then lamprv + step else lamprv - step.
Proof.
  intros Hstep E0 H Hsol Hi. unfold corrector in H. rewrite E0 in H.
  cbn [bind] in H.
  destruct (newton_loop _ _ _ _ _ _ _ _ _ _ _ _ _ _ max_it s0) as [s|] eqn:El;
    [|discriminate]. cbn [bind] in H. injection H as _ _ <- <- _ _.
  learn corrector_init_fields E0 as Hf. destruct Hf as (_ & Hl0 & Ei).
  learn corrector_init_settled E0 as Hs0.
  learn newton_loop_iter El as Hit. destruct Hit as (n & Hn & _ & Hit).
  rewrite Ei in Hn. simpl in Hn. subst n.
  set (f := fun l => if Rleb lamprv l then lamprv + step else lamprv - step).
  assert (Hf : forall l, f (f l) = f l).
  { intros l. unfold f, Rleb.
    destruct (Rle_dec lamprv l).
    - destruct (Rle_dec lamprv (lamprv + step)); [reflexivity | lra].
    - destruct (Rle_dec lamprv (lamprv - step)); [lra | reflexivity]. }
  assert (G : forall k sk,
            (k < c_i s)%nat ->
            newton_iter create_J spsolve Ybus Sbus pv pq Sxfr Vprv lamprv z
              step (Param Natural) tol pvpq_lookup (S k) s0 = Ok sk ->
            c_lam sk = f lam0).
  { induction k as [|k IH]; intros sk Hk Hsk;
      learn newton_iter_snoc Hsk as Hsn; destruct Hsn as (sn & Hn & Hs).
    - cbn [newton_iter] in Hn. injection Hn as <-.
      rewrite (natural_newton_step _ _ _ _ _ _ _ _ _ _ _ _ _ _ _ Hs0 Hs).
      + rewrite Hl0. reflexivity.
      + intros J2 HJ. apply (Hsol 0%nat s0 J2 Hk eq_refl HJ).
    - pose proof (IH sn ltac:(lia) Hn) as Hlam.
      pose proof (newton_iter_settled _ _ _ _ _ _ _ _ _ _ _ _ _ _ _ _
                    Hs0 Hn) as Hsn.
      rewrite (natural_newton_step _ _ _ _ _ _ _ _ _ _ _ _ _ _ _ Hsn Hs).
      + rewrite Hlam. apply Hf.
      + intros J2 HJ. apply (Hsol (S k) sn J2 Hk Hn HJ). }
  destruct (c_i s) as [|k] eqn:Ek; [lia|].
  apply (G k s (Nat.lt_succ_diag_r k) Hit).
Qed.
End NaturalCorrector.

(** ** Exceptions of the parametrization function *)

(** X20. Called as the corrector and the predictor call them (with
    [pvpq = r_[pv, pq]]), [cpf_p] and [cpf_p_jac] raise nothing but
    [IndexError]; [cpf_p] never raises for the Natural scheme or for an
    unrecognized scheme value, and [cpf_p_jac] never raises for the Natural
    scheme. *)
Theorem cpf_p_raises_only_index_error (parametrization : param_arg)
  (step : R) (z : list R) (V Vprv : list C) (lam lamprv : R)
  (pv pq : list nat) (e : exn) :
  (cpf_p parametrization step z V lam Vprv lamprv pv pq (pv ++ pq) = Raise e ->
   e = IndexError /\
   (parametrization = Param ArcLength \/
    parametrization = Param PseudoArcLength)) /\
  (cpf_p_jac parametrization z V lam Vprv lamprv pv pq (pv ++ pq) = Raise e ->
   e = IndexError /\ parametrization <> Param Natural).
Proof.
  split.
  - unfold cpf_p. destruct parametrization as [[| |]|v].
    + destruct (Rleb lamprv lam); discriminate.
    + intros H. split; [|left; reflexivity].
      destruct (take_idx (map angle V) (pv ++ pq)) as [a1|] eqn:E1;
        [|injection H as <-; eapply take_idx_raise; exact E1].
      cbn [bind] in H.
      destruct (take_idx (map Cabs V) pq) as [a2|] eqn:E2;
        [|injection H as <-; eapply take_idx_raise; exact E2].
      cbn [bind] in H.
      destruct (take_idx (map angle Vprv) (pv ++ pq)) as [b1|] eqn:E3;
        [|injection H as <-; eapply take_idx_raise; exact E3].
      cbn [bind] in H.
      destruct (take_idx (map Cabs Vprv) pq) as [b2|] eqn:E4;
        [|injection H as <-; eapply take_idx_raise; exact E4].
      cbn [bind] in H.
      apply take_idx_length in E1, E2, E3, E4.
      rewrite elementwise_same in H by (rewrite !length_app; simpl; lia).
      discriminate.
    + intros H. split; [|right; reflexivity].
      destruct (take_idx z _) as [a|] eqn:Ea;
        [|injection H as <-; eapply take_idx_raise; exact Ea].
      cbn [bind] in H.
      destruct (take_idx (map angle V) (pv ++ pq)) as [a1|] eqn:E1;
        [|injection H as <-; eapply take_idx_raise; exact E1].
      cbn [bind] in H.
      destruct (take_idx (map Cabs V) pq) as [a2|] eqn:E2;
        [|injection H as <-; eapply take_idx_raise; exact E2].
      cbn [bind] in H.
      destruct (take_idx (map angle Vprv) (pv ++ pq)) as [b1|] eqn:E3;
        [|injection H as <-; eapply take_idx_raise; exact E3].
      cbn [bind] in H.
      destruct (take_idx (map Cabs Vprv) pq) as [b2|] eqn:E4;
        [|injection H as <-; eapply take_idx_raise; exact E4].
      cbn [bind] in H.
      apply take_idx_length in Ea, E1, E2, E3, E4.
      rewrite elementwise_same in H by (rewrite !length_app; simpl; lia).
      cbn [bind] in H. unfold dot in H.
      rewrite map2_length, !length_app in H. simpl in H.
      rewrite Ea, E1, E2, E3, E4 in H. unfold shift in H.
      rewrite !length_app, length_map in H. simpl in H.
      match type of H with
      | context [(?x =? ?y)%nat] =>
          replace (x =? y)%nat with true in H
            by (symmetry; apply Nat.eqb_eq; lia)
      end.
      discriminate.
    + destruct (Rleb lamprv lam); discriminate.
  - unfold cpf_p_jac. destruct parametrization as [[| |]|v].
    + destruct (Rleb lamprv lam); discriminate.
    + intros H. split; [|discriminate].
      destruct (take_idx (map angle V) (pv ++ pq)) as [a1|] eqn:E1;
        [|injection H as <-; eapply take_idx_raise; exact E1].
      cbn [bind] in H.
      destruct (take_idx (map Cabs V) pq) as [a2|] eqn:E2;
        [|injection H as <-; eapply take_idx_raise; exact E2].
      cbn [bind] in H.
      destruct (take_idx (map angle Vprv) (pv ++ pq)) as [b1|] eqn:E3;
        [|injection H as <-; eapply take_idx_raise; exact E3].
      cbn [bind] in H.
      destruct (take_idx (map Cabs Vprv) pq) as [b2|] eqn:E4;
        [|injection H as <-; eapply take_idx_raise; exact E4].
      cbn [bind] in H.
      apply take_idx_length in E1, E2, E3, E4.
      rewrite elementwise_same in H by (rewrite !length_app; lia).
      cbn [bind] in H. destruct (Reqb lam lamprv); discriminate.
    + intros H. split; [|discriminate].
      destruct (take_idx z _) as [a|] eqn:Ea;
        [|injection H as <-; eapply take_idx_raise; exact Ea].
      cbn [bind] in H. unfold getitem in H.
      destruct (nth_error z _); [discriminate|].
      injection H as <-. reflexivity.
    + intros H. split; [|discriminate].
      destruct (take_idx z _) as [a|] eqn:Ea;
        [|injection H as <-; eapply take_idx_raise; exact Ea].
      cbn [bind] in H. unfold getitem in H.
      destruct (nth_error z _); [discriminate|].
      injection H as <-. reflexivity.
Qed.

(** ** Set points along a run *)

Section RunProperties.
Variable create_J :
  spmatrix -> list C -> list nat -> list nat -> list nat -> nat -> nat ->
  matrix.
Variable spsolve : matrix -> list R -> list R.
Variable control_q_direct :
  list C -> list R -> list R -> list R -> list R -> list Z -> list Z ->
  list C * list R * list Z * bool.
Variable compile_types :
  list C -> list Z -> list nat * list nat * list nat * list nat.

(** X21. Without reactive-limit control the whole run holds the set points
    of the call (in exact arithmetic): the current voltage vector and every
    vector of the voltage series have the length of the initial [V], the
    voltage magnitude of [V] at every bus outside [pq], and the complex
    voltage of [V] at every bus outside [pv] and [pq]. *)
Theorem run_holds_set_points (fuel : nat) (Ybus : spmatrix)
  (Sbus_base Sbus_target V : list C) (pv pq : list nat) (step : R)
  (approximation_order : param_arg) (adapt_step : bool)
  (step_min step_max error_tol tol : R) (max_it : nat) (stop_at : stop_arg)
  (Qmax_bus Qmin_bus : list R)
  (original_bus_types : option (list Z)) (has_call_back : bool) :
  observed
    (continuation_nr create_J spsolve control_q_direct compile_types fuel
       Ybus Sbus_base Sbus_target V pv pq step approximation_order
       adapt_step step_min step_max error_tol tol max_it stop_at NoControl
       Qmax_bus Qmin_bus original_bus_types has_call_back)
    (fun st =>
       kept pv pq V (d_V st) /\
       Forall (kept pv pq V) (d_voltage_series st)).
Proof.
  pose proof (run_invariant
    (fun st =>
       d_pv st = pv /\ d_pq st = pq /\ kept pv pq V (d_V st) /\
       Forall (kept pv pq V) (d_voltage_series st))
    create_J spsolve control_q_direct compile_types fuel Ybus Sbus_base
    Sbus_target V pv pq step approximation_order adapt_step step_min
    step_max error_tol tol max_it stop_at NoControl Qmax_bus Qmin_bus
    original_bus_types has_call_back) as H.
  cbv beta in H.
  match type of H with
  | ?P -> _ => assert (K : P); [|specialize (H K); clear K]
  end.
  { clear H. intros Sxfr pvpq bus_types z0 pvpq_lookup _. split.
    { cbn. repeat split; constructor. }
    intros st st' Hc (Hpv & Hpq & HV & Hser) Hb.
    apply loop_body_next in Hb.
    destruct Hb as (pV0 & plam0 & pz & pV & psuccess & pit & plam & pnormF &
                    pScalc & Hpred & Hcorr & Hrest).
    rewrite Hpv, Hpq in Hpred, Hcorr.
    apply predictor_polar in Hpred.
    destruct Hpred as (Vm0 & Va0 & -> & LA & LM & FA & FM).
    pose proof (polar_kept pv pq (d_V st) Vm0 Va0 LA LM FA FM) as Hpred.
    assert (Hck : kept pv pq (map2 polar Vm0 Va0) pV).
    { unfold corrector in Hcorr.
      destruct (corrector_init _ _ _ _ _ _ _ _ _ _ _ _ plam0) as [s0|] eqn:E0;
        [|discriminate]. cbn [bind] in Hcorr.
      destruct (newton_loop _ _ _ _ _ _ _ _ _ _ _ _ _ _ max_it s0)
        as [s|] eqn:El; [|discriminate].
      cbn [bind] in Hcorr. injection Hcorr as <- _ _ _ _ _.
      learn corrector_init_polar_form E0 as Hp. destruct Hp as [Hp HV0].
      destruct (newton_loop_kept _ _ _ _ _ _ _ _ _ _ _ _ _ _ _ _ _ Hp El)
        as [_ K].
      rewrite HV0 in K. exact K. }
    clear Hcorr. rename Hck into Hcorr.
    assert (HpV : kept pv pq V pV).
    { eapply kept_trans; [exact HV|]. eapply kept_trans; eassumption. }
    assert (Hser' : Forall (kept pv pq V) (d_voltage_series st ++ [pV])).
    { apply Forall_app. split; [exact Hser|]. constructor; [exact HpV|].
      constructor. }
    clear Hpred Hcorr HV Hser. cbv zeta in Hrest.
    destruct psuccess.
    - destruct Hrest as (st1 & st2 & st3 & E1 & E2 & E3 & Est).
      unfold check_controls in E1. injection E1 as E1.
      apply check_stop_cases in E2.
      destruct E2 as [[E2 Hstop] | [[E2 Hstop]
                     | (Hfull & Hstop & Hback & Hover & E2)]];
        apply adapt_step_size_cases in E3;
        destruct E3 as [E3 | (pe & Hadapt & Hcont & He & E3)];
        unfold call_back in Est;
        pass_fields st; destruct has_call_back;
        cbv beta iota zeta delta [d_pv d_pq d_V d_voltage_series] in *;
        auto.
    - pass_fields st.
      cbv beta iota zeta delta [d_pv d_pq d_V d_voltage_series] in *.
      auto. }
  unfold observed.
  match goal with
  | |- match ?o with _ => _ end => destruct o as [st| | |st]; try exact I
  end; destruct H as [(_ & _ & H1 & H2) _]; auto.
Qed.
End RunProperties.

(** ** The returned flag and norm *)

Section ReturnProperties.
Variable create_J :
  spmatrix -> list C -> list nat -> list nat -> list nat -> nat -> nat ->
  matrix.
Variable spsolve : matrix -> list R -> list R.
Variable control_q_direct :
  list C -> list R -> list R -> list R -> list R -> list Z -> list Z ->
  list C * list R * list Z * bool.
Variable compile_types :
  list C -> list Z -> list nat * list nat * list nat * list nat.

(** X22. The [success] and [normF] that the driver returns belong
    together: [success] is [True] exactly when [normF < tol]; and at every
    head of the loop after the first pass the last step has converged, with
    [normF < tol]. *)
Theorem returned_success_is_tolerance_test (fuel : nat) (Ybus : spmatrix)
  (Sbus_base Sbus_target V : list C) (pv pq : list nat) (step : R)
  (approximation_order : param_arg) (adapt_step : bool)
  (step_min step_max error_tol tol : R) (max_it : nat) (stop_at : stop_arg)
  (controlQ : ReactivePowerControlMode) (Qmax_bus Qmin_bus : list R)
  (original_bus_types : option (list Z)) (has_call_back : bool) :
  match continuation_nr create_J spsolve control_q_direct compile_types fuel
          Ybus Sbus_base Sbus_target V pv pq step approximation_order
          adapt_step step_min step_max error_tol tol max_it stop_at controlQ
          Qmax_bus Qmin_bus original_bus_types has_call_back with
  | Returned st => d_success st = true <-> d_normF st < tol
  | Running st =>
      (1 <= d_cont_steps st)%nat ->
      d_success st = true /\ d_normF st < tol
  | _ => True
  end.
Proof.
  pose proof (run_invariant
    (fun st =>
       (d_continuation st = false ->
        d_success st = true <-> d_normF st < tol) /\
       (d_continuation st = true -> (1 <= d_cont_steps st)%nat ->
        d_success st = true /\ d_normF st < tol))
    create_J spsolve control_q_direct compile_types fuel Ybus Sbus_base
    Sbus_target V pv pq step approximation_order adapt_step step_min
    step_max error_tol tol max_it stop_at controlQ Qmax_bus Qmin_bus
    original_bus_types has_call_back) as H.
  cbv beta in H.
  match type of H with
  | ?P -> _ => assert (K : P); [|specialize (H K); clear K]
  end.
  { clear H. intros Sxfr pvpq bus_types z0 pvpq_lookup _. split.
    { cbn. split; [discriminate | intros _ Hle; lia]. }
    intros st st' Hc _ Hb.
    apply loop_body_next in Hb.
    destruct Hb as (pV0 & plam0 & pz & pV & psuccess & pit & plam & pnormF &
                    pScalc & Hpred & Hcorr & Hrest).
    apply corrector_settled in Hcorr.
    destruct Hcorr as (s & Hs & _ & Hconv & _ & Hnorm & _).
    apply settled_residual in Hs.
    destruct Hs as (mismatch & P & m1 & m2 & _ & _ & _ & _ & _ & HC).
    rewrite <- Hconv, <- Hnorm in HC. clear Hconv Hnorm s.
    assert (Hcorr : psuccess = true <-> pnormF < tol).
    { rewrite HC. unfold Rltb.
      destruct (Rlt_dec pnormF tol); split; intros; try assumption;
        try reflexivity; try discriminate; contradiction. }
    clear HC Hpred. cbv zeta in Hrest.
    destruct psuccess.
    - assert (Hn : pnormF < tol) by (apply Hcorr; reflexivity).
      destruct Hrest as (st1 & st2 & st3 & E1 & E2 & E3 & Est).
      apply check_controls_cases in E1.
      destruct E1 as (pVc & [E1 | (pv' & pq' & types' & Sbus' & Hdirect & E1)]);
        apply check_stop_cases in E2;
        destruct E2 as [[E2 Hstop] | [[E2 Hstop]
                       | (Hfull & Hstop & Hback & Hover & E2)]];
        apply adapt_step_size_cases in E3;
        destruct E3 as [E3 | (pe & Hadapt & Hcont & He & E3)];
        unfold call_back in Est;
        pass_fields st; destruct has_call_back;
        cbv beta iota zeta delta
          [d_continuation d_success d_normF d_cont_steps] in *;
        (split; [intros _; split; auto | intros _ _; split; auto]).
    - pass_fields st.
      cbv beta iota zeta delta
        [d_continuation d_success d_normF d_cont_steps] in *.
      split; [intros _; exact Hcorr | discriminate]. }
  match goal with
  | |- match ?o with _ => _ end => destruct o as [st| | |st]; try exact I
  end.
  - destruct H as [[H _] Hc]. exact (H Hc).
  - destruct H as [[_ H] Hc]. exact (H Hc).
Qed.
End ReturnProperties.

(** * Instances on the two-bus network *)


Lemma corrector_iteration_count_witness :
  (1 <= 20)%nat /\
  (true = false -> 1%nat = 20%nat) /\
  (1%nat = 0%nat ->
   c_V (ex_s1 (1 / 10) (1 / 20)) = ex_V /\ 1 / 10 = 1 / 10).
Proof.
  exact (corrector_iteration_count ex_create_J back_subst ex_Ybus ex_Sbus
           ex_pv ex_pq ex_Sxfr ex_V 0 ex_z (1 / 10) (Param Natural) (1 / 20)
           [0%nat; 0%nat] ex_V (c_V (ex_s1 (1 / 10) (1 / 20))) (1 / 10)
           (1 / 10) (9 / 1600) (c_Scalc (ex_s1 (1 / 10) (1 / 20))) true 1 20
           (@ex_corrector 19 [0%nat; 0%nat])).
Defined.

Lemma corrector_flag_is_tolerance_test_witness :
  true = true <-> 9 / 1600 < 1 / 20.
Proof.
  exact (corrector_flag_is_tolerance_test ex_create_J back_subst ex_Ybus
           ex_Sbus ex_pv ex_pq ex_Sxfr ex_V 0 ex_z (1 / 10) (Param Natural)
           (1 / 20) [0%nat; 0%nat] ex_V (c_V (ex_s1 (1 / 10) (1 / 20)))
           (1 / 10) (1 / 10) (9 / 1600) (c_Scalc (ex_s1 (1 / 10) (1 / 20)))
           true 1 20 (@ex_corrector 19 [0%nat; 0%nat])).
Defined.

Lemma converged_point_balances_witness :
  exists mismatch P,
    calc_mismatch ex_Ybus ex_Sbus ex_Sxfr (c_V (ex_s1 (1 / 10) (1 / 20)))
      (1 / 10)
    = Ok (c_Scalc (ex_s1 (1 / 10) (1 / 20)), mismatch) /\
    cpf_p (Param Natural) (1 / 10) ex_z (c_V (ex_s1 (1 / 10) (1 / 20)))
      (1 / 10) ex_V 0 ex_pv ex_pq (ex_pv ++ ex_pq) = Ok P /\
    Rabs P < 1 / 20 /\
    (forall k, In k (ex_pv ++ ex_pq) ->
               Rabs (Cre (nth k mismatch (0, 0))) < 1 / 20) /\
    (forall k, In k ex_pq -> Rabs (Cim (nth k mismatch (0, 0))) < 1 / 20).
Proof.
  exact (converged_point_balances ex_create_J back_subst ex_Ybus ex_Sbus
           ex_pv ex_pq ex_Sxfr ex_V 0 ex_z (1 / 10) (Param Natural) (1 / 20)
           [0%nat; 0%nat] ex_V (c_V (ex_s1 (1 / 10) (1 / 20))) (1 / 10)
           (1 / 10) (9 / 1600) (c_Scalc (ex_s1 (1 / 10) (1 / 20))) 1 20
           (@ex_corrector 19 [0%nat; 0%nat])).
Defined.

Lemma corrector_holds_set_points_witness :
  kept ex_pv ex_pq ex_V (c_V (ex_s1 (1 / 10) (1 / 20))).
Proof.
  exact (corrector_holds_set_points ex_create_J back_subst ex_Ybus ex_Sbus
           ex_pv ex_pq ex_Sxfr ex_V 0 ex_z (1 / 10) (Param Natural) (1 / 20)
           [0%nat; 0%nat] ex_V (c_V (ex_s1 (1 / 10) (1 / 20))) (1 / 10)
           (1 / 10) (9 / 1600) (c_Scalc (ex_s1 (1 / 10) (1 / 20))) true 1 20
           (@ex_corrector 19 [0%nat; 0%nat])).
Defined.

Lemma predictor_holds_set_points_witness :
  kept ex_pv ex_pq ex_V [(1, 0); (47 / 50, 0)].
Proof.
  exact (predictor_holds_set_points ex_create_J back_subst ex_V 0 ex_Ybus
           ex_Sxfr ex_pv ex_pq (1 / 10) ex_z ex_V 0 (Param Natural)
           [0%nat; 0%nat] [(1, 0); (47 / 50, 0)] (2 / 25) ex_z1
           (@ex_predictor [0%nat; 0%nat])).
Defined.

Lemma ex_cpf_p_jac_natural :
  cpf_p_jac (Param Natural) ex_z ex_V (1 / 2) ex_V 0 ex_pv ex_pq ex_pq
  = Ok ([0; 0], 1).
Proof. unfold cpf_p_jac. rewrite Rleb_true by lra. reflexivity. Qed.

Lemma cpf_p_jac_lambda_slope_nonzero_witness : 1 <> 0.
Proof.
  apply (cpf_p_jac_lambda_slope_nonzero Natural ex_z ex_V ex_V (1 / 2) 0
           ex_pv ex_pq ex_pq [0; 0] 1).
  - discriminate.
  - exact ex_cpf_p_jac_natural.
Defined.

Lemma cpf_p_jac_is_lambda_derivative_witness :
  derivable_pt_lim
    (cpf_p_value (Param Natural) (1 / 10) ex_z ex_V ex_V 0 ex_pv ex_pq ex_pq)
    (1 / 2) 1.
Proof.
  apply (cpf_p_jac_is_lambda_derivative Natural (1 / 10) ex_z ex_V ex_V
           (1 / 2) 0 ex_pv ex_pq ex_pq [0; 0] 1).
  - intros _. lra.
  - unfold cpf_p. destruct (Rleb 0 (1 / 2)); exact I.
  - exact ex_cpf_p_jac_natural.
Defined.

(** the error of a prediction that the corrector accepted as it is *)
Lemma ex_cpf_error_zero :
  cpf_error_of ex_V0 ex_V0 (2 / 25) (2 / 25) ex_pq ex_pq = Ok 0.
Proof.
  unfold cpf_error_of, ex_V0, ex_pq. simpl. unfold norm_inf. simpl.
  f_equal.
  repeat match goal with
         | |- context [?a - ?a] => replace (a - a) with 0 by ring
         end.
  rewrite Rabs_R0. rewrite !(Rmax_left 0 0) by lra. reflexivity.
Qed.

Lemma ex_adapt_grows :
  adapt (1 / 10) (1 / 1000) (1 / 1000) (1 / 5) (guard_zero 0) = 1 / 5.
Proof.
  unfold guard_zero. rewrite Reqb_true by reflexivity.
  unfold adapt. rewrite Rltb_true by lra. rewrite Rltb_true by lra.
  reflexivity.
Qed.

Lemma ex_run_adaptive_eval : ex_run_adaptive 1 = Running ex_adaptive_pass1.
Proof.
  unfold ex_run_adaptive, continuation_nr.
  rewrite ex_continuation_init. cbn [continuation_loop].
  unfold loop_body, attempt. norm_state.
  rewrite ex_predictor. norm_state.
  rewrite ex_corrector_predicted by (right; lra). norm_state.
  rewrite Rltb_true by lra.
  unfold check_controls. norm_state.
  unfold check_stop. norm_state. rewrite Rltb_false by lra.
  unfold adapt_step_size. norm_state. cbn [andb].
  fold ex_V0. change [1%nat] with ex_pq at 1.
  rewrite ex_cpf_error_zero. cbn [bind]. rewrite ex_adapt_grows.
  reflexivity.
Qed.

Lemma adaptive_step_stays_in_bounds_witness :
  1 / 1000 <= d_step ex_adaptive_pass1 <= 1 / 5.
Proof.
  pose proof (adaptive_step_stays_in_bounds ex_create_J back_subst
                ex_control_q ex_compile_types 1 ex_Ybus ex_Sbus ex_Starget
                ex_V ex_pv ex_pq (1 / 10) (Param Natural) true (1 / 1000)
                (1 / 5) (1 / 1000) (1 / 20) 20 (StopAt Nose) NoControl [] []
                (Some [3%Z; 1%Z]) true ltac:(lra) ltac:(lra)) as H.
  fold (ex_run_adaptive 1) in H. rewrite ex_run_adaptive_eval in H.
  exact (H eq_refl).
Defined.

Lemma missing_bus_types_raise_at_entry_witness :
  continuation_nr ex_create_J back_subst ex_control_q ex_compile_types 5
    ex_Ybus ex_Sbus ex_Starget ex_V ex_pv ex_pq (1 / 10) (Param Natural)
    false (1 / 1000) (1 / 5) (1 / 1000) (1 / 20) 20 (StopAt Nose) NoControl
    [] [] None false
  = RaisedAtEntry AttributeError.
Proof.
  apply (missing_bus_types_raise_at_entry ex_create_J back_subst
           ex_control_q ex_compile_types 5 ex_Ybus ex_Sbus ex_Starget ex_V
           ex_pv ex_pq (1 / 10) (Param Natural) false (1 / 1000) (1 / 5)
           (1 / 1000) (1 / 20) 20 (StopAt Nose) NoControl [] [] false).
  reflexivity.
Defined.

(** a bus index beyond the rows of the two-bus admittance matrix *)
Lemma entry_index_check_witness :
  continuation_nr ex_create_J back_subst ex_control_q ex_compile_types 5
    ex_Ybus ex_Sbus ex_Starget ex_V ex_pv [2%nat] (1 / 10) (Param Natural)
    false (1 / 1000) (1 / 5) (1 / 1000) (1 / 20) 20 (StopAt Nose) NoControl
    [] [] (Some [3%Z; 1%Z]) false
  = RaisedAtEntry IndexError
  /\
  forall e,
    continuation_nr ex_create_J back_subst ex_control_q ex_compile_types 5
      ex_Ybus ex_Sbus ex_Starget ex_V ex_pv ex_pq (1 / 10) (Param Natural)
      false (1 / 1000) (1 / 5) (1 / 1000) (1 / 20) 20 (StopAt Nose)
      NoControl [] [] (Some [3%Z; 1%Z]) false
    <> RaisedAtEntry e.
Proof.
  split.
  - apply (entry_index_check ex_create_J back_subst ex_control_q
             ex_compile_types 5 ex_Ybus ex_Sbus ex_Starget ex_V ex_pv
             [2%nat] (1 / 10) (Param Natural) false (1 / 1000) (1 / 5)
             (1 / 1000) (1 / 20) 20 (StopAt Nose) NoControl [] []
             [3%Z; 1%Z] false 1); [reflexivity | reflexivity |].
    apply Exists_cons_hd. simpl. lia.
  - apply (entry_index_check ex_create_J back_subst ex_control_q
             ex_compile_types 5 ex_Ybus ex_Sbus ex_Starget ex_V ex_pv
             ex_pq (1 / 10) (Param Natural) false (1 / 1000) (1 / 5)
             (1 / 1000) (1 / 20) 20 (StopAt Nose) NoControl [] []
             [3%Z; 1%Z] false 1); [reflexivity | reflexivity |].
    repeat constructor.
Defined.

Lemma lookup_table_inverts_pvpq_witness :
  [1%nat] = ex_pv ++ ex_pq /\
  (forall k, (k < length [1%nat])%nat ->
             nth (nth k [1%nat] 0%nat) [0%nat; 0%nat] 0%nat = k) /\
  (forall j, ~ In j [1%nat] -> nth j [0%nat; 0%nat] 0%nat = 0%nat).
Proof.
  apply (lookup_table_inverts_pvpq ex_Ybus ex_Sbus ex_Starget ex_pv ex_pq
           (Some [3%Z; 1%Z]) ex_Sxfr [1%nat] [3%Z; 1%Z] ex_z
           [0%nat; 0%nat]).
  - exact ex_continuation_init.
  - repeat constructor. simpl. tauto.
Defined.

Lemma cpf_p_pseudo_arc_length_witness :
  cpf_p (Param PseudoArcLength) (1 / 10) ex_z1 ex_V (1 / 2) ex_V (1 / 2)
    ex_pv ex_pq ex_pq = Ok (- (1 / 10)).
Proof.
  apply (cpf_p_pseudo_arc_length (1 / 10) ex_z1 ex_V ex_V (3 / 4) (1 / 2)
           ex_pv ex_pq ex_pq); try (repeat constructor).
Defined.

(** a prediction with a step of length zero *)
Lemma ex_predictor_zero_step (pvpq_lookup : list nat) :
  predictor ex_create_J back_subst ex_V (1 / 10) ex_Ybus ex_Sxfr ex_pv ex_pq
    0 ex_z ex_V 0 (Param Natural) pvpq_lookup
  = Ok (ex_V, 1 / 10, ex_z1).
Proof.
  unfold predictor. rewrite ex_tangent_system by lra. cbn [bind].
  change (unit_rhs (length ex_pv) (length ex_pq)) with [0; 0; 1].
  rewrite ex_tangent_solve.
  change (length ex_V) with 2%nat. rewrite ex_tangent. simpl.
  rewrite !Cabs_real by lra. rewrite !angle_real_pos by lra.
  replace (0 + 0 * 0) with 0 by lra. rewrite !polar_0.
  unfold ex_V. reals.
Qed.

Lemma predictor_zero_step_witness : ex_V = ex_V /\ 1 / 10 = 1 / 10.
Proof.
  exact (predictor_zero_step ex_create_J back_subst ex_V (1 / 10) ex_Ybus
           ex_Sxfr ex_pv ex_pq ex_z ex_V 0 (Param Natural) [0%nat; 0%nat]
           ex_V (1 / 10) ex_z1 (@ex_predictor_zero_step [0%nat; 0%nat])).
Defined.

(** the linear system of the first Newton iteration, solved exactly *)
Lemma ex_newton_solves :
  solves ex_J2 (back_subst ex_J2 (ex_F 1 (1 / 10) 0 (1 / 10)))
    (ex_F 1 (1 / 10) 0 (1 / 10)).
Proof.
  split; [reflexivity|].
  unfold mat_vec, back_subst, ex_J2, ex_F. simpl. reals.
Qed.

Lemma natural_corrector_lands_on_step_witness :
  1 / 10 = if Rleb 0 (1 / 10) then 0 + 1 / 10 else 0 - 1 / 10.
Proof.
  apply (natural_corrector_lands_on_step ex_create_J back_subst ex_Ybus
           ex_Sbus ex_pv ex_pq ex_Sxfr ex_V 0 ex_z (1 / 10) (1 / 20)
           [0%nat; 0%nat] ex_V (c_V (ex_s1 (1 / 10) (1 / 20))) (1 / 10)
           (1 / 10) (9 / 1600) (c_Scalc (ex_s1 (1 / 10) (1 / 20))) true 1 20
           (ex_s0 (1 / 10) (1 / 10) (1 / 20))).
  - lra.
  - apply ex_corrector_init_flat. lra.
  - apply (@ex_corrector 19 [0%nat; 0%nat]).
  - intros n sn J2 Hn Hit HJ.
    assert (n = 0%nat) by lia. subst n.
    cbn [newton_iter] in Hit. injection Hit as <-.
    unfold ex_s0 in HJ. cbn [c_V c_lam] in HJ.
    rewrite ex_tangent_system in HJ by lra. injection HJ as <-.
    exact ex_newton_solves.
  - apply le_n.
Defined.

(** an index beyond the two buses *)
Lemma cpf_p_raises_only_index_error_witness :
  IndexError = IndexError /\
  (Param ArcLength = Param ArcLength \/
   Param ArcLength = Param PseudoArcLength).
Proof.
  apply (proj1 (cpf_p_raises_only_index_error (Param ArcLength) (1 / 10)
                  ex_z ex_V ex_V 0 0 [] [5%nat] IndexError)).
  reflexivity.
Defined.

(** the first pass of the adaptive run, and a run that ends with a step that
    did not converge *)
Lemma nose_lambda_series_monotone_witness :
  nondecreasing (0 :: d_lambda_series ex_adaptive_pass1) /\
  d_lam ex_adaptive_pass1 = last (0 :: d_lambda_series ex_adaptive_pass1) 0.
Proof.
  pose proof (nose_lambda_series_monotone ex_create_J back_subst
                ex_control_q ex_compile_types 1 ex_Ybus ex_Sbus ex_Starget
                ex_V ex_pv ex_pq (1 / 10) (Param Natural) true (1 / 1000)
                (1 / 5) (1 / 1000) (1 / 20) 20 NoControl [] []
                (Some [3%Z; 1%Z]) true) as H.
  fold (ex_run_adaptive 1) in H. rewrite ex_run_adaptive_eval in H.
  exact H.
Defined.

Lemma call_back_once_per_converged_step_witness :
  d_callbacks ex_adaptive_pass1 = d_lambda_series ex_adaptive_pass1.
Proof.
  pose proof (call_back_once_per_converged_step ex_create_J back_subst
                ex_control_q ex_compile_types 1 ex_Ybus ex_Sbus ex_Starget
                ex_V ex_pv ex_pq (1 / 10) (Param Natural) true (1 / 1000)
                (1 / 5) (1 / 1000) (1 / 20) 20 (StopAt Nose) NoControl [] []
                (Some [3%Z; 1%Z])) as H.
  fold (ex_run_adaptive 1) in H. rewrite ex_run_adaptive_eval in H.
  exact H.
Defined.

Lemma returned_success_is_tolerance_test_witness :
  d_success (ex_first_pass false false) = true <->
  d_normF (ex_first_pass false false) < 1 / 1000000.
Proof.
  pose proof (returned_success_is_tolerance_test ex_create_J back_subst
                ex_control_q ex_compile_types 1 ex_Ybus ex_Sbus ex_Starget
                ex_V ex_pv ex_pq (1 / 10) (Param Natural) false (1 / 1000)
                (1 / 5) (1 / 1000) (1 / 1000000) 0
                (StopOther (PyStr "Nose")) NoControl [] []
                (Some [3%Z; 1%Z]) false) as H.
  fold (ex_run (1 / 1000000) 0) in H.
  rewrite ex_run_eval in H by (left; reflexivity).
  rewrite Rltb_false in H by lra. exact H.
Defined.
